(** * Resume text reconstruction (the route POST /api/parse/resume)

    A shallow embedding of [reconstructResumeText] and of the [POST] handler
    that calls it, with the properties the specification states about them.

    JavaScript strings are sequences of UTF-16 code units; a code unit is an
    [N] and a string a [list N].  The regular expressions of the source are
    kept as syntax trees and run by a backtracking matcher in the order an
    ECMAScript engine tries the alternatives. *)

From Stdlib Require Import String Ascii.
From Stdlib Require Import List NArith Arith Bool Lia.
Import ListNotations.

Set Implicit Arguments.

(** ** Code units and strings *)

Definition char := N.
Definition str := list char.

Definition LF : char := 10%N.
Definition CR : char := 13%N.
Definition TAB : char := 9%N.
Definition SP : char := 32%N.
Definition HYPHEN : char := 45%N.

(** A string literal of the source: its bytes, with the escapes [\n], [\r]
    and [\t] decoded.  Only used for ASCII literals. *)
Fixpoint js (s : string) : str :=
  match s with
  | EmptyString => []
  | String "\" (String "n" s') => LF :: js s'
  | String "\" (String "r" s') => CR :: js s'
  | String "\" (String "t" s') => TAB :: js s'
  | String c s' => N_of_ascii c :: js s'
  end.

Open Scope N_scope.

Definition in_range (lo hi c : char) : bool := (lo <=? c) && (c <=? hi).

(** One of the characters of an ASCII literal, as in a class [[...]]. *)
Definition one_of (set : string) (c : char) : bool :=
  existsb (N.eqb c) (js set).

Definition is_char (x c : char) : bool := c =? x.

(** [\s] of a regular expression, which is also what [trim] strips:
    WhiteSpace and LineTerminator of ECMAScript. *)
Definition is_ws (c : char) : bool :=
  in_range 9 13 c            (* TAB LF VT FF CR *)
  || is_char 32 c            (* SP *)
  || is_char 160 c           (* NBSP *)
  || is_char 5760 c          (* U+1680 *)
  || in_range 8192 8202 c    (* U+2000 .. U+200A *)
  || in_range 8232 8233 c    (* LS PS *)
  || is_char 8239 c          (* U+202F *)
  || is_char 8287 c          (* U+205F *)
  || is_char 12288 c         (* U+3000 *)
  || is_char 65279 c.        (* U+FEFF *)

(** [\d] *)
Definition is_digit (c : char) : bool := in_range 48 57 c.

(** [[A-Za-z]] *)
Definition is_letter (c : char) : bool := in_range 65 90 c || in_range 97 122 c.

Close Scope N_scope.

(** ** String.prototype methods *)

Fixpoint trimStart (s : str) : str :=
  match s with
  | c :: s' => if is_ws c then trimStart s' else s
  | [] => []
  end.

Definition trimEnd (s : str) : str := rev (trimStart (rev s)).

Definition trim (s : str) : str := trimEnd (trimStart s).

(** [s.split(sep)] for a one-character separator: never an empty array. *)
Fixpoint split (sep : char) (s : str) : list str :=
  match s with
  | [] => [[]]
  | c :: s' =>
      if (c =? sep)%N then [] :: split sep s'
      else match split sep s' with
           | l :: ls => (c :: l) :: ls
           | [] => [[c]]
           end
  end.

(** [arr.join(sep)] *)
Fixpoint join (sep : str) (ls : list str) : str :=
  match ls with
  | [] => []
  | [l] => l
  | l :: ls' => l ++ sep ++ join sep ls'
  end.

(** ** Regular expressions *)

Module Regex.

(** The fragment the source uses.  Every quantifier of the source is on a
    single character class. *)
Inductive regex : Type :=
| Cls (p : char -> bool)              (* a literal, [\s], [\d] or [[...]] *)
| Rep (min : nat) (p : char -> bool)  (* greedy [p{min,}]; [p*] is [Rep 0 p], [p+] is [Rep 1 p] *)
| Opt (p : char -> bool)              (* greedy [p?] *)
| Seq (a b : regex)
| Alt (a b : regex)
| Bol                                 (* [^], no multiline flag *)
| Eol                                 (* [$], no multiline flag *)
| Ahead (a : regex).                  (* [(?=a)] *)

(** The matcher walks the input from index [pos], where the rest of the
    input is [s], and calls the continuation where the match ends.  It
    answers with the end index of the first match in priority order. *)
Definition cont := nat -> str -> option nat.

Definition orelse (a : option nat) (b : unit -> option nat) : option nat :=
  match a with
  | Some e => Some e
  | None => b tt
  end.

Fixpoint rep (p : char -> bool) (min : nat) (pos : nat) (s : str) (k : cont)
  : option nat :=
  let stop (_ : unit) := match min with O => k pos s | S _ => None end in
  match s with
  | c :: s' =>
      if p c then orelse (rep p (pred min) (S pos) s' k) stop else stop tt
  | [] => stop tt
  end.

Fixpoint run (r : regex) (pos : nat) (s : str) (k : cont) : option nat :=
  match r with
  | Cls p =>
      match s with
      | c :: s' => if p c then k (S pos) s' else None
      | [] => None
      end
  | Rep min p => rep p min pos s k
  | Opt p =>
      match s with
      | c :: s' =>
          if p c then orelse (k (S pos) s') (fun _ => k pos s) else k pos s
      | [] => k pos s
      end
  | Seq a b => run a pos s (fun pos' s' => run b pos' s' k)
  | Alt a b => orelse (run a pos s k) (fun _ => run b pos s k)
  | Bol => match pos with O => k pos s | S _ => None end
  | Eol => match s with [] => k pos s | _ :: _ => None end
  | Ahead a =>
      match run a pos s (fun e _ => Some e) with
      | Some _ => k pos s
      | None => None
      end
  end.

(** A match that starts at index [pos]: the index where it ends. *)
Definition exec_at (r : regex) (pos : nat) (s : str) : option nat :=
  run r pos s (fun e _ => Some e).

(** The leftmost match at or after [pos]. *)
Fixpoint search (r : regex) (pos : nat) (s : str) : option (nat * nat) :=
  match exec_at r pos s with
  | Some e => Some (pos, e)
  | None =>
      match s with
      | [] => None
      | _ :: s' => search r (S pos) s'
      end
  end.

(** [r.test(s)] for a regular expression with no [g] or [y] flag. *)
Definition test (r : regex) (s : str) : bool :=
  match search r 0 s with
  | Some _ => true
  | None => false
  end.

(** [s.replace(r, ...)] for a regular expression with the [g] flag.  The
    replacement is a function of the matched text.  [skip] counts the
    characters of the last match still to pass; after an empty match the
    scan moves on by one character, which is copied. *)
Fixpoint replace_from (r : regex) (repl : str -> str) (skip pos : nat) (s : str)
  : str :=
  match skip with
  | S skip' =>
      match s with
      | [] => []
      | _ :: s' => replace_from r repl skip' (S pos) s'
      end
  | O =>
      match exec_at r pos s with
      | Some e =>
          let len := e - pos in
          repl (firstn len s)
          ++ match s with
             | [] => []
             | c :: s' =>
                 match len with
                 | O => c :: replace_from r repl 0 (S pos) s'
                 | S len' => replace_from r repl len' (S pos) s'
                 end
             end
      | None =>
          match s with
          | [] => []
          | c :: s' => c :: replace_from r repl 0 (S pos) s'
          end
      end
  end.

Definition replace (r : regex) (repl : str -> str) (s : str) : str :=
  replace_from r repl 0 0 s.

(** What a match is: [matches r pos s pos' s'] when [r] matches from index
    [pos], where the input is [s], up to index [pos'], where [s'] is left. *)
Fixpoint matches (r : regex) (pos : nat) (s : str) (pos' : nat) (s' : str) : Prop :=
  match r with
  | Cls p => exists c, s = c :: s' /\ p c = true /\ pos' = S pos
  | Rep min p =>
      exists w, s = w ++ s' /\ forallb p w = true
                /\ min <= length w /\ pos' = pos + length w
  | Opt p =>
      (s' = s /\ pos' = pos)
      \/ (exists c, s = c :: s' /\ p c = true /\ pos' = S pos)
  | Seq a b => exists pm sm, matches a pos s pm sm /\ matches b pm sm pos' s'
  | Alt a b => matches a pos s pos' s' \/ matches b pos s pos' s'
  | Bol => pos = 0 /\ s' = s /\ pos' = pos
  | Eol => s = [] /\ s' = s /\ pos' = pos
  | Ahead a => (exists e r', matches a pos s e r') /\ s' = s /\ pos' = pos
  end.

End Regex.
Import Regex.

Declare Scope regex_scope.
Delimit Scope regex_scope with re.
Bind Scope regex_scope with regex.
Infix "+++" := Seq (at level 40, left associativity) : regex_scope.
Infix "|||" := Alt (at level 50, left associativity) : regex_scope.

(** ** reconstructResumeText *)

Definition BULLET : char := 8226%N.            (* U+2022 *)
Definition TRIANGULAR_BULLET : char := 8227%N. (* U+2023 *)
Definition SMALL_SQUARE : char := 9642%N.      (* U+25AA *)
Definition WHITE_BULLET : char := 9702%N.      (* U+25E6 *)

(** [[-*•‣▪◦]] *)
Definition is_marker (c : char) : bool :=
  one_of "-*" c || is_char BULLET c || is_char TRIANGULAR_BULLET c
  || is_char SMALL_SQUARE c || is_char WHITE_BULLET c.

(** [/([A-Za-z])-\n(?=[A-Za-z])/g] *)
Definition softHyphen : regex :=
  (Cls is_letter +++ Cls (is_char HYPHEN) +++ Cls (is_char LF)
   +++ Ahead (Cls is_letter))%re.

(** The replacement [$1]: group 1 is the first character of the match. *)
Definition group1 (m : str) : str := firstn 1 m.

(** [/\r/g] *)
Definition carriageReturn : regex := Cls (is_char CR).

(** [/\s+$/g] *)
Definition trailingSpace : regex := (Rep 1 is_ws +++ Eol)%re.

(** [/^(\s*[-*•‣▪◦]|(\s*\d+[\.)]))\s+/] *)
Definition bullets : regex :=
  (Bol +++ (Rep 0 is_ws +++ Cls is_marker
           ||| Rep 0 is_ws +++ Rep 1 is_digit +++ Cls (one_of ".)"))
   +++ Rep 1 is_ws)%re.

(** [/[:;]\s*$|^\s*[-*•‣▪◦]|\)\s*$/] *)
Definition hardBreakAfter : regex :=
  (Cls (one_of ":;") +++ Rep 0 is_ws +++ Eol
   ||| Bol +++ Rep 0 is_ws +++ Cls is_marker
   ||| Cls (is_char 41%N) +++ Rep 0 is_ws +++ Eol)%re.

(** [/[.!?][Q')\]]?\s*$/], where Q (code 34) is the double quote. *)
Definition sentenceEnd : regex :=
  (Cls (one_of ".!?") +++ Opt (fun c => is_char 34%N c || one_of "')]" c)
   +++ Rep 0 is_ws +++ Eol)%re.

(** [/[ \t]+\n/g] *)
Definition spaceBeforeNewline : regex :=
  (Rep 1 (fun c => is_char SP c || is_char TAB c) +++ Cls (is_char LF))%re.

(** [/\n{3,}/g] *)
Definition tripleNewline : regex := Rep 3 (is_char LF).

(** The two variables the closure [flush] and the loop body share. *)
Record state : Type := mkState { out : list str; buf : str }.

Definition flush (st : state) : state :=
  let s := trim (buf st) in
  {| out := match s with [] => out st | _ :: _ => out st ++ [s] end;
     buf := [] |}.

Definition push (l : str) (st : state) : state :=
  {| out := out st ++ [l]; buf := buf st |}.

(** [buf += (buf ? ' ' : '') + cur] *)
Definition append (cur : str) (st : state) : state :=
  {| out := out st;
     buf := buf st ++ (match buf st with [] => [] | _ :: _ => [SP] end) ++ cur |}.

Definition nonempty (s : str) : bool :=
  match s with [] => false | _ :: _ => true end.

Definition joinSoftly (cur next : str) : bool :=
  (0 <? length cur)
  && negb (test sentenceEnd cur)
  && negb (test hardBreakAfter cur)
  && nonempty next
  && negb (test bullets next).

(** The body of the [for] loop once [cur] and [next] are known. *)
Definition step (cur next : str) (st : state) : state :=
  if negb (nonempty cur) then flush st
  else if test bullets cur then push cur (flush st)
  else if joinSoftly cur next then append cur st
  else flush (append cur st).

(** One iteration at index [i].  [lines[i]] of an index out of range is
    [undefined], whose [.trim()] throws a TypeError: [None].
    [lines[i + 1] || ''] is the empty string past the end. *)
Definition iteration (lines : list str) (i : nat) (st : state) : option state :=
  match nth_error lines i with
  | None => None
  | Some l =>
      let cur := trim l in
      let next := trim (match nth_error lines (i + 1) with
                        | Some l' => l'
                        | None => []
                        end) in
      Some (step cur next st)
  end.

(** [for (let i = ...; i < lines.length; i++)], with [todo] iterations left. *)
Fixpoint for_loop (lines : list str) (todo i : nat) (st : state) : option state :=
  match todo with
  | O => Some st
  | S todo' =>
      match iteration lines i st with
      | Some st' => for_loop lines todo' (S i) st'
      | None => None
      end
  end.

Section Reconstruct.

(** [String.prototype.normalize] with the form NFKC, of the runtime. *)
Variable normalize : str -> str.

Definition dehyphenated (normalized : str) : str :=
  replace softHyphen group1 normalized.

Definition input_lines (normalized : str) : list str :=
  map (replace trailingSpace (fun _ => []))
    (split LF (replace carriageReturn (fun _ => []) (dehyphenated normalized))).

(** The last statement: join, tidy, trim. *)
Definition finish (out : list str) : str :=
  trim (replace tripleNewline (fun _ => [LF; LF])
          (replace spaceBeforeNewline (fun _ => [LF]) (join [LF] out))).

(** [None] stands for an exception. *)
Definition reconstructResumeText (input : str) : option str :=
  let lines := input_lines (normalize input) in
  match for_loop lines (length lines) 0 {| out := []; buf := [] |} with
  | Some st => Some (finish (out (flush st)))
  | None => None
  end.

End Reconstruct.


(** The loop as a sweep over the lines, [after] being what follows the last
    of them ([lines[i + 1] || ''] is the empty string at the end). *)
Fixpoint sweep (ls : list str) (after : str) (st : state) : state :=
  match ls with
  | [] => st
  | l :: ls' => sweep ls' after (step (trim l) (trim (hd after ls')) st)
  end.

(** The array [out] when the loop and the last [flush()] are done. *)
Definition paragraphs (lines : list str) : list str :=
  out (flush (sweep lines [] {| out := []; buf := [] |})).

(** ** The handler POST /api/parse/resume *)

(** An awaited promise: its value, or the exception it rejects with, of
    which the handler reads the message only. *)
Inductive result (A : Type) : Type :=
| Ok (a : A)
| Throw (message : str).
Arguments Ok {A} a.
Arguments Throw {A} message.

Definition bind {A B : Type} (m : result A) (f : A -> result B) : result B :=
  match m with
  | Ok a => f a
  | Throw e => Throw e
  end.

Notation "x <- m ;; f" := (bind m (fun x => f))
  (at level 61, m at next level, right associativity).

Record File : Type := mkFile {
  file_name : str;
  file_type : str;
  file_text : result str            (* [await file.text()] *)
}.

(** [form.get(name)]: null, a string, or a File. *)
Inductive FormEntry : Type :=
| NoEntry
| StringEntry (s : str)
| FileEntry (f : File).

(** The response of the upstream parser.  [res_json] is [await res.json()]
    read through [data?.text]: the string, if it is one. *)
Record UpstreamResponse : Type := mkUpstream {
  res_ok : bool;
  res_status : N;
  res_text : result str;            (* [await res.text()] *)
  res_json : result (option str)
}.

(** What the handler reads from its environment: the two variables of
    [process.env], the form of the request, and [fetch], which answers to the
    URL and to the file appended to the form under the given name. *)
Record Request : Type := mkRequest {
  BACKEND_URL : option str;
  NEXT_PUBLIC_BACKEND_URL : option str;
  formData : result FormEntry;      (* [await req.formData()], then [get] *)
  fetch : str -> str -> File -> result UpstreamResponse
}.

(** The JSON bodies the handler sends. *)
Inductive Body : Type :=
| Parsed (text : str) (chars : nat)
| Failed (error : str)
| FailedWithHint (error hint : str).

Record Response : Type := mkResponse { status : N; body : Body }.

(** [a || b] on strings, [undefined] included. *)
Definition or_str (a : option str) (b : str) : str :=
  match a with
  | Some (c :: s) => c :: s
  | _ => b
  end.

(** [s.replace(r, ...)] for a regular expression without the [g] flag. *)
Definition replace_first (r : regex) (repl : str -> str) (s : str) : str :=
  match search r 0 s with
  | Some (b, e) => firstn b s ++ repl (firstn (e - b) (skipn b s)) ++ skipn e s
  | None => s
  end.

(** [/\/$/] *)
Definition trailingSlash : regex := (Cls (is_char 47%N) +++ Eol)%re.

Fixpoint startsWith (prefix s : str) : bool :=
  match prefix, s with
  | [], _ => true
  | p :: prefix', c :: s' => (c =? p)%N && startsWith prefix' s'
  | _ :: _, [] => false
  end.

Fixpoint str_eqb (a b : str) : bool :=
  match a, b with
  | [], [] => true
  | x :: a', y :: b' => (x =? y)%N && str_eqb a' b'
  | _, _ => false
  end.

Fixpoint digits (u : Decimal.uint) : str :=
  match u with
  | Decimal.Nil => []
  | Decimal.D0 u' => 48%N :: digits u'
  | Decimal.D1 u' => 49%N :: digits u'
  | Decimal.D2 u' => 50%N :: digits u'
  | Decimal.D3 u' => 51%N :: digits u'
  | Decimal.D4 u' => 52%N :: digits u'
  | Decimal.D5 u' => 53%N :: digits u'
  | Decimal.D6 u' => 54%N :: digits u'
  | Decimal.D7 u' => 55%N :: digits u'
  | Decimal.D8 u' => 56%N :: digits u'
  | Decimal.D9 u' => 57%N :: digits u'
  end.

(** A status code in a template literal. *)
Definition decimal (n : N) : str := digits (N.to_uint n).

Section Handler.

Variable normalize : str -> str.
(** [String.prototype.toLowerCase], of the runtime. *)
Variable toLowerCase : str -> str.
(** The message of the TypeError of [undefined.trim()]. *)
Variable typeError : str.

Definition respond (b : Body) (code : N) : result Response :=
  Ok {| status := code; body := b |}.

Definition cleaned (raw : str) : result Response :=
  match reconstructResumeText normalize raw with
  | Some clean => respond (Parsed clean (length clean)) 200
  | None => Throw typeError
  end.

(** The body of the [try] block. *)
Definition handle (req : Request) : result Response :=
  let upstream :=
    replace_first trailingSlash (fun _ => [])
      (or_str (BACKEND_URL req) (or_str (NEXT_PUBLIC_BACKEND_URL req) [])) in
  entry <- formData req ;;
  match entry with
  | NoEntry | StringEntry _ => respond (Failed (js "Missing file")) 400
  | FileEntry file =>
      if nonempty upstream then
        res <- fetch req (upstream ++ js "/parse/resume")
                 (or_str (Some (file_name file)) (js "resume")) file ;;
        if negb (res_ok res) then
          let text := match res_text res with Ok t => t | Throw _ => [] end in
          respond (Failed (js "Upstream parse failed: " ++ decimal (res_status res)
                           ++ [SP] ++ text)) 502
        else
          data <- res_json res ;;
          cleaned (match data with Some t => t | None => [] end)
      else
        let mime := toLowerCase (or_str (Some (file_type file)) []) in
        if startsWith (js "text/") mime || str_eqb mime (js "application/json") then
          raw <- file_text file ;;
          cleaned raw
        else
          respond
            (FailedWithHint
               (js "PDF parsing backend is not configured. Set BACKEND_URL (or NEXT_PUBLIC_BACKEND_URL) to your parser service.")
               (js "Dev tip: add BACKEND_URL=http://localhost:8081 to web/.env.local and run your parser; or install pdf-parse and parse locally, then pass through reconstructResumeText()."))
            501
  end.

(** [try { ... } catch (e) { ... }] *)
Definition POST (req : Request) : Response :=
  match handle req with
  | Ok r => r
  | Throw message =>
      {| status := 500; body := Failed (or_str (Some message) (js "Unknown error")) |}
  end.

End Handler.

(** ** What the properties are stated with *)

(** Whether a string starts, or ends, with a white space character. *)
Definition leading_ws (s : str) : bool :=
  match s with
  | c :: _ => is_ws c
  | [] => false
  end.

Definition trailing_ws (s : str) : bool := leading_ws (rev s).

(** A run of [n] newlines somewhere in [s]. *)
Definition has_newlines (n : nat) (s : str) : Prop :=
  exists a b, s = a ++ repeat LF n ++ b.

(** NFKC leaves ASCII text as it is. *)
Definition is_ascii (s : str) : bool := forallb (fun c => (c <? 128)%N) s.

Definition fixes_ascii (normalize : str -> str) : Prop :=
  forall s, is_ascii s = true -> normalize s = s.

(** A line of the result: not empty, without a newline, and without white
    space at either end. *)
Definition clean_line (l : str) : Prop :=
  l <> [] /\ Forall (fun c => c <> LF) l
  /\ leading_ws l = false /\ trailing_ws l = false.

(** No white space character next to a newline. *)
Fixpoint tight (s : str) : bool :=
  match s with
  | x :: ((y :: _) as s') =>
      negb (is_ws x && is_char LF y) && negb (is_char LF x && is_ws y) && tight s'
  | _ => true
  end.

(** What is pushed to [out] is not empty and has no white space around. *)
Definition trimmed_line (l : str) : Prop :=
  l <> [] /\ leading_ws l = false /\ trailing_ws l = false.

(** A state whose characters all have the property [P]. *)
Definition keeps (P : char -> Prop) (st : state) : Prop :=
  Forall (Forall P) (out st) /\ Forall P (buf st).

(** ** Inputs and results of the stated examples *)

Definition paragraph_and_bullets : str :=
  js "Built scalable\nsystems for\nmillions of users.\n\n- Led team of 5\n- Shipped on time".

(** Its result as the specification gives it, with a blank line kept. *)
Definition paragraph_and_bullets_stated : str :=
  js "Built scalable systems for millions of users.\n\n- Led team of 5\n- Shipped on time".

(** Its result as the code computes it. *)
Definition paragraph_and_bullets_result : str :=
  js "Built scalable systems for millions of users.\n- Led team of 5\n- Shipped on time".

(** The length of the longest prefix of [s] in the class [p]. *)
Fixpoint run_length (p : char -> bool) (s : str) : nat :=
  match s with
  | c :: s' => if p c then S (run_length p s') else 0
  | [] => 0
  end.

(** The step [.replace(/\n{3,}/g, '\n\n')] of the last statement. *)
Definition collapse_newlines (s : str) : str :=
  replace tripleNewline (fun _ => [LF; LF]) s.

Definition collapse_from (skip pos : nat) (s : str) : str :=
  replace_from tripleNewline (fun _ => [LF; LF]) skip pos s.

(** A soft-hyphenated line break at the head of [s]: a letter, a hyphen, a
    newline, and a letter next. *)
Definition soft_break (s : str) : bool :=
  match s with
  | x :: h :: n :: y :: _ =>
      is_letter x && is_char HYPHEN h && is_char LF n && is_letter y
  | _ => false
  end.

Definition wrapped_word : str := js "infrastructur-\ne team".
Definition wrapped_word_result : str := js "infrastructure team".

(** A request with a text file and no upstream parser configured. *)
Definition text_upload : Request :=
  {| BACKEND_URL := None;
     NEXT_PUBLIC_BACKEND_URL := None;
     formData := Ok (FileEntry {| file_name := js "cv.txt";
                                  file_type := js "text/plain";
                                  file_text := Ok wrapped_word |});
     fetch := fun _ _ _ => Throw (js "fetch failed") |}.

(** The state [st] with the lines [o] put in front of its [out]. *)
Definition shift (o : list str) (st : state) : state :=
  {| out := o ++ out st; buf := buf st |}.

(** What the expression [bullets] accepts: optional white space, then a
    marker or a number with [.] or [)], then white space. *)
Definition bullet_shape (s : str) : Prop :=
  exists ws mk sp rest,
    s = ws ++ mk ++ sp ++ rest
    /\ forallb is_ws ws = true
    /\ ((exists c, mk = [c] /\ is_marker c = true)
        \/ (exists ds d, mk = ds ++ [d] /\ ds <> []
                         /\ forallb is_digit ds = true /\ one_of ".)" d = true))
    /\ sp <> [] /\ forallb is_ws sp = true.

Definition numbered_item : str := js "Managed a team\n1) Managed budget".

(** ** The join rule in the words of the specification *)

Definition last_is (p : char -> bool) (s : str) : bool :=
  match rev s with
  | c :: _ => p c
  | [] => false
  end.

(** A closing quote or bracket: the double quote (34), ['], [)] or []]. *)
Definition is_closer (c : char) : bool := is_char 34%N c || one_of "')]" c.

(** Ends in [.], [!] or [?], optionally followed by a closing quote or
    bracket. *)
Definition ends_sentence (s : str) : bool :=
  match rev s with
  | c :: before =>
      one_of ".!?" c
      || (is_closer c && match before with
                         | d :: _ => one_of ".!?" d
                         | [] => false
                         end)
  | [] => false
  end.

(** Ends in [:], [;] or a closing parenthesis. *)
Definition ends_hard_break (s : str) : bool := last_is (one_of ":;)") s.

Definition starts_with_marker (s : str) : bool :=
  match s with
  | c :: _ => is_marker c
  | [] => false
  end.

(** The condition as stated: no sentence end, no hard break, and a next
    line that is not empty and not a bullet line. *)
Definition stated_join (cur next : str) : bool :=
  negb (ends_sentence cur) && negb (ends_hard_break cur)
  && nonempty next && negb (test bullets next).

Definition heading_and_line : str := js "Skills:\nPython".
Definition indented_bullets : str := js "Summary\n   - Led team of 5  \n\t* Shipped on time".

(** ** Clean form *)

(** The loop leaves [cur] in the buffer, to be joined with [next]. *)
Definition wraps (cur next : str) : bool :=
  nonempty cur && negb (test bullets cur) && joinSoftly cur next.

(** No line is wrapped into the next one. *)
Fixpoint no_stray_wraps (ls : list str) : bool :=
  match ls with
  | l :: ((l' :: _) as ls') =>
      negb (wraps (trim l) (trim l')) && no_stray_wraps ls'
  | _ => true
  end.

(** A text in clean form: no soft-hyphenated line break, and no line
    wrapped into the next one. *)
Definition clean_form (s : str) : bool :=
  str_eqb (dehyphenated s) s && no_stray_wraps (input_lines s).

Definition two_paragraphs : str := js "foo\n\nbar".
Definition two_paragraphs_once : str := js "foo\nbar".
Definition two_paragraphs_twice : str := js "foo bar".

(** ** What the further properties are stated with *)

(** The characters of a text that are not white space, in their order. *)
Definition ink (s : str) : str := filter (fun c => negb (is_ws c)) s.

(** The ink of the lines in [out] and of the buffer. *)
Definition content (st : state) : str :=
  concat (map ink (out st)) ++ ink (buf st).

(** Not a carriage return. *)
Definition not_CR (c : char) : bool := negb (is_char CR c).

(** The length of the lines [ls] with one separator after each. *)
Fixpoint cost (ls : list str) : nat :=
  match ls with
  | [] => 0
  | l :: ls' => S (length l) + cost ls'
  end.

(** The same for a state, the buffer counting as a line if it is not
    empty. *)
Definition weight (st : state) : nat :=
  cost (out st) + match buf st with [] => 0 | _ :: _ => S (length (buf st)) end.

(** A line that ends what is in the buffer, whatever follows it: a blank
    line, a bullet line, a line that ends a sentence or one with a hard
    break. *)
Definition closes (l : str) : bool :=
  negb (nonempty (trim l)) || test bullets (trim l)
  || test sentenceEnd (trim l) || test hardBreakAfter (trim l).

(** A word on a line of its own that the loop joins with the next line: not
    empty, no white space in it, no sentence end, no hard break, no marker
    in front, and no hyphen at the end. *)
Definition plain_word (w : str) : bool :=
  nonempty w && forallb (fun c => negb (is_ws c)) w
  && negb (ends_sentence w) && negb (ends_hard_break w)
  && negb (starts_with_marker w) && negb (last_is (is_char HYPHEN) w).

(** A hyphen right before a newline somewhere in [s]. *)
Fixpoint hyphen_break (s : str) : bool :=
  match s with
  | x :: ((y :: _) as s') => (is_char HYPHEN x && is_char LF y) || hyphen_break s'
  | _ => false
  end.

(** The buffer [b] with the lines [ws] appended, a space between two. *)
Definition glue (b : str) (ws : list str) : str :=
  match b with
  | [] => join [SP] ws
  | _ :: _ => b ++ SP :: join [SP] ws
  end.

Definition one_word_per_line : list str :=
  [js "Senior"; js "software"; js "engineer"; js "at"; js "Acme"].

(** The lines that are not blank, trimmed. *)
Definition kept (lines : list str) : list str :=
  filter nonempty (map trim lines).

(** The state holds the lines [ks], in groups: the finished groups are the
    lines of [out], the open group is in the buffer, and the lines of a
    group have single spaces between them. *)
Definition grouped (st : state) (ks : list str) : Prop :=
  exists done cur,
    out st = map (join [SP]) done
    /\ buf st = join [SP] cur
    /\ concat done ++ cur = ks
    /\ Forall (fun g => g <> []) done
    /\ Forall trimmed_line ks.

(** ** The handler, further *)

Definition SLASH : char := 47%N.

(** The constant [upstream] of the handler. *)
Definition upstream (req : Request) : str :=
  replace_first trailingSlash (fun _ => [])
    (or_str (BACKEND_URL req) (or_str (NEXT_PUBLIC_BACKEND_URL req) [])).

(** The request [req] in a world where [fetch] answers as [f] does. *)
Definition with_fetch (f : str -> str -> File -> result UpstreamResponse)
    (req : Request) : Request :=
  {| BACKEND_URL := BACKEND_URL req;
     NEXT_PUBLIC_BACKEND_URL := NEXT_PUBLIC_BACKEND_URL req;
     formData := formData req;
     fetch := f |}.

(** The error message of a body that reports a failure. *)
Definition error_of (b : Body) : option str :=
  match b with
  | Parsed _ _ => None
  | Failed e => Some e
  | FailedWithHint e _ => Some e
  end.

(** A request with a file and an upstream parser that is down. *)
Definition upload_with_backend : Request :=
  {| BACKEND_URL := Some (js "http://localhost:8081/");
     NEXT_PUBLIC_BACKEND_URL := None;
     formData := Ok (FileEntry {| file_name := [];
                                  file_type := js "application/pdf";
                                  file_text := Throw (js "not text") |});
     fetch := fun _ _ _ =>
                Ok {| res_ok := false; res_status := 503%N;
                      res_text := Ok (js "down");
                      res_json := Throw (js "no json") |} |}.

(** ** The harvest page *)

Definition COMMA : char := 44%N.

(** [csvToList]: split at the commas, trim, drop what is empty. *)
Definition csvToList (s : str) : list str :=
  filter nonempty (map trim (split COMMA s)).

(** An item as [csvToList] gives it back: not empty, trimmed, no comma. *)
Definition csv_item (x : str) : Prop :=
  x <> [] /\ leading_ws x = false /\ trailing_ws x = false
  /\ Forall (fun c => c <> COMMA) x.

(** [onToggle] of the harvest page, as a function of the previous list:
    [prev.includes(name) ? prev.filter((s) => s !== name) : [...prev, name]]. *)
Definition onToggle (name : str) (prev : list str) : list str :=
  if existsb (str_eqb name) prev
  then filter (fun s => negb (str_eqb s name)) prev
  else prev ++ [name].

(** ** The filters of the job list *)

Inductive Policy : Type := PolicyAny | PolicyRemote | PolicyHybrid | PolicyOnsite.

(** [JobFilter] of the page: a field that is null or missing is [None]. *)
Record JobFilter : Type := mkJobFilter {
  jf_q : option str;
  jf_remote : option str;
  jf_level : option str;
  jf_location : option str;
  jf_posted_within_hours : option N
}.

Section Filters.

(** The dates of the range of the component, which the page does not use. *)
Variable Date : Type.

Record FiltersState : Type := mkFiltersState {
  fs_q : str;
  fs_policy : Policy;
  fs_seniority : str;
  fs_last24h : bool;
  fs_range : option Date * option Date
}.

Definition toInternalState (value : JobFilter) : FiltersState :=
  {| fs_q := match jf_q value with Some s => s | None => [] end;
     fs_policy :=
       match jf_remote value with
       | Some r =>
           if str_eqb r (js "true") then PolicyRemote
           else if str_eqb r (js "false") then PolicyOnsite
           else PolicyAny
       | None => PolicyAny
       end;
     fs_seniority := match jf_level value with Some l => l | None => js "any" end;
     fs_last24h :=
       match jf_posted_within_hours value with
       | Some n => (n =? 24)%N
       | None => false
       end;
     fs_range := (None, None) |}.

(** What [handleApply] passes to [onChange] when the state is [state]. *)
Definition handleApply (state : FiltersState) : JobFilter :=
  {| jf_q := if nonempty (fs_q state) then Some (fs_q state) else None;
     jf_remote :=
       match fs_policy state with
       | PolicyRemote => Some (js "true")
       | PolicyOnsite => Some (js "false")
       | _ => None
       end;
     jf_level :=
       if str_eqb (fs_seniority state) (js "any") then None
       else Some (fs_seniority state);
     jf_location := None;
     jf_posted_within_hours := if fs_last24h state then Some 24%N else None |}.

End Filters.

(** ** The base URL of the client *)

(** [PUBLIC_BACKEND] and [BASE] of the client library, as functions of
    [process.env.NEXT_PUBLIC_BACKEND_URL]. *)
Definition PUBLIC_BACKEND (env : option str) : str :=
  replace_first trailingSlash (fun _ => []) (or_str env []).

Definition BASE (env : option str) : str :=
  or_str (Some (PUBLIC_BACKEND env)) (js "/api").

(** ** The excerpt of a job description (lib/html) *)

From Stdlib Require Import BinInt.

Definition LT : char := 60%N.
Definition GT : char := 62%N.
Definition ELLIPSIS : char := 8230%N.   (* U+2026 *)

Definition not_GT (c : char) : bool := negb (is_char GT c).

(** [/<[^>]+>/g] *)
Definition tag : regex := (Cls (is_char LT) +++ Rep 1 not_GT +++ Cls (is_char GT))%re.

(** [/\s+/g] *)
Definition spaces : regex := Rep 1 is_ws.

(** [s.slice(0, e)] for an integer [e]: from the end if [e] is negative. *)
Definition slice0 (s : str) (e : Z) : str :=
  if (e <? 0)%Z
  then firstn (Z.to_nat (Z.max (Z.of_nat (length s) + e) 0)) s
  else firstn (Z.to_nat e) s.

Section Excerpt.

(** [he.decode], of the library he. *)
Variable decode : str -> str.

(** The constant [text] of [excerptFromHtml]. *)
Definition plain_text (encodedHtml : str) : str :=
  trim (replace spaces (fun _ => [SP])
          (replace tag (fun _ => [SP]) (decode encodedHtml))).

Definition excerptFromHtml (encodedHtml : str) (max : Z) : str :=
  let text := plain_text encodedHtml in
  if (max <? Z.of_nat (length text))%Z
  then slice0 text (max - 1) ++ [ELLIPSIS]
  else text.

End Excerpt.

(** A tag starts at the head of [s]: a [<], a character that is not [>],
    and a [>] somewhere after. *)
Definition tag_at (s : str) : bool :=
  match s with
  | x :: c :: r => is_char LT x && not_GT c && existsb (is_char GT) r
  | _ => false
  end.

(** No tag starts anywhere in [s]. *)
Fixpoint tag_free (s : str) : bool :=
  match s with
  | [] => true
  | _ :: s' => negb (tag_at s) && tag_free s'
  end.

(** Every white space character of [s] is a space with no white space
    character after it; [after_ws] says that one comes right before [s]. *)
Fixpoint single_spaced (after_ws : bool) (s : str) : bool :=
  match s with
  | [] => true
  | c :: s' =>
      if is_ws c then negb after_ws && is_char SP c && single_spaced true s'
      else single_spaced false s'
  end.

(** What [replace spaces] makes of [s]; [in_run] says that the white space
    right before [s] has been replaced already. *)
Fixpoint squeeze (in_run : bool) (s : str) : str :=
  match s with
  | [] => []
  | c :: s' =>
      if is_ws c then (if in_run then squeeze true s' else SP :: squeeze true s')
      else c :: squeeze false s'
  end.

(** ** Bullet lines and sentence ends in the words of the specification *)


(** A line that begins with a list marker, as the specification names
    them: one of the marker characters, or a number followed by [.] or [)].
    Nothing is asked of what comes after the marker. *)
Definition stated_bullet_line (s : str) : bool :=
  starts_with_marker s
  || ((1 <=? run_length is_digit s)
      && match skipn (run_length is_digit s) s with
         | c :: _ => one_of ".)" c
         | [] => false
         end).





Definition marker_glued : str := js "abc\n-foo".
Definition bare_number : str := js "abc\n1)".
Definition wrapped_word_crlf : str := js "infrastructur-\r\ne team".

(** A request with a file and an upstream parser that answers with the
    text of the file. *)
Definition upload_parsed : Request :=
  {| BACKEND_URL := Some (js "http://localhost:8081/");
     NEXT_PUBLIC_BACKEND_URL := None;
     formData := Ok (FileEntry {| file_name := [];
                                  file_type := js "application/pdf";
                                  file_text := Throw (js "not text") |});
     fetch := fun _ _ _ =>
                Ok {| res_ok := true; res_status := 200%N;
                      res_text := Throw (js "body used");
                      res_json := Ok (Some wrapped_word) |} |}.

(** A [fetch] that answers the request for [url] as [f] does and fails on
    every other. *)
Definition only_at (url : str) (f : str -> str -> File -> result UpstreamResponse)
  : str -> str -> File -> result UpstreamResponse :=
  fun u name file =>
    if str_eqb u url then f u name file else Throw (js "unexpected request").

(** * Properties *)

(** ** The matcher finds exactly the matches *)

Module RegexFacts.

Lemma orelse_some a b e :
  orelse a b = Some e -> a = Some e \/ (a = None /\ b tt = Some e).
Proof. destruct a; simpl; intros H; [left | right]; auto. Qed.

Lemma orelse_left a b : a <> None -> orelse a b <> None.
Proof. destruct a; simpl; congruence. Qed.

Lemma orelse_right a b : b tt <> None -> orelse a b <> None.
Proof. destruct a; simpl; congruence. Qed.

Lemma rep_sound p : forall s min pos k e,
  rep p min pos s k = Some e ->
  exists w s', s = w ++ s' /\ forallb p w = true /\ min <= length w
               /\ k (pos + length w) s' = Some e.
Proof.
  induction s as [|c s IH]; intros min pos k e H; simpl in H.
  - destruct min; [|discriminate].
    exists [], []. simpl. rewrite Nat.add_0_r. auto.
  - assert (Hstop : match min with O => k pos (c :: s) | S _ => None end = Some e ->
                    exists w s', c :: s = w ++ s' /\ forallb p w = true
                                 /\ min <= length w /\ k (pos + length w) s' = Some e).
    { destruct min; [|discriminate]. intros Hk.
      exists [], (c :: s). simpl. rewrite Nat.add_0_r. auto. }
    destruct (p c) eqn:Hp; [|auto].
    apply orelse_some in H. destruct H as [H | [_ H]]; [|auto].
    apply IH in H. destruct H as (w & s' & -> & Hw & Hmin & Hk).
    exists (c :: w), s'. simpl. rewrite Hp, Hw.
    rewrite Nat.add_succ_r. repeat split; auto. lia.
Qed.

Lemma rep_complete p : forall w min pos s' k,
  forallb p w = true -> min <= length w ->
  k (pos + length w) s' <> None ->
  rep p min pos (w ++ s') k <> None.
Proof.
  induction w as [|c w IH]; intros min pos s' k Hw Hmin Hk; simpl in *.
  - assert (min = 0) by lia. subst min. rewrite Nat.add_0_r in Hk.
    destruct s' as [|c s']; simpl; auto.
    destruct (p c); auto. apply orelse_right. auto.
  - apply andb_true_iff in Hw. destruct Hw as [Hp Hw]. rewrite Hp.
    apply orelse_left. apply IH; auto; [lia|].
    rewrite Nat.add_succ_r in Hk. exact Hk.
Qed.

Lemma run_sound : forall r pos s k e,
  run r pos s k = Some e ->
  exists pos' s', matches r pos s pos' s' /\ k pos' s' = Some e.
Proof.
  induction r as [p|min p|p|a IHa b IHb|a IHa b IHb| | |a IHa];
    intros pos s k e H; simpl in H.
  - destruct s as [|c s]; [discriminate|].
    destruct (p c) eqn:Hp; [|discriminate].
    exists (S pos), s. simpl. eauto.
  - apply rep_sound in H. destruct H as (w & s' & -> & Hw & Hmin & Hk).
    exists (pos + length w), s'. simpl. eauto 10.
  - destruct s as [|c s].
    + exists pos, []. simpl. auto.
    + destruct (p c) eqn:Hp.
      * apply orelse_some in H. destruct H as [H | [_ H]].
        -- exists (S pos), s. simpl. eauto 10.
        -- exists pos, (c :: s). simpl. auto.
      * exists pos, (c :: s). simpl. auto.
  - apply IHa in H. destruct H as (pm & sm & Ha & H).
    apply IHb in H. destruct H as (pos' & s' & Hb & H).
    exists pos', s'. simpl. eauto.
  - apply orelse_some in H. destruct H as [H | [_ H]].
    + apply IHa in H. destruct H as (pos' & s' & Ha & H). exists pos', s'. simpl. auto.
    + apply IHb in H. destruct H as (pos' & s' & Hb & H). exists pos', s'. simpl. auto.
  - destruct pos; [|discriminate]. exists 0, s. simpl. auto.
  - destruct s; [|discriminate]. exists pos, []. simpl. auto.
  - destruct (run a pos s (fun e0 _ => Some e0)) eqn:Ha; [|discriminate].
    apply IHa in Ha. destruct Ha as (e' & r' & Ha & _).
    exists pos, s. simpl. eauto 10.
Qed.

Lemma run_complete : forall r pos s pos' s' k,
  matches r pos s pos' s' -> k pos' s' <> None -> run r pos s k <> None.
Proof.
  induction r as [p|min p|p|a IHa b IHb|a IHa b IHb| | |a IHa];
    intros pos s pos' s' k M Hk; simpl in M |- *.
  - destruct M as (c & -> & Hp & ->). rewrite Hp. exact Hk.
  - destruct M as (w & -> & Hw & Hmin & ->). apply rep_complete; auto.
  - destruct M as [[-> ->] | (c & -> & Hp & ->)].
    + destruct s as [|c s]; auto. destruct (p c); auto. apply orelse_right; auto.
    + rewrite Hp. apply orelse_left; auto.
  - destruct M as (pm & sm & Ma & Mb).
    apply (IHa _ _ _ _ _ Ma). apply (IHb _ _ _ _ _ Mb). exact Hk.
  - destruct M as [M | M].
    + apply orelse_left. eapply IHa; eauto.
    + apply orelse_right. eapply IHb; eauto.
  - destruct M as (-> & -> & ->). exact Hk.
  - destruct M as (-> & -> & ->). exact Hk.
  - destruct M as ((e & r' & Ma) & -> & ->).
    destruct (run a pos s (fun e0 _ => Some e0)) eqn:Ha; auto.
    exfalso. revert Ha. eapply IHa; eauto. discriminate.
Qed.

Lemma exec_at_sound r pos s e :
  exec_at r pos s = Some e -> exists s', matches r pos s e s'.
Proof.
  intros H. apply run_sound in H. destruct H as (pos' & s' & M & H).
  inversion H; subst. eauto.
Qed.

Lemma exec_at_complete r pos s pos' s' :
  matches r pos s pos' s' -> exec_at r pos s <> None.
Proof. intros M. eapply run_complete; eauto. discriminate. Qed.

(** A match consumes a prefix of what is left. *)
Lemma matches_prefix : forall r pos s pos' s',
  matches r pos s pos' s' -> exists w, s = w ++ s' /\ pos' = pos + length w.
Proof.
  induction r as [p|min p|p|a IHa b IHb|a IHa b IHb| | |a IHa];
    intros pos s pos' s' M; simpl in M.
  - destruct M as (c & -> & _ & ->). exists [c]. simpl. split; auto. lia.
  - destruct M as (w & -> & _ & _ & ->). eauto.
  - destruct M as [[-> ->] | (c & -> & _ & ->)].
    + exists []. simpl. split; auto.
    + exists [c]. simpl. split; auto. lia.
  - destruct M as (pm & sm & Ma & Mb).
    apply IHa in Ma. apply IHb in Mb.
    destruct Ma as (w1 & -> & ->). destruct Mb as (w2 & -> & ->).
    exists (w1 ++ w2). rewrite <- app_assoc, length_app. split; auto. lia.
  - destruct M as [M | M]; eauto.
  - destruct M as (-> & -> & ->). exists []. simpl. auto.
  - destruct M as (-> & -> & ->). exists []. simpl. auto.
  - destruct M as (_ & -> & ->). exists []. simpl. auto.
Qed.

Lemma search_none r : forall s pos,
  search r pos s = None <->
  (forall i, i <= length s -> exec_at r (pos + i) (skipn i s) = None).
Proof.
  induction s as [|c s IH]; intros pos; simpl.
  - split.
    + intros H i Hi. assert (i = 0) by lia. subst i. rewrite Nat.add_0_r. simpl.
      destruct (exec_at r pos []); [discriminate | reflexivity].
    + intros H. specialize (H 0 (Nat.le_refl _)).
      rewrite Nat.add_0_r in H. simpl in H. rewrite H. reflexivity.
  - split.
    + intros H. destruct (exec_at r pos (c :: s)) eqn:E; [discriminate|].
      intros [|i] Hi.
      * rewrite Nat.add_0_r. exact E.
      * rewrite Nat.add_succ_r. simpl. apply (proj1 (IH (S pos)) H). lia.
    + intros H. pose proof (H 0 (Nat.le_0_l _)) as H0.
      rewrite Nat.add_0_r in H0. simpl in H0. rewrite H0.
      apply IH. intros i Hi. specialize (H (S i)).
      rewrite Nat.add_succ_r in H. apply H. lia.
Qed.

Lemma search_some r : forall s pos x,
  search r pos s = Some x ->
  exists i e, i <= length s /\ exec_at r (pos + i) (skipn i s) = Some e.
Proof.
  induction s as [|c s IH]; intros pos x H; simpl in H.
  - destruct (exec_at r pos []) eqn:E; [|discriminate].
    exists 0, n. rewrite Nat.add_0_r. auto.
  - destruct (exec_at r pos (c :: s)) eqn:E.
    + exists 0, n. rewrite Nat.add_0_r. split; [lia | exact E].
    + apply IH in H. destruct H as (i & e & Hi & H).
      exists (S i), e. rewrite Nat.add_succ_r. split; [simpl; lia | exact H].
Qed.

(** [test] says whether a match starts somewhere. *)
Lemma test_true r s :
  test r s = true <->
  exists i pos' s', i <= length s /\ matches r i (skipn i s) pos' s'.
Proof.
  unfold test. split.
  - destruct (search r 0 s) eqn:E; [|discriminate]. intros _.
    apply search_some in E. destruct E as (i & e & Hi & E).
    apply exec_at_sound in E. destruct E as (s' & M). eauto.
  - intros (i & pos' & s' & Hi & M).
    destruct (search r 0 s) eqn:E; auto.
    exfalso. apply (exec_at_complete _ _ _ _ _ M).
    exact (proj1 (search_none r s 0) E i Hi).
Qed.

End RegexFacts.
Import RegexFacts.

(** ** trim *)

Lemma trimStart_suffix s : exists w, s = w ++ trimStart s.
Proof.
  induction s as [|c s [w IH]]; simpl.
  - exists []. reflexivity.
  - destruct (is_ws c).
    + exists (c :: w). simpl. f_equal. exact IH.
    + exists []. reflexivity.
Qed.

Lemma trimStart_leading s : leading_ws (trimStart s) = false.
Proof.
  induction s as [|c s IH]; simpl; auto.
  destruct (is_ws c) eqn:E; [exact IH | simpl; exact E].
Qed.

Lemma trimStart_id s : leading_ws s = false -> trimStart s = s.
Proof. destruct s as [|c s]; simpl; [reflexivity | intros ->; reflexivity]. Qed.

Lemma trimEnd_prefix s : exists w, s = trimEnd s ++ w.
Proof.
  unfold trimEnd. destruct (trimStart_suffix (rev s)) as [w H].
  exists (rev w). rewrite <- rev_app_distr, <- H, rev_involutive. reflexivity.
Qed.

Lemma trimEnd_trailing s : trailing_ws (trimEnd s) = false.
Proof.
  unfold trailing_ws, trimEnd. rewrite rev_involutive. apply trimStart_leading.
Qed.

Lemma trimEnd_id s : trailing_ws s = false -> trimEnd s = s.
Proof.
  unfold trailing_ws, trimEnd. intros H. rewrite trimStart_id by exact H.
  apply rev_involutive.
Qed.

Lemma leading_ws_prefix s w : leading_ws (s ++ w) = false -> leading_ws s = false.
Proof. destruct s; simpl; auto. Qed.

Lemma trim_leading s : leading_ws (trim s) = false.
Proof.
  unfold trim. destruct (trimEnd_prefix (trimStart s)) as [w H].
  apply leading_ws_prefix with (w := w). rewrite <- H. apply trimStart_leading.
Qed.

Lemma trim_trailing s : trailing_ws (trim s) = false.
Proof. apply trimEnd_trailing. Qed.

Lemma trim_id s : leading_ws s = false -> trailing_ws s = false -> trim s = s.
Proof.
  intros H1 H2. unfold trim. rewrite trimStart_id by exact H1. apply trimEnd_id, H2.
Qed.

Lemma trim_trim s : trim (trim s) = trim s.
Proof. apply trim_id; [apply trim_leading | apply trim_trailing]. Qed.

Lemma trim_Forall (P : char -> Prop) s : Forall P s -> Forall P (trim s).
Proof.
  intros H. unfold trim.
  destruct (trimStart_suffix s) as [w1 H1].
  destruct (trimEnd_prefix (trimStart s)) as [w2 H2].
  rewrite H1, H2 in H. apply Forall_app in H. destruct H as [_ H].
  apply Forall_app in H. tauto.
Qed.

Lemma trailing_ws_last s c : trailing_ws (s ++ [c]) = is_ws c.
Proof. unfold trailing_ws. rewrite rev_app_distr. reflexivity. Qed.

Lemma trailing_ws_app a b : b <> [] -> trailing_ws (a ++ b) = trailing_ws b.
Proof.
  intros Hb. destruct (exists_last Hb) as (b' & c & ->).
  rewrite app_assoc, !trailing_ws_last. reflexivity.
Qed.

Lemma leading_ws_app a b : a <> [] -> leading_ws (a ++ b) = leading_ws a.
Proof. destruct a; simpl; congruence. Qed.

(** ** replace *)

Lemma replace_from_skip r repl : forall n pos s,
  n <= length s ->
  replace_from r repl n pos s = replace_from r repl 0 (pos + n) (skipn n s).
Proof.
  induction n as [|n IH]; intros pos s Hn.
  - rewrite Nat.add_0_r. reflexivity.
  - destruct s as [|c s]; simpl in Hn; [lia|].
    cbn [replace_from skipn]. rewrite IH by lia. f_equal. lia.
Qed.

(** Where no match starts, nothing is replaced. *)
Lemma replace_from_no_match r repl : forall s pos,
  (forall i, i <= length s -> exec_at r (pos + i) (skipn i s) = None) ->
  replace_from r repl 0 pos s = s.
Proof.
  induction s as [|c s IH]; intros pos H.
  - pose proof (H 0 (Nat.le_refl _)) as H0. rewrite Nat.add_0_r in H0.
    simpl in *. rewrite H0. reflexivity.
  - pose proof (H 0 (Nat.le_0_l _)) as H0. rewrite Nat.add_0_r in H0.
    simpl in *. rewrite H0. f_equal. apply IH. intros i Hi.
    specialize (H (S i)). rewrite Nat.add_succ_r in H. apply H. lia.
Qed.

Lemma replace_no_match r repl s :
  (forall i pos' s', i <= length s -> ~ matches r i (skipn i s) pos' s') ->
  replace r repl s = s.
Proof.
  intros H. apply replace_from_no_match. intros i Hi. simpl.
  destruct (exec_at r i (skipn i s)) eqn:E; auto.
  apply exec_at_sound in E. destruct E as (s' & M). exfalso. eapply H; eauto.
Qed.

Lemma Forall_firstn_of (A : Type) (P : A -> Prop) n (l : list A) :
  Forall P l -> Forall P (firstn n l).
Proof.
  intros H. rewrite <- (firstn_skipn n l) in H. apply Forall_app in H. tauto.
Qed.

Lemma Forall_skipn_of (A : Type) (P : A -> Prop) n (l : list A) :
  Forall P l -> Forall P (skipn n l).
Proof.
  intros H. rewrite <- (firstn_skipn n l) in H. apply Forall_app in H. tauto.
Qed.

(** A replacement that keeps a property of the characters keeps it of the
    whole text. *)
Lemma replace_from_Forall (P : char -> Prop) r repl :
  (forall m, Forall P m -> Forall P (repl m)) ->
  forall s skip pos, Forall P s -> Forall P (replace_from r repl skip pos s).
Proof.
  intros Hrepl. induction s as [|c s IH]; intros skip pos Hs.
  - destruct skip; simpl; auto.
    destruct (exec_at r pos []); auto.
    rewrite app_nil_r. apply Hrepl. rewrite firstn_nil. constructor.
  - inversion Hs as [|? ? Hc Hs']; subst. destruct skip; simpl; auto.
    destruct (exec_at r pos (c :: s)) as [e|].
    + apply Forall_app. split.
      * apply Hrepl. apply Forall_firstn_of. exact Hs.
      * destruct (e - pos); auto.
    + constructor; auto.
Qed.

Lemma replace_Forall (P : char -> Prop) r repl s :
  (forall m, Forall P m -> Forall P (repl m)) ->
  Forall P s -> Forall P (replace r repl s).
Proof. intros. apply replace_from_Forall; auto. Qed.

(** ** Texts made of clean lines *)

Lemma is_LF_true c : is_char LF c = true <-> c = LF.
Proof. unfold is_char. apply N.eqb_eq. Qed.

Lemma is_LF_false c : is_char LF c = false <-> c <> LF.
Proof. unfold is_char. apply N.eqb_neq. Qed.

Lemma ws_not_LF c : is_ws c = false -> c <> LF.
Proof. intros H ->. discriminate. Qed.

Lemma tight_cons2 x y s :
  tight (x :: y :: s)
  = negb (is_ws x && is_char LF y) && negb (is_char LF x && is_ws y) && tight (y :: s).
Proof. reflexivity. Qed.

Lemma tight_cons x s :
  tight (x :: s) = true ->
  tight s = true.
Proof.
  destruct s as [|y s]; [reflexivity|]. cbn [tight].
  rewrite !andb_true_iff. tauto.
Qed.

Lemma tight_skipn : forall i s, tight s = true -> tight (skipn i s) = true.
Proof.
  induction i as [|i IH]; intros s H; [exact H|].
  destruct s as [|x s]; [reflexivity|]. simpl. apply IH. eapply tight_cons; eauto.
Qed.

Lemma tight_line_then : forall l t,
  clean_line l -> tight t = true -> leading_ws t = false -> t <> [] ->
  tight (l ++ LF :: t) = true.
Proof.
  intros l t (Hne & Hlf & _ & Htr) Ht Hlead Htne.
  induction l as [|x l IH]; [congruence|].
  inversion Hlf as [|? ? Hx Hl]; subst.
  destruct l as [|x' l].
  - clear IH. unfold trailing_ws in Htr. simpl in Htr.
    destruct t as [|y t]; [congruence|]. simpl in Hlead.
    cbn [app]. rewrite !tight_cons2, Htr, Hlead.
    replace (is_char LF x) with false by (symmetry; apply is_LF_false; exact Hx).
    replace (is_char LF y) with false
      by (symmetry; apply is_LF_false, ws_not_LF; exact Hlead).
    rewrite !andb_false_r. simpl. exact Ht.
  - inversion Hl as [|? ? Hx' _]; subst.
    change ((x :: x' :: l) ++ LF :: t) with (x :: x' :: (l ++ LF :: t)).
    rewrite tight_cons2.
    replace (is_char LF x) with false by (symmetry; apply is_LF_false; exact Hx).
    replace (is_char LF x') with false by (symmetry; apply is_LF_false; exact Hx').
    rewrite !andb_false_r. simpl. apply IH; auto; [discriminate|].
    rewrite <- Htr. change (x :: x' :: l) with ([x] ++ (x' :: l)).
    symmetry. apply trailing_ws_app. discriminate.
Qed.

Lemma tight_line l : clean_line l -> tight l = true.
Proof.
  intros (_ & Hlf & _). induction l as [|x l IH]; [reflexivity|].
  inversion Hlf as [|? ? Hx Hl]; subst. destruct l as [|x' l]; [reflexivity|].
  inversion Hl as [|? ? Hx' _]; subst. rewrite tight_cons2.
  replace (is_char LF x) with false by (symmetry; apply is_LF_false; exact Hx).
  replace (is_char LF x') with false by (symmetry; apply is_LF_false; exact Hx').
  rewrite !andb_false_r. simpl. apply IH. exact Hl.
Qed.

Lemma join_cons2 sep l l' ls :
  join sep (l :: l' :: ls) = l ++ sep ++ join sep (l' :: ls).
Proof. reflexivity. Qed.

Lemma join_clean ls :
  Forall clean_line ls -> ls <> [] ->
  let t := join [LF] ls in
  t <> [] /\ tight t = true /\ leading_ws t = false /\ trailing_ws t = false.
Proof.
  induction ls as [|l ls IH]; intros H Hne; [congruence|].
  inversion H as [|? ? Hl Hls]; subst.
  destruct ls as [|l' ls].
  - simpl. destruct Hl as (H1 & H2 & H3 & H4). repeat split; auto.
    apply tight_line. repeat split; auto.
  - destruct (IH Hls ltac:(discriminate)) as (T1 & T2 & T3 & T4).
    cbv zeta. rewrite join_cons2. generalize dependent (join [LF] (l' :: ls)).
    intros t _ T1 T2 T3 T4.
    pose proof Hl as (H1 & H2 & H3 & H4). repeat split.
    + destruct l; [congruence | discriminate].
    + apply tight_line_then; auto.
    + rewrite leading_ws_app; auto.
    + rewrite app_assoc. rewrite trailing_ws_app; auto.
Qed.

Lemma tight_no_space_before_newline s pos pos' s' :
  tight s = true -> ~ matches spaceBeforeNewline pos s pos' s'.
Proof.
  intros T M. simpl in M.
  destruct M as (pm & sm & (w & -> & Hw & Hlen & ->) & (c & -> & Hc & ->)).
  apply is_LF_true in Hc. subst c.
  induction w as [|x w IH]; simpl in Hlen; [lia|].
  simpl in Hw. apply andb_true_iff in Hw. destruct Hw as [Hx Hw].
  assert (Wx : is_ws x = true).
  { apply orb_true_iff in Hx. destruct Hx as [Hx | Hx];
      apply N.eqb_eq in Hx; subst x; reflexivity. }
  destruct w as [|x' w].
  - cbn [app tight] in T. rewrite Wx in T. simpl in T. discriminate.
  - apply IH; auto; [|simpl; lia].
    eapply tight_cons. exact T.
Qed.

Lemma tight_no_triple_newline s pos pos' s' :
  tight s = true -> ~ matches tripleNewline pos s pos' s'.
Proof.
  intros T M. simpl in M. destruct M as (w & -> & Hw & Hlen & _).
  destruct w as [|x [|y w]]; simpl in Hlen; try lia.
  simpl in Hw. rewrite !andb_true_iff in Hw. destruct Hw as (Hx & Hy & _).
  apply is_LF_true in Hx, Hy. subst. cbn [app tight] in T. discriminate.
Qed.

Lemma tight_no_blank_line s : tight s = true -> ~ has_newlines 2 s.
Proof.
  intros T (a & b & ->). induction a as [|x a IH].
  - cbn [app repeat tight] in T. discriminate.
  - apply IH. eapply tight_cons. exact T.
Qed.

(** On a text of clean lines the last statement only joins. *)
Lemma finish_clean ls : Forall clean_line ls -> finish ls = join [LF] ls.
Proof.
  intros H. unfold finish. destruct ls as [|l ls]; [reflexivity|].
  destruct (join_clean H ltac:(discriminate)) as (T1 & T2 & T3 & T4).
  rewrite (@replace_no_match spaceBeforeNewline).
  2:{ intros i pos' s' _. apply tight_no_space_before_newline, tight_skipn, T2. }
  rewrite (@replace_no_match tripleNewline).
  2:{ intros i pos' s' _. apply tight_no_triple_newline, tight_skipn, T2. }
  apply trim_id; assumption.
Qed.

Lemma split_line_then sep : forall l t,
  Forall (fun c => c <> sep) l -> split sep (l ++ sep :: t) = l :: split sep t.
Proof.
  induction l as [|x l IH]; intros t H; simpl.
  - rewrite N.eqb_refl. reflexivity.
  - inversion H as [|? ? Hx Hl]; subst.
    apply N.eqb_neq in Hx. rewrite Hx, IH by exact Hl. reflexivity.
Qed.

Lemma split_line sep : forall l, Forall (fun c => c <> sep) l -> split sep l = [l].
Proof.
  induction l as [|x l IH]; intros H; simpl; [reflexivity|].
  inversion H as [|? ? Hx Hl]; subst.
  apply N.eqb_neq in Hx. rewrite Hx, IH by exact Hl. reflexivity.
Qed.

Lemma split_join ls :
  Forall (Forall (fun c => c <> LF)) ls -> ls <> [] -> split LF (join [LF] ls) = ls.
Proof.
  induction ls as [|l ls IH]; intros H Hne; [congruence|].
  inversion H as [|? ? Hl Hls]; subst. destruct ls as [|l' ls].
  - simpl. apply split_line, Hl.
  - rewrite join_cons2. change ([LF] ++ join [LF] (l' :: ls)) with (LF :: join [LF] (l' :: ls)).
    rewrite split_line_then by exact Hl.
    rewrite IH; auto. discriminate.
Qed.

Lemma split_no_sep sep : forall s, Forall (Forall (fun c => c <> sep)) (split sep s).
Proof.
  induction s as [|c s IH]; simpl.
  - repeat constructor.
  - destruct (c =? sep)%N eqn:E.
    + constructor; auto.
    + apply N.eqb_neq in E. destruct (split sep s) as [|l ls]; [repeat constructor; auto|].
      inversion IH; subst. constructor; auto.
Qed.

(** ** The loop *)

Lemma skipn_cons_nth (A : Type) : forall i (ls : list A) l rest,
  skipn i ls = l :: rest -> nth_error ls i = Some l /\ skipn (S i) ls = rest.
Proof.
  induction i as [|i IH]; intros ls l rest H.
  - destruct ls; simpl in *; inversion H; auto.
  - destruct ls as [|x ls]; simpl in H; [discriminate|]. apply IH in H. exact H.
Qed.

Lemma nth_error_hd_skipn (A : Type) (d : A) : forall i (ls : list A),
  match nth_error ls i with Some x => x | None => d end = hd d (skipn i ls).
Proof.
  induction i as [|i IH]; intros [|x ls]; simpl; auto.
Qed.

Lemma for_loop_sweep lines : forall todo i st,
  i + todo = length lines ->
  for_loop lines todo i st = Some (sweep (skipn i lines) [] st).
Proof.
  induction todo as [|todo IH]; intros i st H.
  - rewrite skipn_all2 by lia. reflexivity.
  - destruct (skipn i lines) as [|l rest] eqn:E.
    { apply (f_equal (@length _)) in E. rewrite length_skipn in E. simpl in E. lia. }
    apply skipn_cons_nth in E. destruct E as [E1 E2].
    cbn [for_loop]. unfold iteration. rewrite E1.
    rewrite IH by lia. rewrite E2. cbn [sweep]. do 2 f_equal.
    rewrite nth_error_hd_skipn. rewrite Nat.add_1_r, E2. reflexivity.
Qed.

(** The loop runs to its end on every input; its result is that of the
    sweep. *)
Lemma reconstruct_eq normalize input :
  reconstructResumeText normalize input
  = Some (finish (paragraphs (input_lines (normalize input)))).
Proof.
  unfold reconstructResumeText.
  rewrite for_loop_sweep by reflexivity. reflexivity.
Qed.

Section Invariant.

(** A property of the characters that the space has too. *)
Variable P : char -> Prop.
Hypothesis P_space : P SP.

Lemma flush_keeps st : keeps P st -> keeps P (flush st).
Proof.
  intros [Ho Hb]. unfold flush, keeps. simpl. split; [|constructor].
  destruct (trim (buf st)) eqn:E; auto.
  apply Forall_app. split; auto. constructor; auto.
  rewrite <- E. apply trim_Forall, Hb.
Qed.

Lemma push_keeps l st : Forall P l -> keeps P st -> keeps P (push l st).
Proof.
  intros Hl [Ho Hb]. unfold push, keeps. simpl. split; auto.
  apply Forall_app. split; auto.
Qed.

Lemma append_keeps l st : Forall P l -> keeps P st -> keeps P (append l st).
Proof.
  intros Hl [Ho Hb]. unfold append, keeps. simpl. split; auto.
  apply Forall_app. split; auto. apply Forall_app. split; auto.
  destruct (buf st); auto.
Qed.

Lemma step_keeps cur next st : Forall P cur -> keeps P st -> keeps P (step cur next st).
Proof.
  intros Hc Hs. unfold step.
  destruct (negb (nonempty cur)); [apply flush_keeps; auto|].
  destruct (test bullets cur); [apply push_keeps, flush_keeps; auto|].
  destruct (joinSoftly cur next);
    [apply append_keeps | apply flush_keeps, append_keeps]; auto.
Qed.

Lemma sweep_keeps : forall ls after st,
  Forall (Forall P) ls -> keeps P st -> keeps P (sweep ls after st).
Proof.
  induction ls as [|l ls IH]; intros after st Hls Hs; simpl; auto.
  inversion Hls; subst. apply IH; auto. apply step_keeps; auto.
  apply trim_Forall. assumption.
Qed.

Lemma paragraphs_keep ls : Forall (Forall P) ls -> Forall (Forall P) (paragraphs ls).
Proof.
  intros H. unfold paragraphs.
  apply flush_keeps, sweep_keeps; auto. split; constructor.
Qed.

End Invariant.

Lemma trim_trimmed_line s : trim s <> [] -> trimmed_line (trim s).
Proof. intros H. repeat split; auto using trim_leading, trim_trailing. Qed.

Lemma flush_trimmed st :
  Forall trimmed_line (out st) -> Forall trimmed_line (out (flush st)).
Proof.
  intros H. unfold flush. simpl. destruct (trim (buf st)) eqn:E; auto.
  apply Forall_app. split; auto. constructor; auto.
  rewrite <- E. apply trim_trimmed_line. congruence.
Qed.

Lemma step_trimmed l next st :
  Forall trimmed_line (out st) -> Forall trimmed_line (out (step (trim l) next st)).
Proof.
  intros H. unfold step.
  destruct (nonempty (trim l)) eqn:Hn; simpl; [|apply flush_trimmed; auto].
  destruct (test bullets (trim l)).
  - unfold push. cbn [out]. apply Forall_app. split; [apply flush_trimmed; auto|].
    constructor; auto. apply trim_trimmed_line. destruct (trim l); discriminate.
  - destruct (joinSoftly (trim l) next); [exact H | apply flush_trimmed; exact H].
Qed.

Lemma sweep_trimmed : forall ls after st,
  Forall trimmed_line (out st) -> Forall trimmed_line (out (sweep ls after st)).
Proof.
  induction ls as [|l ls IH]; intros after st H; simpl; auto.
  apply IH. apply step_trimmed. exact H.
Qed.

Lemma paragraphs_trimmed ls : Forall trimmed_line (paragraphs ls).
Proof. unfold paragraphs. apply flush_trimmed, sweep_trimmed. constructor. Qed.

Lemma split_Forall (P : char -> Prop) sep : forall s,
  Forall P s -> Forall (Forall P) (split sep s).
Proof.
  induction s as [|c s IH]; intros H; simpl.
  - repeat constructor.
  - inversion H; subst. specialize (IH ltac:(assumption)).
    destruct (c =? sep)%N; [constructor; auto|].
    destruct (split sep s) as [|l ls]; [repeat constructor; auto|].
    inversion IH; subst. constructor; auto.
Qed.

Lemma map_replace_Forall (P : char -> Prop) r ls :
  Forall (Forall P) ls -> Forall (Forall P) (map (replace r (fun _ => [])) ls).
Proof.
  intros H. apply Forall_map. eapply Forall_impl; [|exact H].
  intros l Hl. apply replace_Forall; auto.
Qed.

Lemma replace_class_out p : forall s pos,
  replace_from (Cls p) (fun _ => []) 0 pos s = filter (fun c => negb (p c)) s.
Proof.
  induction s as [|c s IH]; intros pos; [reflexivity|].
  cbn [replace_from exec_at run filter].
  destruct (p c); cbn [negb]; [|f_equal; apply IH].
  rewrite Nat.sub_succ_l, Nat.sub_diag by lia. apply IH.
Qed.

Lemma input_lines_no_LF s : Forall (Forall (fun c => c <> LF)) (input_lines s).
Proof. apply map_replace_Forall, split_no_sep. Qed.

Lemma input_lines_no_CR s : Forall (Forall (fun c => c <> CR)) (input_lines s).
Proof.
  apply map_replace_Forall, split_Forall.
  unfold replace, carriageReturn. rewrite replace_class_out.
  apply Forall_forall. intros c Hc. apply filter_In in Hc. destruct Hc as [_ Hc].
  intros ->. discriminate.
Qed.

Lemma paragraphs_clean ls :
  Forall (Forall (fun c => c <> LF)) ls -> Forall clean_line (paragraphs ls).
Proof.
  intros H. apply Forall_forall. intros l Hl.
  pose proof (paragraphs_keep (P := fun c => c <> LF) ltac:(discriminate) H) as H1.
  pose proof (paragraphs_trimmed ls) as H2.
  rewrite Forall_forall in H1, H2.
  destruct (H2 l Hl) as (A & B & C). repeat split; auto.
Qed.

(** The result is the lines of [out], one newline between two of them. *)
Lemma reconstruct_join normalize input :
  reconstructResumeText normalize input
  = Some (join [LF] (paragraphs (input_lines (normalize input)))).
Proof.
  rewrite reconstruct_eq, finish_clean; [reflexivity|].
  apply paragraphs_clean, input_lines_no_LF.
Qed.

(** ** Runs of newlines *)

Lemma rep_greedy p : forall s min pos,
  rep p min pos s (fun e _ => Some e)
  = if min <=? run_length p s then Some (pos + run_length p s) else None.
Proof.
  induction s as [|c s IH]; intros min pos; simpl.
  - destruct min; simpl; [rewrite Nat.add_0_r|]; reflexivity.
  - destruct (p c).
    + rewrite IH. destruct min as [|min]; simpl.
      * rewrite Nat.add_succ_r. reflexivity.
      * destruct (min <=? run_length p s); simpl; [rewrite Nat.add_succ_r|]; reflexivity.
    + destruct min; simpl; [rewrite Nat.add_0_r|]; reflexivity.
Qed.

Lemma exec_tripleNewline pos s :
  exec_at tripleNewline pos s
  = if 3 <=? run_length (is_char LF) s
    then Some (pos + run_length (is_char LF) s) else None.
Proof. apply rep_greedy. Qed.

Lemma run_length_split p s :
  exists t, s = firstn (run_length p s) s ++ t /\ run_length p t = 0
            /\ forallb p (firstn (run_length p s) s) = true.
Proof.
  induction s as [|c s (t & H1 & H2 & H3)]; simpl.
  - exists []. auto.
  - destruct (p c) eqn:E.
    + exists t. simpl. rewrite E, H3. repeat split; auto. f_equal. exact H1.
    + exists (c :: s). simpl. rewrite E. auto.
Qed.

Lemma all_LF w : forallb (is_char LF) w = true -> w = repeat LF (length w).
Proof.
  induction w as [|c w IH]; simpl; [reflexivity|].
  intros H. apply andb_true_iff in H. destruct H as [Hc Hw].
  apply is_LF_true in Hc. subst c. f_equal. apply IH, Hw.
Qed.

Lemma run_length_repeat n b :
  run_length (is_char LF) b = 0 -> run_length (is_char LF) (repeat LF n ++ b) = n.
Proof. intros H. induction n as [|n IH]; simpl; auto. Qed.

Lemma run_length_app p a b :
  run_length p a < length a -> run_length p (a ++ b) = run_length p a.
Proof.
  induction a as [|c a IH]; simpl; [lia|].
  destruct (p c); auto. intros H. f_equal. apply IH. lia.
Qed.

Lemma run_length_not_last a :
  a <> [] -> (forall a', a <> a' ++ [LF]) ->
  run_length (is_char LF) a < length a.
Proof.
  induction a as [|c a IH]; intros Hne Hlast; [congruence|]. simpl.
  destruct (is_char LF c) eqn:E; [|lia].
  apply is_LF_true in E. subst c. destruct a as [|c' a].
  - exfalso. apply (Hlast []). reflexivity.
  - apply -> Nat.succ_lt_mono. apply IH; [discriminate|].
    intros a' Ha'. apply (Hlast (LF :: a')). simpl. f_equal. exact Ha'.
Qed.


Lemma collapse_pos : forall s skip pos pos', collapse_from skip pos s = collapse_from skip pos' s.
Proof.
  induction s as [|c s IH]; intros skip pos pos'; destruct skip as [|skip];
    unfold collapse_from in *; cbn [replace_from].
  - rewrite !exec_tripleNewline. reflexivity.
  - reflexivity.
  - rewrite !exec_tripleNewline.
    destruct (3 <=? run_length (is_char LF) (c :: s)) eqn:E.
    + replace (pos + run_length (is_char LF) (c :: s) - pos)
        with (run_length (is_char LF) (c :: s)) by lia.
      replace (pos' + run_length (is_char LF) (c :: s) - pos')
        with (run_length (is_char LF) (c :: s)) by lia.
      f_equal. apply Nat.leb_le in E.
      destruct (run_length (is_char LF) (c :: s)); [lia|]. apply IH.
    + f_equal. apply IH.
  - apply IH.
Qed.

Lemma collapse_empty pos : collapse_from 0 pos [] = [].
Proof. reflexivity. Qed.

Lemma collapse_copy pos c s :
  run_length (is_char LF) (c :: s) < 3 -> collapse_from 0 pos (c :: s) = c :: collapse_from 0 (S pos) s.
Proof.
  intros H. unfold collapse_from. cbn [replace_from]. rewrite exec_tripleNewline.
  apply Nat.leb_gt in H. rewrite H. reflexivity.
Qed.

Lemma collapse_run pos n b :
  3 <= n -> run_length (is_char LF) b = 0 ->
  collapse_from 0 pos (repeat LF n ++ b) = [LF; LF] ++ collapse_from 0 (pos + n) b.
Proof.
  intros Hn Hb. unfold collapse_from.
  destruct n as [|n]; [lia|].
  cbn [repeat app]. cbn [replace_from]. rewrite exec_tripleNewline.
  change (LF :: repeat LF n ++ b) with (repeat LF (S n) ++ b).
  rewrite run_length_repeat by exact Hb.
  apply Nat.leb_le in Hn. rewrite Hn.
  replace (pos + S n - pos) with (S n) by lia. f_equal.
  rewrite replace_from_skip by (rewrite length_app, repeat_length; lia).
  rewrite skipn_app, repeat_length, Nat.sub_diag, skipn_all2 by (rewrite repeat_length; lia).
  replace (S pos + n) with (pos + S n) by lia. reflexivity.
Qed.

Lemma collapse_around n b :
  3 <= n -> run_length (is_char LF) b = 0 ->
  forall len a pos,
    length a <= len -> (forall a', a <> a' ++ [LF]) ->
    collapse_from 0 pos (a ++ repeat LF n ++ b)
    = collapse_from 0 pos a ++ [LF; LF] ++ collapse_from 0 (pos + length a + n) b.
Proof.
  intros Hn Hb. induction len as [|len IH]; intros a pos Hlen Hlast.
  - destruct a; simpl in Hlen; [|lia].
    simpl app. rewrite collapse_run by assumption.
    rewrite Nat.add_0_r. reflexivity.
  - destruct a as [|c a].
    { simpl app. rewrite collapse_run by assumption.
      rewrite Nat.add_0_r. reflexivity. }
    pose proof (run_length_not_last (a := c :: a) ltac:(discriminate) Hlast) as Hrun.
    destruct (Nat.lt_ge_cases (run_length (is_char LF) (c :: a)) 3) as [Hk | Hk].
    + change ((c :: a) ++ repeat LF n ++ b) with (c :: (a ++ repeat LF n ++ b)).
      rewrite !collapse_copy; auto.
      2:{ change (c :: a ++ repeat LF n ++ b) with ((c :: a) ++ repeat LF n ++ b).
          rewrite run_length_app; auto. }
      rewrite IH.
      * replace (pos + length (c :: a) + n) with (S pos + length a + n) by (simpl; lia).
        reflexivity.
      * simpl in Hlen. lia.
      * intros a' Ha'. apply (Hlast (c :: a')). simpl. f_equal. exact Ha'.
    + destruct (run_length_split (is_char LF) (c :: a)) as (t & H1 & H2 & H3).
      apply all_LF in H3.
      set (k := run_length (is_char LF) (c :: a)) in *.
      assert (Hkl : length (firstn k (c :: a)) = k).
      { apply firstn_length_le. lia. }
      rewrite Hkl in H3.
      rewrite H1, H3, <- app_assoc.
      assert (Ht : run_length (is_char LF) (t ++ repeat LF n ++ b) = 0).
      { destruct t as [|x t].
        - exfalso. apply (f_equal (@length _)) in H1.
          rewrite length_app, Hkl in H1. simpl length in H1, Hrun. lia.
        - simpl in H2 |- *. destruct (is_char LF x); [discriminate | reflexivity]. }
      rewrite !collapse_run by assumption.
      rewrite IH.
      * rewrite length_app, repeat_length.
        replace (pos + (k + length t) + n) with (pos + k + length t + n) by lia.
        reflexivity.
      * apply (f_equal (@length _)) in H1. rewrite length_app, Hkl in H1.
        simpl in Hlen, H1. lia.
      * intros a' Ha'. apply (Hlast (firstn k (c :: a) ++ a')).
        rewrite H1 at 1. rewrite <- app_assoc. f_equal. exact Ha'.
Qed.


(** A run of three or more newlines becomes two. *)
Lemma collapse_newlines_run a n b :
  3 <= n -> (forall a', a <> a' ++ [LF]) -> (forall b', b <> LF :: b') ->
  collapse_newlines (a ++ repeat LF n ++ b)
  = collapse_newlines a ++ [LF; LF] ++ collapse_newlines b.
Proof.
  intros Hn Ha Hb. unfold collapse_newlines, replace.
  change (replace_from tripleNewline (fun _ => [LF; LF])) with collapse_from.
  rewrite (@collapse_around n b Hn) with (len := length a); auto.
  - do 2 f_equal. apply collapse_pos.
  - destruct b as [|x b]; [reflexivity|]. simpl.
    destruct (is_char LF x) eqn:E; auto. apply is_LF_true in E. subst.
    exfalso. eapply Hb. reflexivity.
Qed.

(** ** Soft hyphens *)

Lemma exec_softHyphen pos s :
  exec_at softHyphen pos s = if soft_break s then Some (S (S (S pos))) else None.
Proof.
  unfold exec_at, softHyphen, soft_break.
  destruct s as [|x [|h [|n [|y s]]]]; cbn [run];
    try destruct (is_letter x); cbn [andb]; try reflexivity;
    try destruct (is_char HYPHEN h); cbn [andb]; try reflexivity;
    try destruct (is_char LF n); cbn [andb]; try reflexivity;
    destruct (is_letter y); reflexivity.
Qed.

Lemma letter_not_hyphen x : is_letter x = true -> is_char HYPHEN x = false.
Proof.
  intros H. unfold is_char. destruct (N.eqb_spec x HYPHEN); auto.
  subst. discriminate.
Qed.

Lemma letter_not_LF x : is_letter x = true -> is_char LF x = false.
Proof.
  intros H. unfold is_char. destruct (N.eqb_spec x LF); auto.
  subst. discriminate.
Qed.

Lemma dehyphen_pos : forall s skip pos pos',
  replace_from softHyphen group1 skip pos s
  = replace_from softHyphen group1 skip pos' s.
Proof.
  induction s as [|c s IH]; intros skip pos pos'; destruct skip as [|skip];
    cbn [replace_from].
  - rewrite !exec_softHyphen. reflexivity.
  - reflexivity.
  - rewrite !exec_softHyphen. destruct (soft_break (c :: s)).
    + replace (S (S (S pos)) - pos) with 3 by lia.
      replace (S (S (S pos')) - pos') with 3 by lia.
      f_equal. apply IH.
    + f_equal. apply IH.
  - apply IH.
Qed.

Lemma dehyphen_break pos x s :
  soft_break (x :: s) = true ->
  replace_from softHyphen group1 0 pos (x :: s)
  = x :: replace_from softHyphen group1 0 pos (skipn 2 s).
Proof.
  intros H. cbn [replace_from]. rewrite exec_softHyphen, H.
  replace (S (S (S pos)) - pos) with 3 by lia.
  destruct s as [|h [|n s]]; try discriminate.
  cbn [group1 firstn app replace_from skipn]. f_equal. apply dehyphen_pos.
Qed.

Lemma dehyphen_copy pos x s :
  soft_break (x :: s) = false ->
  replace_from softHyphen group1 0 pos (x :: s)
  = x :: replace_from softHyphen group1 0 pos s.
Proof.
  intros H. cbn [replace_from]. rewrite exec_softHyphen, H.
  f_equal. apply dehyphen_pos.
Qed.

(** Whether a break starts in front of a letter does not depend on what
    follows the letter. *)
Lemma soft_break_before_letter c a x r1 r2 :
  is_letter x = true ->
  soft_break (c :: a ++ x :: r1) = true ->
  soft_break (c :: a ++ x :: r2) = true /\ 2 <= length a.
Proof.
  intros Hx. pose proof (letter_not_hyphen _ Hx) as H1.
  pose proof (letter_not_LF _ Hx) as H2.
  destruct a as [|d [|e [|g a]]]; cbn [app soft_break length].
  - destruct r1 as [|n [|y r1]]; try discriminate.
    rewrite H1, !andb_false_r. discriminate.
  - destruct r1 as [|y r1]; try discriminate.
    rewrite H2, !andb_false_r. discriminate.
  - intros H. split; [exact H | lia].
  - intros H. split; [exact H | lia].
Qed.

Lemma dehyphen_unwrap x y b :
  is_letter x = true -> is_letter y = true ->
  forall len a pos,
    length a <= len ->
    replace_from softHyphen group1 0 pos (a ++ x :: HYPHEN :: LF :: y :: b)
    = replace_from softHyphen group1 0 pos (a ++ x :: y :: b).
Proof.
  intros Hx Hy. induction len as [|len IH]; intros a pos Hlen.
  - destruct a; simpl in Hlen; [|lia]. cbn [app].
    rewrite dehyphen_break by (simpl; rewrite Hx, Hy; reflexivity).
    rewrite dehyphen_copy; [reflexivity|].
    simpl. rewrite (letter_not_hyphen _ Hy), andb_false_r.
    destruct b as [|n [|z b]]; reflexivity.
  - destruct a as [|c a].
    { apply (IH [] pos). simpl. lia. }
    cbn [app]. simpl in Hlen.
    destruct (soft_break (c :: a ++ x :: HYPHEN :: LF :: y :: b)) eqn:E1.
    + destruct (soft_break_before_letter c a x _ (y :: b) Hx E1) as [E2 Ha].
      rewrite !dehyphen_break by assumption. f_equal.
      rewrite !skipn_app.
      replace (2 - length a) with 0 by lia. cbn [skipn].
      apply IH. destruct a as [|? [|? a]]; simpl in *; lia.
    + destruct (soft_break (c :: a ++ x :: y :: b)) eqn:E2.
      { destruct (soft_break_before_letter c a x _ (HYPHEN :: LF :: y :: b) Hx E2).
        congruence. }
      rewrite !dehyphen_copy by assumption. f_equal. apply IH. lia.
Qed.

Lemma dehyphen_none s :
  (forall i, soft_break (skipn i s) = false) ->
  replace softHyphen group1 s = s.
Proof.
  intros H. apply replace_from_no_match. intros i _.
  rewrite exec_softHyphen, H. reflexivity.
Qed.

Lemma soft_break_at s i :
  soft_break (skipn i s) = true ->
  exists a x y b, s = a ++ x :: HYPHEN :: LF :: y :: b
                  /\ is_letter x = true /\ is_letter y = true.
Proof.
  intros H. destruct (skipn i s) as [|x [|h [|n [|y b]]]] eqn:E; try discriminate.
  simpl in H. rewrite !andb_true_iff in H. destruct H as (((Hx & Hh) & Hn) & Hy).
  apply N.eqb_eq in Hh, Hn. subst h n.
  exists (firstn i s), x, y, b. rewrite <- E, firstn_skipn. auto.
Qed.

(** * The claims *)

(** Evaluates [reconstructResumeText] on a closed ASCII input. *)
Ltac run_ascii H :=
  unfold reconstructResumeText;
  match goal with
  | |- context [?n ?i] =>
      match type of H with fixes_ascii n => rewrite (H i) by (vm_compute; reflexivity) end
  end;
  vm_compute; reflexivity.

(** C1, as amended: on the input of the example the three lines of the
    paragraph are joined into one line and each bullet stays a line of its
    own, but the blank line between them is not kept: the result has one
    newline there. *)
Theorem C1_paragraph_and_bullets normalize (H : fixes_ascii normalize) :
  reconstructResumeText normalize paragraph_and_bullets
  = Some paragraph_and_bullets_result.
Proof. run_ascii H. Qed.

Lemma C1_paragraph_and_bullets_witness :
  reconstructResumeText (fun s => s) paragraph_and_bullets
  = Some paragraph_and_bullets_result.
Proof. apply C1_paragraph_and_bullets. intros s _. reflexivity. Defined.

(** C1 as stated fails: the result differs from the stated one, whatever
    the normalization does outside ASCII. *)
Lemma C1_blank_line_dropped :
  (forall normalize, fixes_ascii normalize ->
     reconstructResumeText normalize paragraph_and_bullets
     = Some paragraph_and_bullets_result)
  /\ paragraph_and_bullets_result <> paragraph_and_bullets_stated.
Proof.
  split.
  - intros normalize H. run_ascii H.
  - vm_compute. discriminate.
Qed.

(** C7: the function returns on every input, with no exception, and the
    empty string gives the empty string. *)
Theorem C7_total_and_empty normalize (H : fixes_ascii normalize) :
  (forall input, exists clean, reconstructResumeText normalize input = Some clean)
  /\ reconstructResumeText normalize [] = Some [].
Proof.
  split.
  - intros input. rewrite reconstruct_eq. eauto.
  - run_ascii H.
Qed.

Lemma C7_total_and_empty_witness :
  (forall input, exists clean, reconstructResumeText (fun s => s) input = Some clean)
  /\ reconstructResumeText (fun s => s) [] = Some [].
Proof. apply C7_total_and_empty. intros s _. reflexivity. Defined.

(** C9: the result never has two newlines in a row: it is the non-empty
    trimmed strings of [out] with one newline between two of them, so no
    blank line of the input comes through. *)
Theorem C9_no_blank_line normalize input :
  exists clean,
    reconstructResumeText normalize input = Some clean
    /\ clean = join [LF] (paragraphs (input_lines (normalize input)))
    /\ Forall clean_line (paragraphs (input_lines (normalize input)))
    /\ ~ has_newlines 2 clean.
Proof.
  eexists. split; [apply reconstruct_join|].
  pose proof (paragraphs_clean (input_lines_no_LF (normalize input))) as Hc.
  repeat split; auto.
  destruct (paragraphs (input_lines (normalize input))) as [|l ls] eqn:E.
  - intros (a & b & Hab). destruct a; discriminate.
  - apply tight_no_blank_line. apply (join_clean Hc). discriminate.
Qed.

(** Indentation is stripped from bullet lines as well. *)
Example indented_bullets_result normalize :
  fixes_ascii normalize ->
  reconstructResumeText normalize indented_bullets
  = Some (js "Summary\n- Led team of 5\n* Shipped on time").
Proof. intros H. run_ascii H. Qed.

(** C10: every line of the result is free of white space at both ends. *)
Theorem C10_lines_trimmed normalize input :
  exists clean,
    reconstructResumeText normalize input = Some clean
    /\ Forall (fun l => leading_ws l = false /\ trailing_ws l = false)
         (split LF clean).
Proof.
  eexists. split; [apply reconstruct_join|].
  pose proof (paragraphs_clean (input_lines_no_LF (normalize input))) as Hc.
  destruct (paragraphs (input_lines (normalize input))) as [|l ls] eqn:E.
  - repeat constructor.
  - rewrite split_join; [| |discriminate].
    + eapply Forall_impl; [|exact Hc]. intros x (_ & _ & A & B). auto.
    + eapply Forall_impl; [|exact Hc]. intros x (_ & A & _). auto.
Qed.

(** C6: on every input the function returns, and its result has no white
    space at either end and no run of three newlines.  The step of the last
    statement that sees to the latter turns every run of three or more
    newlines into exactly two. *)
Theorem C6_result_shape normalize input :
  (exists clean,
     reconstructResumeText normalize input = Some clean
     /\ leading_ws clean = false /\ trailing_ws clean = false
     /\ ~ has_newlines 3 clean)
  /\ (forall out,
        finish out
        = trim (collapse_newlines
                  (replace spaceBeforeNewline (fun _ => [LF]) (join [LF] out))))
  /\ (forall a n b,
        3 <= n -> (forall a', a <> a' ++ [LF]) -> (forall b', b <> LF :: b') ->
        collapse_newlines (a ++ repeat LF n ++ b)
        = collapse_newlines a ++ [LF; LF] ++ collapse_newlines b).
Proof.
  split; [|split; [reflexivity | apply collapse_newlines_run]].
  eexists. split; [apply reconstruct_join|].
  pose proof (paragraphs_clean (input_lines_no_LF (normalize input))) as Hc.
  destruct (paragraphs (input_lines (normalize input))) as [|l ls] eqn:E.
  - repeat split; auto. intros (a & b & Hab). destruct a; discriminate.
  - destruct (join_clean Hc ltac:(discriminate)) as (T1 & T2 & T3 & T4).
    repeat split; auto. intros (a & b & Hab).
    apply (tight_no_blank_line T2). exists a, (LF :: b). rewrite Hab.
    reflexivity.
Qed.

(** A soft-hyphenated line break at a bare newline is unwrapped.  The
    example gives the stated result; wherever a letter, a hyphen, a newline
    and a letter follow one another the text is read as if the hyphen and
    the newline were not there; and a text with no such place is left as it
    is by this step. *)
Lemma unwrap_at_newline normalize (H : fixes_ascii normalize) :
  reconstructResumeText normalize wrapped_word = Some wrapped_word_result
  /\ (forall a x y b,
        is_letter x = true -> is_letter y = true ->
        dehyphenated (a ++ x :: HYPHEN :: LF :: y :: b)
        = dehyphenated (a ++ x :: y :: b))
  /\ (forall a x y b,
        is_letter x = true -> is_letter y = true ->
        normalize (a ++ x :: HYPHEN :: LF :: y :: b) = a ++ x :: HYPHEN :: LF :: y :: b ->
        normalize (a ++ x :: y :: b) = a ++ x :: y :: b ->
        reconstructResumeText normalize (a ++ x :: HYPHEN :: LF :: y :: b)
        = reconstructResumeText normalize (a ++ x :: y :: b))
  /\ (forall s,
        (forall a x y b, s = a ++ x :: HYPHEN :: LF :: y :: b ->
                         is_letter x && is_letter y = false) ->
        dehyphenated s = s).
Proof.
  assert (U : forall a x y b,
             is_letter x = true -> is_letter y = true ->
             dehyphenated (a ++ x :: HYPHEN :: LF :: y :: b)
             = dehyphenated (a ++ x :: y :: b)).
  { intros a x y b Hx Hy. unfold dehyphenated, replace.
    apply dehyphen_unwrap with (len := length a); auto. }
  split; [run_ascii H|]. split; [exact U|]. split.
  - intros a x y b Hx Hy N1 N2. rewrite !reconstruct_eq, N1, N2.
    unfold input_lines. rewrite U by assumption. reflexivity.
  - intros s Hs. apply dehyphen_none. intros i.
    destruct (soft_break (skipn i s)) eqn:E; auto.
    apply soft_break_at in E. destruct E as (a & x & y & b & E & Hx & Hy).
    specialize (Hs a x y b E). rewrite Hx, Hy in Hs. discriminate.
Qed.

(** ** The handler *)

Lemma cleaned_200 normalize typeError raw r :
  cleaned normalize typeError raw = Ok r -> status r = 200%N ->
  exists clean,
    reconstructResumeText normalize raw = Some clean
    /\ body r = Parsed clean (length clean).
Proof.
  unfold cleaned, respond.
  destruct (reconstructResumeText normalize raw) as [clean|]; [|discriminate].
  intros E _. inversion E; subst. simpl. eauto.
Qed.

(** C8: in every response with status 200 the body is the cleaned text
    with its length: [chars] is the length of [text], and [text] is
    [reconstructResumeText] of the raw text, which is the text the upstream
    parser returned (empty if it returned none) or the text of the file. *)
Theorem C8_chars_is_length normalize toLowerCase typeError req
    (H : status (POST normalize toLowerCase typeError req) = 200%N) :
  exists raw clean,
    body (POST normalize toLowerCase typeError req) = Parsed clean (length clean)
    /\ reconstructResumeText normalize raw = Some clean
    /\ exists file,
         formData req = Ok (FileEntry file)
         /\ (file_text file = Ok raw
             \/ exists url name res data,
                  fetch req url name file = Ok res
                  /\ res_json res = Ok data
                  /\ raw = match data with Some t => t | None => [] end).
Proof.
  revert H. unfold POST, handle.
  destruct (formData req) as [entry|m]; cbn [bind]; [|discriminate].
  destruct entry as [|s|file]; try discriminate.
  destruct (nonempty _).
  - match goal with |- context [fetch req ?u ?n file] =>
      destruct (fetch req u n file) as [res|m] eqn:F end; cbn [bind]; [|discriminate].
    destruct (negb (res_ok res)); [discriminate|].
    destruct (res_json res) as [data|m] eqn:J; cbn [bind]; [|discriminate].
    match goal with |- context [cleaned _ _ ?raw] =>
      destruct (cleaned normalize typeError raw) as [r|m] eqn:C end; [|discriminate].
    intros S. destruct (cleaned_200 _ _ _ C S) as (clean & R & B).
    eexists _, clean. repeat split; eauto. exists file. split; eauto 10.
  - destruct (_ || _); [|discriminate].
    destruct (file_text file) as [raw|m] eqn:T; cbn [bind]; [|discriminate].
    destruct (cleaned normalize typeError raw) as [r|m] eqn:C; [|discriminate].
    intros S. destruct (cleaned_200 _ _ _ C S) as (clean & R & B).
    exists raw, clean. repeat split; eauto.
Qed.

Lemma C8_chars_is_length_witness :
  exists raw clean,
    body (POST (fun s => s) (fun s => s) [] text_upload) = Parsed clean (length clean)
    /\ reconstructResumeText (fun s => s) raw = Some clean
    /\ exists file,
         formData text_upload = Ok (FileEntry file)
         /\ (file_text file = Ok raw
             \/ exists url name res data,
                  fetch text_upload url name file = Ok res
                  /\ res_json res = Ok data
                  /\ raw = match data with Some t => t | None => [] end).
Proof.
  apply (@C8_chars_is_length (fun s => s) (fun s => s) [] text_upload).
  vm_compute. reflexivity.
Defined.

(** ** Bullet lines *)

Lemma length_zero_nil (A : Type) (l : list A) : 1 <= length l -> l <> [].
Proof. destruct l; simpl; [lia | discriminate]. Qed.

Lemma nil_length_zero (A : Type) (l : list A) : l <> [] -> 1 <= length l.
Proof. destruct l; simpl; [congruence | lia]. Qed.

Lemma bullets_shape s : test bullets s = true <-> bullet_shape s.
Proof.
  rewrite test_true. unfold bullets, bullet_shape. split.
  - intros (i & pos' & s' & _ & M). cbn [matches] in M.
    destruct M as (pm & sm & (p0 & s0 & (-> & -> & ->) & M) & (sp & -> & Hsp & Lsp & _)).
    simpl in M. destruct M as [M | M].
    + destruct M as (p1 & s1 & (ws & E & Hws & _ & _) & (c & -> & Hc & _)).
      exists ws, [c], sp, s'. rewrite E. simpl.
      repeat split; eauto using length_zero_nil.
    + destruct M as (p1 & s1 & (p2 & s2 & (ws & E & Hws & _ & _) & (ds & -> & Hds & Lds & _))
                     & (d & -> & Hd & _)).
      exists ws, (ds ++ [d]), sp, s'. rewrite E, <- !app_assoc. simpl.
      repeat split; eauto 10 using length_zero_nil.
  - intros (ws & mk & sp & rest & -> & Hws & Hmk & Nsp & Hsp).
    exists 0, (length ws + length mk + length sp), rest. split; [lia|].
    cbn [matches skipn].
    exists (length ws + length mk), (sp ++ rest). split.
    + exists 0, (ws ++ mk ++ sp ++ rest). split; [auto|].
      destruct Hmk as [(c & -> & Hc) | (ds & d & -> & Nds & Hds & Hd)]; [left | right].
      * exists (length ws), (c :: sp ++ rest). split.
        -- exists ws. repeat split; auto. lia.
        -- exists c. repeat split; auto. simpl. lia.
      * exists (length ws + length ds), (d :: sp ++ rest). split.
        -- exists (length ws), (ds ++ d :: sp ++ rest). split.
           ++ exists ws. rewrite <- !app_assoc. repeat split; auto. lia.
           ++ exists ds. repeat split; auto using nil_length_zero.
        -- exists d. rewrite length_app. simpl. repeat split; auto. lia.
    + exists sp. repeat split; auto using nil_length_zero.
Qed.

Lemma bullets_nonempty cur : test bullets cur = true -> nonempty cur = true.
Proof. destruct cur; [discriminate | reflexivity]. Qed.

Lemma step_bullet cur next st :
  test bullets cur = true -> step cur next st = push cur (flush st).
Proof.
  intros H. unfold step. rewrite (bullets_nonempty _ H), H. reflexivity.
Qed.

Lemma trim_nil : trim [] = [].
Proof. reflexivity. Qed.

(** Before a bullet line nothing is left in the buffer: the line before it
    is not joined softly, as at the end of the text. *)
Lemma step_before_bullet cur l st :
  test bullets (trim l) = true -> step cur (trim l) st = step cur (trim []) st.
Proof.
  intros H. unfold step, joinSoftly. rewrite H, trim_nil. simpl.
  rewrite !andb_false_r. reflexivity.
Qed.

Lemma sweep_before_bullet l : forall a st,
  test bullets (trim l) = true -> sweep a l st = sweep a [] st.
Proof.
  induction a as [|x a IH]; intros st H; [reflexivity|]. cbn [sweep].
  destruct a as [|y a].
  - cbn [hd sweep]. apply step_before_bullet, H.
  - cbn [hd]. apply IH, H.
Qed.

Lemma sweep_app : forall a b after st,
  sweep (a ++ b) after st = sweep b after (sweep a (hd after b) st).
Proof.
  induction a as [|x a IH]; intros b after st; [reflexivity|].
  cbn [app sweep]. rewrite IH. do 2 f_equal.
  destruct a; reflexivity.
Qed.

Lemma flush_shift o st : flush (shift o st) = shift o (flush st).
Proof.
  unfold flush, shift. cbn [out buf].
  destruct (trim (buf st)); [reflexivity|]. rewrite app_assoc. reflexivity.
Qed.

Lemma push_shift o l st : push l (shift o st) = shift o (push l st).
Proof. unfold push, shift. cbn [out buf]. rewrite app_assoc. reflexivity. Qed.

Lemma append_shift o l st : append l (shift o st) = shift o (append l st).
Proof. reflexivity. Qed.

Lemma step_shift o cur next st :
  step cur next (shift o st) = shift o (step cur next st).
Proof.
  unfold step.
  destruct (negb (nonempty cur)); [apply flush_shift|].
  destruct (test bullets cur); [rewrite flush_shift; apply push_shift|].
  destruct (joinSoftly cur next); [apply append_shift|].
  rewrite append_shift. apply flush_shift.
Qed.

Lemma sweep_shift o : forall ls after st,
  sweep ls after (shift o st) = shift o (sweep ls after st).
Proof.
  induction ls as [|l ls IH]; intros after st; [reflexivity|].
  cbn [sweep]. rewrite step_shift. apply IH.
Qed.

Lemma paragraphs_around_bullet a l b :
  test bullets (trim l) = true ->
  paragraphs (a ++ l :: b) = paragraphs a ++ [trim l] ++ paragraphs b.
Proof.
  intros H. unfold paragraphs. rewrite sweep_app. cbn [hd sweep].
  rewrite (@sweep_before_bullet l a _ H).
  rewrite step_bullet by exact H.
  set (st1 := sweep a [] {| out := []; buf := [] |}).
  replace (push (trim l) (flush st1))
    with (shift (out (flush st1) ++ [trim l]) {| out := []; buf := [] |})
    by (unfold shift, push; cbn [out buf]; rewrite app_nil_r; reflexivity).
  rewrite sweep_shift, flush_shift. cbn [shift out]. rewrite <- app_assoc. reflexivity.
Qed.

(** The numbered item of the example, after a line with no punctuation. *)
Example numbered_item_lines normalize :
  fixes_ascii normalize ->
  exists clean,
    reconstructResumeText normalize numbered_item = Some clean
    /\ split LF clean = [js "Managed a team"; js "1) Managed budget"].
Proof.
  intros H. eexists. split; [run_ascii H|]. vm_compute. reflexivity.
Qed.

(** ** The join rule *)

Lemma all_ws_trailing a w :
  forallb is_ws w = true -> trailing_ws (a ++ w) = false -> w = [].
Proof.
  intros Hw H. destruct w as [|x w]; auto. exfalso.
  assert (N : x :: w <> []) by discriminate.
  destruct (exists_last N) as (w' & c & E). rewrite E in *.
  rewrite app_assoc, trailing_ws_last in H.
  rewrite forallb_app in Hw. simpl in Hw.
  rewrite H in Hw. rewrite andb_false_r in Hw. discriminate.
Qed.

Lemma all_ws_leading w r :
  forallb is_ws w = true -> leading_ws (w ++ r) = false -> w = [].
Proof.
  intros Hw H. destruct w as [|x w]; auto. simpl in *.
  rewrite H in Hw. discriminate.
Qed.

Lemma rev_cons_eq (A : Type) (s : list A) c before :
  rev s = c :: before <-> s = rev before ++ [c].
Proof.
  split; intros H.
  - rewrite <- (rev_involutive s), H. reflexivity.
  - rewrite H, rev_app_distr, rev_involutive. reflexivity.
Qed.

Lemma skipn_app_length (A : Type) (a b : list A) : skipn (length a) (a ++ b) = b.
Proof. rewrite skipn_app, Nat.sub_diag, skipn_all. reflexivity. Qed.

Lemma sentenceEnd_spec s :
  trailing_ws s = false -> test sentenceEnd s = ends_sentence s.
Proof.
  intros T. apply eq_true_iff_eq. rewrite test_true. unfold sentenceEnd, ends_sentence.
  split.
  - intros (i & pos' & s' & _ & M). cbn [matches] in M.
    destruct M as (p3 & s3 & (p2 & s2 & (p1 & s1 & (c & E & Hc & _) & O)
                              & (w & -> & Hw & _ & _)) & (-> & _ & _)).
    rewrite app_nil_r in *.
    assert (Es : s = firstn i s ++ skipn i s) by (symmetry; apply firstn_skipn).
    rewrite E in Es.
    destruct O as [[<- _] | (q & -> & Hq & _)].
    + assert (w = []).
      { apply (all_ws_trailing (firstn i s ++ [c])); auto.
        rewrite <- app_assoc. simpl. rewrite <- Es. exact T. }
      subst w. rewrite Es, rev_app_distr. simpl. rewrite Hc. reflexivity.
    + assert (w = []).
      { apply (all_ws_trailing (firstn i s ++ [c; q])); auto.
        rewrite <- app_assoc. simpl. rewrite <- Es. exact T. }
      subst w. rewrite Es, rev_app_distr. simpl.
      unfold is_closer. rewrite Hq, Hc. apply orb_true_r.
  - destruct (rev s) as [|c before] eqn:E; [discriminate|].
    apply rev_cons_eq in E. intros H. apply orb_true_iff in H.
    destruct H as [Hc | H].
    + exists (length (rev before)), (S (length (rev before))), [].
      rewrite E, skipn_app_length, length_app. split; [lia|].
      cbn [matches].
      exists (S (length (rev before))), []. split; [|auto].
      exists (S (length (rev before))), []. split.
      * exists (S (length (rev before))), []. split; [eauto|]. left. auto.
      * exists []. simpl. repeat split; auto.
    + apply andb_true_iff in H. destruct H as [Hq Hd].
      destruct before as [|d before]; [discriminate|].
      simpl in E. rewrite <- app_assoc in E. simpl in E.
      exists (length (rev before)), (S (S (length (rev before)))), [].
      rewrite E, skipn_app_length, length_app. split; [lia|].
      cbn [matches].
      exists (S (S (length (rev before)))), []. split; [|auto].
      exists (S (S (length (rev before)))), []. split.
      * exists (S (length (rev before))), [c]. split; [eauto|].
        right. exists c. repeat split; auto.
      * exists []. simpl. repeat split; auto.
Qed.

Lemma ends_in_spec p s :
  trailing_ws s = false ->
  (exists i pos' s', i <= length s
     /\ matches (Cls p +++ Rep 0 is_ws +++ Eol)%re i (skipn i s) pos' s')
  <-> last_is p s = true.
Proof.
  intros T. unfold last_is. split.
  - intros (i & pos' & s' & _ & M). cbn [matches] in M.
    destruct M as (p2 & s2 & (p1 & s1 & (c & E & Hc & _) & (w & -> & Hw & _ & _))
                   & (-> & _ & _)).
    rewrite app_nil_r in *.
    assert (Es : s = firstn i s ++ skipn i s) by (symmetry; apply firstn_skipn).
    rewrite E in Es.
    assert (w = []).
    { apply (all_ws_trailing (firstn i s ++ [c])); auto.
      rewrite <- app_assoc. simpl. rewrite <- Es. exact T. }
    subst w. rewrite Es, rev_app_distr. simpl. exact Hc.
  - destruct (rev s) as [|c before] eqn:E; [discriminate|].
    apply rev_cons_eq in E. intros Hc.
    exists (length (rev before)), (S (length (rev before))), [].
    rewrite E, skipn_app_length, length_app. split; [lia|].
    cbn [matches].
    exists (S (length (rev before))), []. split; [|auto].
    exists (S (length (rev before))), []. split; [eauto|].
    exists []. simpl. repeat split; auto.
Qed.

Lemma starts_marker_spec s :
  leading_ws s = false ->
  (exists i pos' s', i <= length s
     /\ matches (Bol +++ Rep 0 is_ws +++ Cls is_marker)%re i (skipn i s) pos' s')
  <-> starts_with_marker s = true.
Proof.
  intros L. unfold starts_with_marker. split.
  - intros (i & pos' & s' & _ & M). cbn [matches] in M.
    destruct M as (p2 & s2 & (p1 & s1 & (-> & -> & _) & (w & E & Hw & _ & _))
                   & (c & -> & Hc & _)).
    simpl in E. subst s.
    assert (w = []) by (eapply all_ws_leading; eauto).
    subst w. exact Hc.
  - destruct s as [|c s]; [discriminate|]. intros Hc.
    exists 0, 1, s. split; [lia|]. cbn [matches skipn].
    exists 0, (c :: s). split; [|eauto].
    exists 0, (c :: s). split; [auto|]. exists []. simpl. auto.
Qed.

Lemma hardBreakAfter_spec s :
  leading_ws s = false -> trailing_ws s = false ->
  test hardBreakAfter s = ends_hard_break s || starts_with_marker s.
Proof.
  intros L T. apply eq_true_iff_eq. rewrite test_true. unfold hardBreakAfter.
  rewrite orb_true_iff.
  rewrite <- (@starts_marker_spec s L).
  assert (Hend : ends_hard_break s = true
                 <-> last_is (one_of ":;") s = true \/ last_is (is_char 41%N) s = true).
  { unfold ends_hard_break, last_is. destruct (rev s) as [|c r]; [intuition discriminate|].
    unfold one_of. simpl. unfold is_char. rewrite !orb_false_r, !orb_true_iff. tauto. }
  rewrite Hend, <- !(fun p => @ends_in_spec p s T). cbn [matches]. split.
  - intros (i & pos' & s' & Hi & [[M | M] | M]); eauto 10.
  - intros [[(i & pos' & s' & Hi & M) | (i & pos' & s' & Hi & M)]
           | (i & pos' & s' & Hi & M)]; eauto 10.
Qed.

Lemma joinSoftly_spec cur next :
  cur <> [] -> leading_ws cur = false -> trailing_ws cur = false ->
  joinSoftly cur next = stated_join cur next && negb (starts_with_marker cur).
Proof.
  intros N L T. unfold joinSoftly, stated_join.
  rewrite (@sentenceEnd_spec cur T), (@hardBreakAfter_spec cur L T).
  destruct cur as [|c cur]; [congruence|]. cbn [length Nat.ltb Nat.leb].
  rewrite negb_orb.
  destruct (ends_sentence (c :: cur)), (ends_hard_break (c :: cur)),
    (starts_with_marker (c :: cur)), (nonempty next), (test bullets next); reflexivity.
Qed.


(** A heading that ends in a colon stays a line of its own. *)
Example heading_not_joined normalize :
  fixes_ascii normalize ->
  reconstructResumeText normalize heading_and_line = Some heading_and_line.
Proof. intros H. run_ascii H. Qed.

(** ** Running the function on its own result *)

Lemma str_eqb_eq : forall a b, str_eqb a b = true -> a = b.
Proof.
  induction a as [|x a IH]; intros [|y b] H; simpl in H; try discriminate; auto.
  apply andb_true_iff in H. destruct H as [H1 H2].
  apply N.eqb_eq in H1. subst. f_equal. apply IH, H2.
Qed.

Lemma join_Forall (P : char -> Prop) ls :
  P LF -> Forall (Forall P) ls -> Forall P (join [LF] ls).
Proof.
  intros HP. induction ls as [|l ls IH]; intros H; [constructor|].
  inversion H as [|? ? Hl Hls]; subst. destruct ls as [|l' ls]; [assumption|].
  rewrite join_cons2. apply Forall_app. split; [exact Hl|].
  apply Forall_app. split; [repeat constructor; exact HP | apply IH, Hls].
Qed.

Lemma strip_CR_none s :
  Forall (fun c => c <> CR) s -> replace carriageReturn (fun _ => []) s = s.
Proof.
  intros H. unfold replace, carriageReturn. rewrite replace_class_out.
  induction H as [|c s Hc Hs IH]; simpl; auto.
  apply N.eqb_neq in Hc. unfold is_char. rewrite Hc. simpl. f_equal. exact IH.
Qed.

Lemma strip_trailing_none l :
  trailing_ws l = false -> replace trailingSpace (fun _ => []) l = l.
Proof.
  intros T. apply replace_no_match. intros i pos' s' _ M. cbn [matches] in M.
  destruct M as (p1 & s1 & (w & E & Hw & Lw & _) & (-> & _ & _)).
  rewrite app_nil_r in E.
  assert (w = []).
  { apply (all_ws_trailing (firstn i l)); auto.
    rewrite <- E, firstn_skipn. exact T. }
  rewrite H in Lw. simpl in Lw. lia.
Qed.

Lemma sweep_clean_lines : forall ls o,
  Forall trimmed_line ls -> no_stray_wraps ls = true ->
  sweep ls [] {| out := o; buf := [] |} = {| out := o ++ ls; buf := [] |}.
Proof.
  induction ls as [|l ls IH]; intros o H W.
  - simpl. rewrite app_nil_r. reflexivity.
  - inversion H as [|? ? (Hne & Hl & Ht) Hls]; subst.
    cbn [sweep]. rewrite (@trim_id _ Hl Ht).
    assert (S1 : step l (trim (hd [] ls)) {| out := o; buf := [] |}
                 = {| out := o ++ [l]; buf := [] |}).
    { unfold step. destruct l as [|c l]; [congruence|]. cbn [nonempty negb].
      destruct (test bullets (c :: l)) eqn:B; [reflexivity|].
      assert (J : joinSoftly (c :: l) (trim (hd [] ls)) = false).
      { destruct ls as [|l' ls].
        - unfold joinSoftly. cbn [hd]. rewrite trim_nil. cbn [nonempty].
          rewrite !andb_false_r. reflexivity.
        - cbn [no_stray_wraps] in W. apply andb_true_iff in W. destruct W as [W _].
          rewrite (@trim_id _ Hl Ht) in W. unfold wraps in W.
          cbn [nonempty] in W. rewrite B in W. cbn [negb andb] in W.
          apply negb_true_iff in W. exact W. }
      rewrite J. unfold flush, append. cbn [out buf app].
      rewrite (@trim_id _ Hl Ht). reflexivity. }
    transitivity (sweep ls [] {| out := o ++ [l]; buf := [] |});
      [f_equal; exact S1|].
    rewrite IH; auto.
    + rewrite <- app_assoc. reflexivity.
    + destruct ls as [|l' ls]; auto. cbn [no_stray_wraps] in W.
      apply andb_true_iff in W. tauto.
Qed.

Lemma paragraphs_fixed ls :
  Forall trimmed_line ls -> no_stray_wraps ls = true -> paragraphs ls = ls.
Proof.
  intros H W. unfold paragraphs. rewrite sweep_clean_lines; auto.
Qed.

Lemma input_lines_fixed ls :
  ls <> [] -> Forall clean_line ls -> Forall (Forall (fun c => c <> CR)) ls ->
  dehyphenated (join [LF] ls) = join [LF] ls ->
  input_lines (join [LF] ls) = ls.
Proof.
  intros N C R D. unfold input_lines. rewrite D.
  rewrite strip_CR_none by (apply join_Forall; [discriminate | exact R]).
  rewrite split_join; auto.
  2:{ eapply Forall_impl; [|exact C]. intros x (_ & A & _). exact A. }
  clear N R D. induction C as [|l ls (_ & _ & _ & T) C IH]; [reflexivity|].
  cbn [map]. rewrite (@strip_trailing_none _ T), IH. reflexivity.
Qed.

(** C2, as amended: when the result of the function is itself in clean
    form, and the normalization leaves it as it is, the function returns it
    unchanged.  The input being in clean form is not enough. *)
Theorem C2_idempotent_on_clean_result normalize s t
    (Hs : reconstructResumeText normalize s = Some t)
    (Hn : normalize t = t)
    (Hc : clean_form t = true) :
  reconstructResumeText normalize t = Some t.
Proof.
  rewrite reconstruct_join in Hs. inversion Hs as [Ht]. clear Hs.
  set (ls := paragraphs (input_lines (normalize s))) in *.
  assert (C : Forall clean_line ls) by apply paragraphs_clean, input_lines_no_LF.
  assert (R : Forall (Forall (fun c => c <> CR)) ls).
  { apply paragraphs_keep; [discriminate | apply input_lines_no_CR]. }
  subst t. rewrite reconstruct_join, Hn. f_equal.
  destruct ls as [|l ls'] eqn:E.
  - reflexivity.
  - rewrite <- E in *. apply andb_true_iff in Hc. destruct Hc as [D W].
    apply str_eqb_eq in D.
    assert (N : ls <> []) by (rewrite E; discriminate).
    rewrite (input_lines_fixed N C R D) in W |- *.
    rewrite paragraphs_fixed; auto.
    eapply Forall_impl; [|exact C]. intros x (A1 & _ & A2 & A3). repeat split; auto.
Qed.

Lemma C2_idempotent_on_clean_result_witness :
  reconstructResumeText (fun s => s) paragraph_and_bullets_result
  = Some paragraph_and_bullets_result.
Proof.
  apply (@C2_idempotent_on_clean_result (fun s => s) paragraph_and_bullets);
    vm_compute; reflexivity.
Defined.

(** C2 as stated fails: a text in clean form whose result is changed by a
    second run, which joins the two lines. *)
Lemma C2_second_run_merges :
  clean_form two_paragraphs = true
  /\ (forall normalize, fixes_ascii normalize ->
        reconstructResumeText normalize two_paragraphs = Some two_paragraphs_once
        /\ reconstructResumeText normalize two_paragraphs_once
           = Some two_paragraphs_twice)
  /\ two_paragraphs_twice <> two_paragraphs_once.
Proof.
  split; [vm_compute; reflexivity|]. split.
  - intros normalize H. split; run_ascii H.
  - vm_compute. discriminate.
Qed.

(** * Further properties of the code *)

(** ** Only white space changes *)

Lemma ink_cons c s : ink (c :: s) = if is_ws c then ink s else c :: ink s.
Proof. unfold ink. simpl. destruct (is_ws c); reflexivity. Qed.

Lemma ink_app a b : ink (a ++ b) = ink a ++ ink b.
Proof. apply filter_app. Qed.

Lemma ink_trimStart s : ink (trimStart s) = ink s.
Proof.
  induction s as [|c s IH]; [reflexivity|]. simpl.
  destruct (is_ws c) eqn:E; simpl; [exact IH | rewrite E; reflexivity].
Qed.

Lemma ink_rev s : ink (rev s) = rev (ink s).
Proof. apply filter_rev. Qed.

Lemma ink_trimEnd s : ink (trimEnd s) = ink s.
Proof.
  unfold trimEnd. rewrite ink_rev, ink_trimStart, ink_rev. apply rev_involutive.
Qed.

Lemma ink_trim s : ink (trim s) = ink s.
Proof. unfold trim. rewrite ink_trimEnd. apply ink_trimStart. Qed.

Lemma ink_nil_of_trim_nil s : trim s = [] -> ink s = [].
Proof. intros H. rewrite <- ink_trim, H. reflexivity. Qed.

Lemma content_flush st : content (flush st) = content st.
Proof.
  unfold content, flush. cbn [out buf ink filter]. rewrite app_nil_r.
  destruct (trim (buf st)) as [|c t] eqn:E.
  - rewrite (ink_nil_of_trim_nil _ E), app_nil_r. reflexivity.
  - rewrite map_app, concat_app. cbn [map concat]. rewrite app_nil_r.
    rewrite <- E, ink_trim. reflexivity.
Qed.

Lemma content_append cur st : content (append cur st) = content st ++ ink cur.
Proof.
  unfold content, append. cbn [out buf]. rewrite !ink_app, <- app_assoc.
  do 2 f_equal. destruct (buf st); reflexivity.
Qed.

Lemma content_push_flush cur st :
  content (push cur (flush st)) = content st ++ ink cur.
Proof.
  rewrite <- (content_flush st). unfold content, push. cbn [out buf].
  rewrite map_app, concat_app. cbn [map concat flush buf ink filter].
  rewrite !app_nil_r. reflexivity.
Qed.

Lemma content_step cur next st :
  content (step cur next st) = content st ++ ink cur.
Proof.
  unfold step. destruct cur as [|c cur]; cbn [nonempty negb].
  - rewrite content_flush, app_nil_r. reflexivity.
  - destruct (test bullets (c :: cur)); [apply content_push_flush|].
    destruct (joinSoftly (c :: cur) next).
    + apply content_append.
    + rewrite content_flush. apply content_append.
Qed.

Lemma content_sweep : forall ls after st,
  content (sweep ls after st) = content st ++ concat (map ink ls).
Proof.
  induction ls as [|l ls IH]; intros after st; cbn [sweep map concat].
  - rewrite app_nil_r. reflexivity.
  - rewrite IH, content_step, ink_trim, <- app_assoc. reflexivity.
Qed.

Lemma ink_paragraphs ls :
  concat (map ink (paragraphs ls)) = concat (map ink ls).
Proof.
  unfold paragraphs.
  pose proof (content_flush (sweep ls [] {| out := []; buf := [] |})) as H.
  rewrite content_sweep in H. unfold content in H at 1.
  cbn [flush buf ink filter] in H. rewrite app_nil_r in H. exact H.
Qed.

Lemma ink_join ls : ink (join [LF] ls) = concat (map ink ls).
Proof.
  induction ls as [|l ls IH]; [reflexivity|].
  destruct ls as [|l' ls].
  - simpl. rewrite app_nil_r. reflexivity.
  - rewrite join_cons2, !ink_app, IH. reflexivity.
Qed.

Lemma ink_split : forall s, concat (map ink (split LF s)) = ink s.
Proof.
  induction s as [|c s IH]; [reflexivity|]. cbn [split].
  destruct (N.eqb_spec c LF) as [->|N].
  - cbn [map concat]. rewrite IH. reflexivity.
  - change (ink (c :: s)) with (if negb (is_ws c) then c :: ink s else ink s).
    destruct (split LF s) as [|l ls]; cbn [map concat] in *.
    + rewrite <- IH. unfold ink. simpl. destruct (is_ws c); reflexivity.
    + rewrite <- IH.
      change (ink (c :: l)) with (if negb (is_ws c) then c :: ink l else ink l).
      destruct (is_ws c); reflexivity.
Qed.

(** A replacement by nothing of matches made of white space keeps the ink. *)
Lemma ink_replace_blank r :
  (forall pos s e s', matches r pos s e s' ->
                      forallb is_ws (firstn (e - pos) s) = true) ->
  forall s skip pos,
    forallb is_ws (firstn skip s) = true ->
    ink (replace_from r (fun _ => []) skip pos s) = ink s.
Proof.
  intros Hr. induction s as [|c s IH]; intros skip pos Hs.
  - destruct skip; cbn [replace_from]; [|reflexivity].
    destruct (exec_at r pos []); reflexivity.
  - destruct skip as [|skip]; cbn [replace_from].
    + destruct (exec_at r pos (c :: s)) as [e|] eqn:E.
      * apply exec_at_sound in E. destruct E as (s' & M).
        apply Hr in M. cbn [app]. destruct (e - pos) as [|len].
        -- rewrite !ink_cons, IH by reflexivity. reflexivity.
        -- cbn [firstn forallb] in M. apply andb_true_iff in M. destruct M as [Hc M].
           rewrite ink_cons, Hc. apply IH, M.
      * rewrite !ink_cons, IH by reflexivity. reflexivity.
    + cbn [firstn forallb] in Hs. apply andb_true_iff in Hs. destruct Hs as [Hc Hs].
      rewrite ink_cons, Hc. apply IH, Hs.
Qed.

Lemma firstn_app_length (A : Type) (a b : list A) : firstn (length a) (a ++ b) = a.
Proof. rewrite firstn_app, Nat.sub_diag, firstn_all. simpl. apply app_nil_r. Qed.

Lemma ink_strip_trailing l : ink (replace trailingSpace (fun _ => []) l) = ink l.
Proof.
  apply ink_replace_blank; [|reflexivity].
  intros pos s e s' M. cbn [matches trailingSpace] in M.
  destruct M as (p1 & s1 & (w & -> & Hw & _ & ->) & (-> & -> & ->)).
  replace (pos + length w - pos) with (length w) by lia.
  rewrite firstn_app_length. exact Hw.
Qed.

Lemma ink_strip_CR s : ink (replace carriageReturn (fun _ => []) s) = ink s.
Proof.
  apply ink_replace_blank; [|reflexivity].
  intros pos t e s' M. cbn [matches carriageReturn] in M.
  destruct M as (c & -> & Hc & ->).
  replace (S pos - pos) with 1 by lia. cbn [firstn forallb].
  apply N.eqb_eq in Hc. subst c. reflexivity.
Qed.

Lemma ink_input_lines s :
  concat (map ink (input_lines s)) = ink (dehyphenated s).
Proof.
  unfold input_lines. rewrite <- ink_strip_CR, <- ink_split.
  generalize (split LF (replace carriageReturn (fun _ => []) (dehyphenated s))).
  induction l as [|x l IH]; [reflexivity|].
  cbn [map concat]. rewrite IH, ink_strip_trailing. reflexivity.
Qed.

Lemma ink_result n :
  ink (join [LF] (paragraphs (input_lines n))) = ink (dehyphenated n).
Proof. rewrite ink_join, ink_paragraphs. apply ink_input_lines. Qed.

(** X1: apart from unwrapping soft hyphens, the function changes white
    space only: the characters of the result that are not white space are
    those of the dehyphenated normalized input, in the same order. *)
Theorem X1_only_white_space_changes normalize input :
  exists clean,
    reconstructResumeText normalize input = Some clean
    /\ ink clean = ink (dehyphenated (normalize input)).
Proof.
  eexists. split; [apply reconstruct_join | apply ink_result].
Qed.

(** ** No character is invented *)

Lemma input_lines_keep (P : char -> Prop) s :
  Forall P s -> Forall (Forall P) (input_lines s).
Proof.
  intros H. apply map_replace_Forall, split_Forall.
  apply replace_Forall; [constructor|].
  apply replace_Forall; [|exact H].
  intros m Hm. apply Forall_firstn_of, Hm.
Qed.

Lemma Forall_Forall_and (P Q : char -> Prop) (ls : list str) :
  Forall (Forall P) ls -> Forall (Forall Q) ls ->
  Forall (Forall (fun c => P c /\ Q c)) ls.
Proof.
  intros HP. induction HP as [|l ls Hl _ IH]; intros HQ; [constructor|].
  inversion HQ as [|? ? Hl' Hls']; subst. constructor; [|apply IH, Hls'].
  apply Forall_forall. intros c Hc. rewrite Forall_forall in Hl, Hl'. auto.
Qed.

Lemma result_keeps (P : char -> Prop) normalize input :
  P SP -> P LF -> Forall (Forall P) (input_lines (normalize input)) ->
  exists clean,
    reconstructResumeText normalize input = Some clean /\ Forall P clean.
Proof.
  intros HS HL H. eexists. split; [apply reconstruct_join|].
  apply join_Forall; [exact HL|]. apply paragraphs_keep; assumption.
Qed.

(** X2: the result has no carriage return, and each of its characters is a
    character of the normalized input, a space or a newline. *)
Theorem X2_no_character_invented normalize input :
  exists clean,
    reconstructResumeText normalize input = Some clean
    /\ Forall (fun c => c <> CR
                        /\ (In c (normalize input) \/ c = SP \/ c = LF)) clean.
Proof.
  apply result_keeps.
  - split; [discriminate | auto].
  - split; [discriminate | auto].
  - apply Forall_Forall_and; [apply input_lines_no_CR|].
    apply input_lines_keep. apply Forall_forall. auto.
Qed.

(** X3: a text of white space only, the empty text included, gives the
    empty text. *)
Theorem X3_blank_input normalize input
    (H : forallb is_ws (normalize input) = true) :
  reconstructResumeText normalize input = Some [].
Proof.
  rewrite reconstruct_join. f_equal.
  assert (W : Forall (fun c => is_ws c = true) (dehyphenated (normalize input))).
  { apply replace_Forall; [intros m Hm; apply Forall_firstn_of, Hm|].
    apply Forall_forall. rewrite forallb_forall in H. exact H. }
  assert (E : ink (dehyphenated (normalize input)) = []).
  { clear H. induction W as [|c s Hc _ IH]; [reflexivity|].
    rewrite ink_cons, Hc. exact IH. }
  rewrite <- ink_result in E.
  pose proof (paragraphs_clean (input_lines_no_LF (normalize input))) as C.
  destruct (paragraphs (input_lines (normalize input))) as [|l ls]; [reflexivity|].
  destruct (join_clean C ltac:(discriminate)) as (T1 & _ & T3 & _).
  destruct (join [LF] (l :: ls)) as [|c t]; [congruence|].
  simpl in T3. rewrite ink_cons, T3 in E. discriminate.
Qed.

Lemma X3_blank_input_witness :
  reconstructResumeText (fun s => s) (js " \n\t\r\n  ") = Some [].
Proof. apply X3_blank_input. vm_compute. reflexivity. Defined.

(** ** The lines of the input *)

Lemma trimStart_all_ws s : forallb is_ws s = true -> trimStart s = [].
Proof.
  induction s as [|c s IH]; [reflexivity|]. simpl.
  intros H. apply andb_true_iff in H. destruct H as [-> H]. apply IH, H.
Qed.

Lemma trimStart_app a b :
  trimStart (a ++ b) = if forallb is_ws a then trimStart b else trimStart a ++ b.
Proof.
  induction a as [|c a IH]; [reflexivity|]. simpl.
  destruct (is_ws c); [exact IH | reflexivity].
Qed.

Lemma forallb_rev (p : char -> bool) s : forallb p (rev s) = forallb p s.
Proof.
  induction s as [|c s IH]; [reflexivity|]. simpl.
  rewrite forallb_app, IH. simpl. rewrite andb_true_r. apply andb_comm.
Qed.

Lemma trimEnd_all_ws s : forallb is_ws s = true -> trimEnd s = [].
Proof.
  intros H. unfold trimEnd. rewrite trimStart_all_ws; [reflexivity|].
  rewrite forallb_rev. exact H.
Qed.

Lemma trimEnd_cons c s :
  forallb is_ws (c :: s) = false -> trimEnd (c :: s) = c :: trimEnd s.
Proof.
  intros H. unfold trimEnd. cbn [rev]. rewrite trimStart_app, forallb_rev.
  simpl in H. destruct (forallb is_ws s) eqn:E.
  - rewrite andb_true_r in H. simpl. rewrite H.
    rewrite trimStart_all_ws by (rewrite forallb_rev; exact E). reflexivity.
  - rewrite rev_app_distr. reflexivity.
Qed.

Lemma exec_trailingSpace pos s :
  exec_at trailingSpace pos s
  = if nonempty s && forallb is_ws s then Some (pos + length s) else None.
Proof.
  destruct (exec_at trailingSpace pos s) as [e|] eqn:E.
  - apply exec_at_sound in E. destruct E as (s' & M). cbn [matches trailingSpace] in M.
    destruct M as (p1 & s1 & (w & -> & Hw & Lw & ->) & (-> & -> & ->)).
    rewrite app_nil_r, Hw. destruct w; [simpl in Lw; lia | reflexivity].
  - destruct (nonempty s && forallb is_ws s) eqn:B; [|reflexivity].
    apply andb_true_iff in B. destruct B as [N W]. exfalso.
    apply (@exec_at_complete trailingSpace pos s (pos + length s) []); [|exact E].
    cbn [matches trailingSpace]. exists (pos + length s), []. split; [|auto].
    exists s. rewrite app_nil_r. repeat split; auto.
    destruct s; [discriminate | simpl; lia].
Qed.

(** [l.replace(/\s+$/g, '')] is [trimEnd]. *)
Lemma strip_trailing_trimEnd : forall s pos,
  replace_from trailingSpace (fun _ => []) 0 pos s = trimEnd s.
Proof.
  induction s as [|c s IH]; intros pos; [reflexivity|].
  cbn [replace_from]. rewrite exec_trailingSpace. cbn [nonempty andb].
  destruct (forallb is_ws (c :: s)) eqn:W.
  - rewrite trimEnd_all_ws by exact W.
    replace (pos + length (c :: s) - pos) with (S (length s)) by (simpl; lia).
    cbn [app]. rewrite replace_from_skip by lia.
    rewrite skipn_all. reflexivity.
  - rewrite trimEnd_cons by exact W. f_equal. apply IH.
Qed.

Lemma input_lines_spec s :
  input_lines s = map trimEnd (split LF (filter not_CR (dehyphenated s))).
Proof.
  unfold input_lines. unfold replace at 2. unfold carriageReturn.
  rewrite replace_class_out.
  apply map_ext. intros l. apply strip_trailing_trimEnd.
Qed.

(** X4: the lines the loop reads are those of the dehyphenated text with
    every carriage return removed, split at the newlines, each without its
    trailing white space. *)
Theorem X4_input_lines s :
  input_lines s = map trimEnd (split LF (filter not_CR (dehyphenated s))).
Proof. apply input_lines_spec. Qed.

(** ** A text of one line *)

Lemma trimStart_split s :
  exists w, s = w ++ trimStart s /\ forallb is_ws w = true.
Proof.
  induction s as [|c s (w & IH & Hw)]; simpl.
  - exists []. auto.
  - destruct (is_ws c) eqn:E.
    + exists (c :: w). simpl. rewrite E, Hw. split; [f_equal; exact IH | reflexivity].
    + exists []. auto.
Qed.

Lemma trimEnd_split s :
  exists w, s = trimEnd s ++ w /\ forallb is_ws w = true.
Proof.
  unfold trimEnd. destruct (trimStart_split (rev s)) as (w & H & Hw).
  exists (rev w). rewrite forallb_rev. split; [|exact Hw].
  rewrite <- rev_app_distr, <- H, rev_involutive. reflexivity.
Qed.

Lemma trim_split s :
  exists a b, s = a ++ trim s ++ b
              /\ forallb is_ws a = true /\ forallb is_ws b = true.
Proof.
  destruct (trimStart_split s) as (a & Ha & Wa).
  destruct (trimEnd_split (trimStart s)) as (b & Hb & Wb).
  exists a, b. unfold trim. rewrite <- Hb. auto.
Qed.

(** The middle of a text between white space is what [trim] gives. *)
Lemma trim_unique a m b :
  forallb is_ws a = true -> forallb is_ws b = true ->
  leading_ws m = false -> trailing_ws m = false ->
  trim (a ++ m ++ b) = m.
Proof.
  intros Wa Wb L T. unfold trim. rewrite trimStart_app, Wa.
  destruct m as [|c m].
  - simpl. rewrite trimStart_all_ws by exact Wb. reflexivity.
  - simpl in L. cbn [app trimStart]. rewrite L.
    unfold trimEnd. change (c :: m ++ b) with ((c :: m) ++ b).
    rewrite rev_app_distr, trimStart_app, forallb_rev, Wb.
    rewrite trimStart_id by exact T. apply rev_involutive.
Qed.

Lemma trim_trimEnd s : trim (trimEnd s) = trim s.
Proof.
  destruct (trimEnd_split s) as (b' & H & Wb').
  destruct (trim_split (trimEnd s)) as (a & b & E & Wa & Wb).
  rewrite H at 2. rewrite E at 2. rewrite <- !app_assoc.
  symmetry. apply trim_unique; auto using trim_leading, trim_trailing.
  rewrite forallb_app, Wb, Wb'. reflexivity.
Qed.

Lemma paragraphs_one l :
  paragraphs [l] = match trim l with [] => [] | c :: t => [c :: t] end.
Proof.
  unfold paragraphs. cbn [sweep hd]. unfold step.
  pose proof (trim_trim l) as TT.
  destruct (trim l) as [|c t] eqn:E; [reflexivity|].
  cbn [nonempty negb]. destruct (test bullets (c :: t)); [reflexivity|].
  unfold joinSoftly. rewrite trim_nil. cbn [nonempty]. rewrite !andb_false_r.
  unfold flush, append. cbn [out buf app]. rewrite TT. reflexivity.
Qed.

Lemma no_LF_no_soft_break s :
  Forall (fun c => c <> LF) s -> dehyphenated s = s.
Proof.
  intros H. apply dehyphen_none. intros i.
  destruct (soft_break (skipn i s)) eqn:E; [|reflexivity].
  apply soft_break_at in E. destruct E as (a & x & y & b & -> & _).
  apply Forall_app in H. destruct H as [_ H].
  inversion H as [|? ? _ H1]; subst. inversion H1 as [|? ? _ H2]; subst.
  inversion H2 as [|? ? N _]; subst. congruence.
Qed.

(** X5: a text of one line comes back trimmed, with its carriage returns
    removed, whatever it contains. *)
Theorem X5_one_line normalize input
    (H : Forall (fun c => c <> LF) (normalize input)) :
  reconstructResumeText normalize input
  = Some (trim (filter not_CR (normalize input))).
Proof.
  rewrite reconstruct_join, input_lines_spec.
  rewrite (no_LF_no_soft_break H).
  assert (N : Forall (fun c => c <> LF) (filter not_CR (normalize input))).
  { apply Forall_forall. intros c Hc. apply filter_In in Hc.
    rewrite Forall_forall in H. apply H, Hc. }
  rewrite (split_line N). cbn [map]. rewrite paragraphs_one, trim_trimEnd.
  destruct (trim (filter not_CR (normalize input))); reflexivity.
Qed.

Lemma X5_one_line_witness :
  reconstructResumeText (fun s => s) (js "  - Led team of 5\r ")
  = Some (trim (filter not_CR (js "  - Led team of 5\r "))).
Proof. apply X5_one_line. vm_compute. repeat constructor; discriminate. Defined.

(** ** The result is no longer than the input *)

Lemma replace_from_length r repl :
  (forall m, length (repl m) <= length m) ->
  forall s skip pos,
    length (replace_from r repl skip pos s) + Nat.min skip (length s) <= length s.
Proof.
  intros Hr. induction s as [|c s IH]; intros skip pos.
  - destruct skip; cbn [replace_from]; [|simpl; lia].
    destruct (exec_at r pos []); [|simpl; lia].
    rewrite firstn_nil, app_nil_r. specialize (Hr []). simpl in *. lia.
  - destruct skip as [|skip]; cbn [replace_from].
    + destruct (exec_at r pos (c :: s)) as [e|].
      * rewrite length_app. destruct (e - pos) as [|len].
        -- specialize (Hr []). specialize (IH 0 (S pos)). simpl in *. lia.
        -- specialize (Hr (firstn (S len) (c :: s))). specialize (IH len (S pos)).
           cbn [firstn length] in Hr. rewrite length_firstn in Hr. simpl. lia.
      * specialize (IH 0 (S pos)). simpl in *. lia.
    + specialize (IH skip (S pos)). simpl. lia.
Qed.

Lemma replace_length r repl s :
  (forall m, length (repl m) <= length m) ->
  length (replace r repl s) <= length s.
Proof.
  intros H. pose proof (@replace_from_length r repl H s 0 0). unfold replace. lia.
Qed.

Lemma trimStart_length s : length (trimStart s) <= length s.
Proof.
  destruct (trimStart_split s) as (w & H & _).
  rewrite H at 2. rewrite length_app. lia.
Qed.

Lemma trim_length s : length (trim s) <= length s.
Proof.
  unfold trim, trimEnd. rewrite length_rev.
  pose proof (trimStart_length (rev (trimStart s))) as H1.
  pose proof (trimStart_length s) as H2.
  rewrite length_rev in H1. lia.
Qed.

Lemma cost_app a b : cost (a ++ b) = cost a + cost b.
Proof. induction a as [|l a IH]; simpl; [reflexivity | rewrite IH; lia]. Qed.

Lemma weight_flush st : weight (flush st) <= weight st.
Proof.
  unfold weight, flush. cbn [out buf]. pose proof (trim_length (buf st)) as H.
  destruct (trim (buf st)) as [|c t] eqn:E.
  - lia.
  - rewrite cost_app. destruct (buf st); simpl in *; lia.
Qed.

Lemma weight_append cur st :
  cur <> [] -> weight (append cur st) = weight st + S (length cur).
Proof.
  intros N. unfold weight, append. cbn [out buf].
  destruct (buf st) as [|b bs]; cbn [app].
  - destruct cur; [congruence | simpl; lia].
  - cbn [length]. rewrite length_app. simpl. lia.
Qed.

Lemma weight_step cur next st :
  weight (step cur next st) <= weight st + S (length cur).
Proof.
  unfold step. destruct cur as [|c cur]; cbn [nonempty negb].
  - pose proof (weight_flush st). lia.
  - destruct (test bullets (c :: cur)).
    + pose proof (weight_flush st) as H. unfold weight, push in *.
      cbn [out buf flush] in *. rewrite cost_app. simpl in *. lia.
    + pose proof (@weight_append (c :: cur) st ltac:(discriminate)) as H.
      destruct (joinSoftly (c :: cur) next); [lia|].
      pose proof (weight_flush (append (c :: cur) st)). lia.
Qed.

Lemma weight_sweep : forall ls after st,
  weight (sweep ls after st) <= weight st + cost ls.
Proof.
  induction ls as [|l ls IH]; intros after st; cbn [sweep cost]; [lia|].
  specialize (IH after (step (trim l) (trim (hd after ls)) st)).
  pose proof (weight_step (trim l) (trim (hd after ls)) st).
  pose proof (trim_length l). lia.
Qed.

Lemma cost_paragraphs ls : cost (paragraphs ls) <= cost ls.
Proof.
  unfold paragraphs.
  pose proof (weight_flush (sweep ls [] {| out := []; buf := [] |})) as H1.
  pose proof (weight_sweep ls [] {| out := []; buf := [] |}) as H2.
  unfold weight at 1 in H1. cbn [flush buf] in H1.
  unfold weight at 2 in H2. cbn [out buf cost] in H2. cbn [flush out] in *. lia.
Qed.

Lemma join_length ls : length (join [LF] ls) < cost ls \/ ls = [].
Proof.
  induction ls as [|l ls IH]; [right; reflexivity|]. left.
  destruct ls as [|l' ls].
  - simpl. lia.
  - rewrite join_cons2, !length_app. destruct IH as [IH | IH]; [|discriminate].
    change (cost (l :: l' :: ls)) with (S (length l) + cost (l' :: ls)).
    change (length [LF]) with 1. lia.
Qed.

Lemma cost_split : forall s, cost (split LF s) = S (length s).
Proof.
  induction s as [|c s IH]; [reflexivity|]. cbn [split].
  destruct (c =? LF)%N.
  - cbn [cost length]. rewrite IH. lia.
  - destruct (split LF s) as [|l ls]; cbn [cost length] in *; lia.
Qed.

Lemma cost_map_shorter (f : str -> str) ls :
  (forall l, length (f l) <= length l) -> cost (map f ls) <= cost ls.
Proof.
  intros H. induction ls as [|l ls IH]; cbn [map cost]; [lia|].
  specialize (H l). lia.
Qed.

Lemma cost_input_lines s : cost (input_lines s) <= S (length s).
Proof.
  unfold input_lines.
  etransitivity; [apply cost_map_shorter|].
  - intros l. apply replace_length. intros m. simpl. lia.
  - rewrite cost_split. apply le_n_S.
    etransitivity; [apply replace_length; intros m; simpl; lia|].
    apply replace_length. intros m. unfold group1. rewrite length_firstn. lia.
Qed.

Lemma result_length n :
  length (join [LF] (paragraphs (input_lines n))) <= length n.
Proof.
  pose proof (cost_paragraphs (input_lines n)) as H1.
  pose proof (cost_input_lines n) as H2.
  destruct (join_length (paragraphs (input_lines n))) as [H | H].
  - lia.
  - rewrite H. simpl. lia.
Qed.

(** X6: the result is never longer than the normalized input. *)
Theorem X6_not_longer normalize input :
  exists clean,
    reconstructResumeText normalize input = Some clean
    /\ length clean <= length (normalize input).
Proof.
  eexists. split; [apply reconstruct_join | apply result_length].
Qed.

(** ** No soft hyphen is left *)

Lemma dehyphen_cons pos c s :
  exists t, replace_from softHyphen group1 0 pos (c :: s) = c :: t
            /\ (soft_break (c :: s) = false
                -> t = replace_from softHyphen group1 0 pos s).
Proof.
  destruct (soft_break (c :: s)) eqn:E.
  - rewrite dehyphen_break by exact E. eexists. split; [reflexivity | discriminate].
  - rewrite dehyphen_copy by exact E. eexists. split; reflexivity.
Qed.

Lemma dehyphen_starts pos s c t :
  replace_from softHyphen group1 0 pos s = c :: t ->
  exists s', s = c :: s'
             /\ (soft_break s = false -> t = replace_from softHyphen group1 0 pos s').
Proof.
  destruct s as [|x s]; [discriminate|].
  destruct (dehyphen_cons pos x s) as (t' & E & H). rewrite E.
  intros I. inversion I; subst. eauto.
Qed.

Lemma not_letter_no_break c s : is_letter c = false -> soft_break (c :: s) = false.
Proof.
  intros H. destruct s as [|h [|n [|y s]]]; simpl; try reflexivity.
  rewrite H. reflexivity.
Qed.

Lemma dehyphen_clean : forall len s pos i,
  length s <= len ->
  soft_break (skipn i (replace_from softHyphen group1 0 pos s)) = false.
Proof.
  induction len as [|len IH]; intros s pos i Hlen.
  - destruct s; [|simpl in Hlen; lia]. destruct i; reflexivity.
  - destruct s as [|x s]; [destruct i; reflexivity|]. simpl in Hlen.
    destruct (soft_break (x :: s)) eqn:E.
    + rewrite dehyphen_break by exact E.
      destruct s as [|h [|n [|y s]]]; try discriminate.
      simpl in E. rewrite !andb_true_iff in E. destruct E as (((Hx & Hh) & Hn) & Hy).
      cbn [skipn]. destruct i as [|i].
      * cbn [skipn]. destruct (dehyphen_cons pos y s) as (t & -> & _).
        simpl. rewrite (letter_not_hyphen _ Hy), andb_false_r.
        destruct t as [|? [|? ?]]; reflexivity.
      * cbn [skipn]. apply IH. simpl in *. lia.
    + rewrite dehyphen_copy by exact E. destruct i as [|i].
      * cbn [skipn].
        destruct (soft_break (x :: replace_from softHyphen group1 0 pos s)) eqn:B;
          [|reflexivity].
        exfalso.
        destruct (replace_from softHyphen group1 0 pos s) as [|h [|n [|y t]]] eqn:D;
          try discriminate.
        simpl in B. rewrite !andb_true_iff in B. destruct B as (((Hx & Hh) & Hn) & Hy).
        apply N.eqb_eq in Hh, Hn. subst h n.
        apply dehyphen_starts in D. destruct D as (s1 & -> & D).
        specialize (D (@not_letter_no_break HYPHEN _ eq_refl)). symmetry in D.
        apply dehyphen_starts in D. destruct D as (s2 & -> & D).
        specialize (D (@not_letter_no_break LF _ eq_refl)). symmetry in D.
        apply dehyphen_starts in D. destruct D as (s3 & -> & _).
        simpl in E. rewrite Hx, Hy in E. discriminate.
      * cbn [skipn]. apply IH. lia.
Qed.

Lemma dehyphenated_clean s i : soft_break (skipn i (dehyphenated s)) = false.
Proof. apply dehyphen_clean with (len := length s). lia. Qed.

(** X7: after the unwrapping no soft-hyphenated line break is left, so
    unwrapping again changes nothing. *)
Theorem X7_no_soft_break_left s :
  (forall a x y b,
     dehyphenated s = a ++ x :: HYPHEN :: LF :: y :: b ->
     is_letter x && is_letter y = false)
  /\ dehyphenated (dehyphenated s) = dehyphenated s.
Proof.
  split.
  - intros a x y b E. pose proof (dehyphenated_clean s (length a)) as H.
    rewrite E, skipn_app_length in H. simpl in H.
    destruct (is_letter x), (is_letter y); auto.
  - apply dehyphen_none. apply dehyphenated_clean.
Qed.

(** ** Lines that end a paragraph *)

Lemma buf_flush st : buf (flush st) = [].
Proof. reflexivity. Qed.

Lemma step_closes l next st :
  closes l = true ->
  step (trim l) next st = step (trim l) [] st /\ buf (step (trim l) next st) = [].
Proof.
  unfold closes, step, joinSoftly. intros H.
  destruct (nonempty (trim l)); cbn [negb orb] in *; [|auto].
  destruct (test bullets (trim l)); cbn [orb] in H; [auto|].
  apply orb_true_iff in H.
  assert (E : negb (test sentenceEnd (trim l)) && negb (test hardBreakAfter (trim l))
              = false).
  { destruct H as [-> | ->]; [reflexivity | apply andb_false_r]. }
  rewrite <- !andb_assoc. rewrite (andb_assoc (negb (test sentenceEnd (trim l)))), E.
  rewrite !andb_false_r. cbn [andb]. auto.
Qed.

Lemma sweep_closed a l after st :
  closes l = true ->
  sweep (a ++ [l]) after st = sweep (a ++ [l]) [] st
  /\ buf (sweep (a ++ [l]) after st) = [].
Proof.
  intros H. rewrite !sweep_app. cbn [hd sweep].
  destruct (@step_closes l (trim after) (sweep a l st) H) as [E1 E2].
  destruct (@step_closes l (trim []) (sweep a l st) H) as [E3 _].
  split; [rewrite E1, E3; reflexivity | exact E2].
Qed.

Lemma state_eta st : buf st = [] -> st = shift (out st) {| out := []; buf := [] |}.
Proof.
  destruct st as [o b]. cbn [buf]. intros ->. unfold shift. cbn [out buf].
  rewrite app_nil_r. reflexivity.
Qed.

Lemma flush_empty st : buf st = [] -> flush st = st.
Proof. destruct st as [o b]. cbn [buf]. intros ->. reflexivity. Qed.

Lemma paragraphs_barrier a l b :
  closes l = true ->
  paragraphs (a ++ l :: b) = paragraphs (a ++ [l]) ++ paragraphs b.
Proof.
  intros H. unfold paragraphs.
  change (a ++ l :: b) with (a ++ [l] ++ b). rewrite app_assoc, sweep_app.
  destruct (@sweep_closed a l (hd [] b) {| out := []; buf := [] |} H) as [E1 E2].
  rewrite E1 in E2.
  transitivity (out (flush (sweep b [] (sweep (a ++ [l]) [] {| out := []; buf := [] |}))));
    [do 3 f_equal; exact E1|].
  clear E1. generalize dependent (sweep (a ++ [l]) [] {| out := []; buf := [] |}).
  intros st1 E2. rewrite (@flush_empty st1 E2).
  assert (S : sweep b [] st1
              = shift (out st1) (sweep b [] {| out := []; buf := [] |})).
  { rewrite <- sweep_shift, <- (@state_eta st1 E2). reflexivity. }
  rewrite S, flush_shift. reflexivity.
Qed.

Lemma sweep_after a : forall l l' st, trim l = trim l' -> sweep a l st = sweep a l' st.
Proof.
  induction a as [|x a IH]; intros l l' st H; [reflexivity|]. cbn [sweep].
  destruct a as [|y a].
  - cbn [hd sweep]. rewrite H. reflexivity.
  - cbn [hd]. apply IH, H.
Qed.

Lemma paragraphs_blank_last a l : trim l = [] -> paragraphs (a ++ [l]) = paragraphs a.
Proof.
  intros H. unfold paragraphs. rewrite sweep_app. cbn [hd sweep].
  rewrite (@sweep_after a l [] _ H). unfold step. rewrite H. cbn [nonempty negb].
  reflexivity.
Qed.

Lemma nth_error_split (A : Type) : forall i (ls : list A) l,
  nth_error ls i = Some l -> ls = firstn i ls ++ l :: skipn (S i) ls.
Proof.
  induction i as [|i IH]; intros [|x ls] l H; simpl in H; try discriminate.
  - inversion H; subst. reflexivity.
  - cbn [firstn skipn app]. f_equal. apply IH, H.
Qed.

Lemma firstn_S_nth (A : Type) : forall i (ls : list A) l,
  nth_error ls i = Some l -> firstn (S i) ls = firstn i ls ++ [l].
Proof.
  induction i as [|i IH]; intros [|x ls] l H; simpl in H; try discriminate.
  - inversion H; subst. reflexivity.
  - cbn [firstn app]. f_equal. apply IH, H.
Qed.

Lemma closes_spec l :
  closes l
  = negb (nonempty (trim l)) || test bullets (trim l)
    || ends_sentence (trim l) || ends_hard_break (trim l)
    || starts_with_marker (trim l).
Proof.
  unfold closes.
  rewrite (@sentenceEnd_spec (trim l) (trim_trailing l)).
  rewrite (@hardBreakAfter_spec (trim l) (trim_leading l) (trim_trailing l)).
  rewrite !orb_assoc. reflexivity.
Qed.

(** X8: a line ends the paragraph, whatever follows it, when it is blank,
    is a marker followed by white space, ends in [.], [!] or [?] (alone or
    followed by one of the four closers), ends in [:], [;] or [)], or begins
    with a marker character.  The lines of the result are then those made
    of the lines read up to and including it, followed by those made of the
    lines read after it; the first hold the text up to that line and the
    second the text after it.  A blank line itself adds nothing. *)
Theorem X8_paragraph_ends normalize input i l
    (Hl : nth_error (input_lines (normalize input)) i = Some l)
    (Hc : closes l = true) :
  closes l
  = negb (nonempty (trim l)) || test bullets (trim l)
    || ends_sentence (trim l) || ends_hard_break (trim l)
    || starts_with_marker (trim l)
  /\ reconstructResumeText normalize input
     = Some (join [LF]
               (paragraphs (firstn (S i) (input_lines (normalize input)))
                ++ paragraphs (skipn (S i) (input_lines (normalize input)))))
  /\ concat (map ink (paragraphs (firstn (S i) (input_lines (normalize input)))))
     = concat (map ink (firstn (S i) (input_lines (normalize input))))
  /\ concat (map ink (paragraphs (skipn (S i) (input_lines (normalize input)))))
     = concat (map ink (skipn (S i) (input_lines (normalize input))))
  /\ (trim l = [] ->
      paragraphs (firstn (S i) (input_lines (normalize input)))
      = paragraphs (firstn i (input_lines (normalize input)))).
Proof.
  split; [apply closes_spec|]. split; [|split; [|split]].
  - rewrite reconstruct_join. do 2 f_equal.
    rewrite (@nth_error_split _ _ _ _ Hl) at 1.
    rewrite (@firstn_S_nth _ _ _ _ Hl). apply paragraphs_barrier, Hc.
  - apply ink_paragraphs.
  - apply ink_paragraphs.
  - intros B. rewrite (@firstn_S_nth _ _ _ _ Hl). apply paragraphs_blank_last, B.
Qed.

Lemma X8_paragraph_ends_witness :
  reconstructResumeText (fun s => s) paragraph_and_bullets
  = Some (join [LF]
            (paragraphs (firstn 4 (input_lines paragraph_and_bullets))
             ++ paragraphs (skipn 4 (input_lines paragraph_and_bullets))))
  /\ (trim [] = [] ->
      paragraphs (firstn 4 (input_lines paragraph_and_bullets))
      = paragraphs (firstn 3 (input_lines paragraph_and_bullets))).
Proof.
  destruct (@X8_paragraph_ends (fun s => s) paragraph_and_bullets 3 [])
    as (_ & R & _ & _ & B); [vm_compute; reflexivity | vm_compute; reflexivity |].
  split; [exact R | exact B].
Defined.

(** ** One word per line *)

Lemma hyphen_break_cons2 x y s :
  hyphen_break (x :: y :: s)
  = (is_char HYPHEN x && is_char LF y) || hyphen_break (y :: s).
Proof. reflexivity. Qed.

Lemma soft_break_hyphen_break : forall i s,
  soft_break (skipn i s) = true -> hyphen_break s = true.
Proof.
  induction i as [|i IH]; intros s H.
  - destruct s as [|x [|h [|n [|y s]]]]; try discriminate.
    simpl in H. rewrite !andb_true_iff in H. destruct H as (((_ & Hh) & Hn) & _).
    rewrite !hyphen_break_cons2, Hn. rewrite orb_true_iff. right.
    rewrite Hh. reflexivity.
  - destruct s as [|x s]; [discriminate|]. cbn [skipn] in H. apply IH in H.
    destruct s as [|y s]; [discriminate|]. rewrite hyphen_break_cons2, H.
    apply orb_true_r.
Qed.

Lemma plain_word_facts w :
  plain_word w = true ->
  w <> [] /\ Forall (fun c => is_ws c = false) w
  /\ ends_sentence w = false /\ ends_hard_break w = false
  /\ starts_with_marker w = false /\ last_is (is_char HYPHEN) w = false.
Proof.
  unfold plain_word. rewrite !andb_true_iff, !negb_true_iff.
  intros (((((N & W) & A) & B) & C) & D). repeat split; auto.
  - destruct w; [discriminate | discriminate].
  - apply Forall_forall. intros c Hc. rewrite forallb_forall in W.
    apply negb_true_iff, W, Hc.
Qed.

Lemma no_ws_clean_line w :
  w <> [] -> Forall (fun c => is_ws c = false) w -> clean_line w.
Proof.
  intros N W. repeat split; auto.
  - eapply Forall_impl; [|exact W]. intros c Hc. apply ws_not_LF, Hc.
  - destruct w; [reflexivity|]. inversion W; subst. assumption.
  - destruct (exists_last N) as (w' & c & ->). rewrite trailing_ws_last.
    apply Forall_app in W. destruct W as [_ W]. inversion W; subst. assumption.
Qed.

Lemma last_is_snoc p w c : last_is p (w ++ [c]) = p c.
Proof. unfold last_is. rewrite rev_app_distr. reflexivity. Qed.

Lemma last_is_cons p x w : w <> [] -> last_is p (x :: w) = last_is p w.
Proof.
  intros N. destruct (exists_last N) as (w' & c & ->).
  change (x :: w' ++ [c]) with ((x :: w') ++ [c]). rewrite !last_is_snoc. reflexivity.
Qed.

Lemma hyphen_break_line_then : forall w t,
  Forall (fun c => c <> LF) w -> last_is (is_char HYPHEN) w = false ->
  hyphen_break (w ++ LF :: t) = hyphen_break (LF :: t).
Proof.
  induction w as [|x w IH]; intros t N L; [reflexivity|].
  inversion N as [|? ? Nx Nw]; subst. destruct w as [|y w].
  - cbn [app]. rewrite hyphen_break_cons2.
    unfold last_is in L. simpl in L. rewrite L. reflexivity.
  - cbn [app]. rewrite hyphen_break_cons2.
    inversion Nw as [|? ? Ny _]; subst.
    replace (is_char LF y) with false by (symmetry; apply is_LF_false; exact Ny).
    rewrite andb_false_r. cbn [orb]. apply IH; [exact Nw|].
    rewrite <- L. symmetry. apply last_is_cons. discriminate.
Qed.

Lemma hyphen_break_no_LF w : Forall (fun c => c <> LF) w -> hyphen_break w = false.
Proof.
  induction w as [|x w IH]; intros N; [reflexivity|].
  inversion N as [|? ? _ Nw]; subst. destruct w as [|y w]; [reflexivity|].
  rewrite hyphen_break_cons2. inversion Nw as [|? ? Ny _]; subst.
  replace (is_char LF y) with false by (symmetry; apply is_LF_false; exact Ny).
  rewrite andb_false_r. apply IH, Nw.
Qed.

Lemma hyphen_break_join ws :
  Forall (fun w => Forall (fun c => c <> LF) w
                   /\ last_is (is_char HYPHEN) w = false) ws ->
  hyphen_break (join [LF] ws) = false.
Proof.
  induction ws as [|w ws IH]; intros H; [reflexivity|].
  inversion H as [|? ? [N L] Hws]; subst. destruct ws as [|w' ws].
  - apply hyphen_break_no_LF, N.
  - rewrite join_cons2. change ([LF] ++ join [LF] (w' :: ws)) with (LF :: join [LF] (w' :: ws)).
    rewrite hyphen_break_line_then by assumption.
    specialize (IH Hws). destruct (join [LF] (w' :: ws)) as [|c t]; [reflexivity|].
    rewrite hyphen_break_cons2. exact IH.
Qed.

Lemma no_ws_no_bullet w :
  Forall (fun c => is_ws c = false) w -> test bullets w = false.
Proof.
  intros W. destruct (test bullets w) eqn:B; [|reflexivity]. exfalso.
  apply bullets_shape in B.
  destruct B as (ws & mk & sp & rest & -> & _ & _ & N & S).
  destruct sp as [|c sp]; [congruence|]. simpl in S.
  apply andb_true_iff in S. destruct S as [S _].
  rewrite !Forall_app in W. destruct W as (_ & _ & W & _).
  inversion W; subst. congruence.
Qed.

Lemma plain_words_join w w' :
  plain_word w = true -> plain_word w' = true -> joinSoftly w w' = true.
Proof.
  intros P P'.
  destruct (plain_word_facts _ P) as (N & W & A & B & C & _).
  destruct (plain_word_facts _ P') as (N' & W' & _).
  destruct (no_ws_clean_line N W) as (_ & _ & L & T).
  rewrite (@joinSoftly_spec w w' N L T). unfold stated_join.
  rewrite A, B, C, (no_ws_no_bullet W').
  destruct w'; [congruence | reflexivity].
Qed.

Lemma glue_trimmed b ws :
  b = [] \/ trimmed_line b -> ws <> [] -> Forall trimmed_line ws ->
  trimmed_line (glue b ws).
Proof.
  intros Hb N H.
  assert (J : trimmed_line (join [SP] ws)).
  { clear Hb. induction H as [|w ws Hw Hws IH]; [congruence|].
    destruct ws as [|w' ws]; [exact Hw|].
    specialize (IH ltac:(discriminate)). destruct Hw as (N1 & L1 & T1).
    destruct IH as (N2 & L2 & T2). rewrite join_cons2. repeat split.
    - destruct w; [congruence | discriminate].
    - rewrite leading_ws_app; assumption.
    - rewrite app_assoc, trailing_ws_app; assumption. }
  unfold glue. destruct Hb as [-> | (N1 & L1 & T1)]; [exact J|].
  destruct b as [|c b]; [congruence|]. destruct J as (N2 & L2 & T2).
  repeat split; [discriminate | exact L1 |].
  change ((c :: b) ++ SP :: join [SP] ws) with ((c :: b) ++ [SP] ++ join [SP] ws).
  rewrite app_assoc, trailing_ws_app; assumption.
Qed.

Lemma glue_cons b w ws :
  w <> [] -> ws <> [] ->
  glue (buf (append w {| out := []; buf := b |})) ws = glue b (w :: ws).
Proof.
  intros Nw N. destruct ws as [|w' ws]; [congruence|].
  destruct w as [|x w]; [congruence|].
  unfold append, glue. cbn [buf]. destruct b as [|c b]; cbn [app].
  - rewrite join_cons2. reflexivity.
  - rewrite join_cons2. rewrite <- !app_assoc. reflexivity.
Qed.

(** Lines that are all joined softly end up as one line. *)
Lemma sweep_wrapped : forall ws o b,
  ws <> [] -> Forall (fun w => plain_word w = true) ws ->
  b = [] \/ trimmed_line b ->
  sweep ws [] {| out := o; buf := b |} = {| out := o ++ [glue b ws]; buf := [] |}.
Proof.
  induction ws as [|w ws IH]; intros o b N H Hb; [congruence|].
  inversion H as [|? ? P Hws]; subst.
  destruct (plain_word_facts _ P) as (Nw & W & _).
  destruct (no_ws_clean_line Nw W) as (_ & _ & L & T).
  assert (TL : Forall trimmed_line (w :: ws)).
  { eapply Forall_impl; [|exact H]. intros x Px.
    destruct (plain_word_facts _ Px) as (Nx & Wx & _).
    destruct (no_ws_clean_line Nx Wx) as (_ & _ & Lx & Tx). repeat split; auto. }
  cbn [sweep]. rewrite (@trim_id w L T).
  unfold step.
  replace (nonempty w) with true by (destruct w; [congruence | reflexivity]).
  cbn [negb].
  rewrite (no_ws_no_bullet W).
  destruct ws as [|w' ws].
  - cbn [hd sweep]. unfold joinSoftly. rewrite trim_nil. cbn [nonempty].
    rewrite !andb_false_r.
    pose proof (glue_trimmed Hb N TL) as (G1 & G2 & G3).
    unfold flush. cbn [out].
    assert (E : buf (append w {| out := o; buf := b |}) = glue b [w]).
    { unfold append, glue. cbn [buf join]. destruct b; reflexivity. }
    rewrite E, (@trim_id _ G2 G3).
    destruct (glue b [w]); [congruence | reflexivity].
  - inversion Hws as [|? ? P' _]; subst.
    destruct (plain_word_facts _ P') as (Nw' & W' & _).
    destruct (no_ws_clean_line Nw' W') as (_ & _ & L' & T').
    cbn [hd]. rewrite (@trim_id w' L' T'), (@plain_words_join w w' P P').
    unfold append at 1. cbn [out].
    rewrite IH; [|discriminate | exact Hws |].
    + do 3 f_equal.
      apply (@glue_cons b w (w' :: ws)); [exact Nw | discriminate].
    + right. cbn [buf].
      replace (b ++ match b with [] => [] | _ :: _ => [SP] end ++ w) with (glue b [w])
        by (unfold glue; cbn [join]; destruct b; reflexivity).
      apply (@glue_trimmed b [w]); auto; [discriminate|].
      inversion TL; subst. repeat constructor; tauto.
Qed.

(** X9: words that come one per line come back as one line with single
    spaces, when each word is not empty, has no white space in it, does not
    end in [.], [!] or [?] (alone or followed by one of the four closers),
    does not end in [:], [;] or [)], does not end in a hyphen, and does not
    begin with a marker character. *)
Theorem X9_one_word_per_line normalize words
    (N : words <> [])
    (P : forallb plain_word words = true)
    (Hn : normalize (join [LF] words) = join [LF] words) :
  reconstructResumeText normalize (join [LF] words) = Some (join [SP] words).
Proof.
  assert (F : Forall (fun w => plain_word w = true) words).
  { apply Forall_forall. rewrite forallb_forall in P. exact P. }
  assert (C : Forall clean_line words).
  { eapply Forall_impl; [|exact F]. intros w Pw.
    destruct (plain_word_facts _ Pw) as (Nw & W & _). apply no_ws_clean_line; auto. }
  assert (R : Forall (Forall (fun c => c <> CR)) words).
  { eapply Forall_impl; [|exact F]. intros w Pw.
    destruct (plain_word_facts _ Pw) as (_ & W & _).
    eapply Forall_impl; [|exact W]. intros c Hc ->. discriminate. }
  assert (D : dehyphenated (join [LF] words) = join [LF] words).
  { apply dehyphen_none. intros i.
    destruct (soft_break (skipn i (join [LF] words))) eqn:E; [|reflexivity].
    apply soft_break_hyphen_break in E. rewrite hyphen_break_join in E; [discriminate|].
    eapply Forall_impl; [|exact F]. intros w Pw.
    destruct (plain_word_facts _ Pw) as (Nw & W & _ & _ & _ & H). split; [|exact H].
    eapply Forall_impl; [|exact W]. intros c Hc. apply ws_not_LF, Hc. }
  rewrite reconstruct_join, Hn, (input_lines_fixed N C R D).
  unfold paragraphs. rewrite sweep_wrapped; auto.
Qed.

Lemma X9_one_word_per_line_witness :
  reconstructResumeText (fun s => s) (join [LF] one_word_per_line)
  = Some (join [SP] one_word_per_line).
Proof.
  apply (@X9_one_word_per_line (fun s => s) one_word_per_line);
    [discriminate | vm_compute; reflexivity | reflexivity].
Defined.

(** ** The lines of the result are groups of lines of the input *)

Lemma join_trimmed ws :
  ws <> [] -> Forall trimmed_line ws -> trimmed_line (join [SP] ws).
Proof. intros N H. apply (@glue_trimmed [] ws); auto. Qed.

Lemma join_snoc ws x :
  ws <> [] -> join [SP] (ws ++ [x]) = join [SP] ws ++ SP :: x.
Proof.
  induction ws as [|w ws IH]; intros N; [congruence|].
  destruct ws as [|w' ws]; [reflexivity|].
  change ((w :: w' :: ws) ++ [x]) with (w :: (w' :: ws) ++ [x]).
  change ((w' :: ws) ++ [x]) with (w' :: ws ++ [x]) at 1.
  rewrite !join_cons2.
  change (w' :: ws ++ [x]) with ((w' :: ws) ++ [x]).
  rewrite IH by discriminate. rewrite <- !app_assoc. reflexivity.
Qed.

Lemma grouped_flush st ks :
  grouped st ks -> grouped (flush st) ks /\ buf (flush st) = [].
Proof.
  intros (done & cur & Ho & Hb & E & D & T). split; [|reflexivity].
  unfold flush. rewrite Hb. destruct cur as [|c cur].
  - exists done, []. cbn [join trim out buf]. rewrite trim_nil. auto.
  - assert (Tc : Forall trimmed_line (c :: cur)).
    { rewrite <- E in T. apply Forall_app in T. tauto. }
    destruct (@join_trimmed (c :: cur) ltac:(discriminate) Tc) as (N & L & R).
    rewrite (@trim_id _ L R).
    exists (done ++ [c :: cur]), [].
    replace (match join [SP] (c :: cur) with
             | [] => out st
             | _ :: _ => out st ++ [join [SP] (c :: cur)]
             end) with (out st ++ [join [SP] (c :: cur)])
      by (destruct (join [SP] (c :: cur)); [congruence | reflexivity]).
    cbn [out buf]. repeat split; auto.
    + rewrite Ho, map_app. reflexivity.
    + rewrite concat_app. cbn [concat]. rewrite !app_nil_r. exact E.
    + apply Forall_app. split; [exact D|]. repeat constructor. discriminate.
Qed.

Lemma grouped_append st ks l :
  grouped st ks -> trimmed_line l -> grouped (append l st) (ks ++ [l]).
Proof.
  intros (done & cur & Ho & Hb & E & D & T) Hl.
  exists done, (cur ++ [l]). unfold append. cbn [out buf]. rewrite Hb.
  repeat split; auto.
  - destruct cur as [|c cur]; [reflexivity|].
    assert (Tc : Forall trimmed_line (c :: cur)).
    { rewrite <- E in T. apply Forall_app in T. tauto. }
    destruct (@join_trimmed (c :: cur) ltac:(discriminate) Tc) as (N & _).
    rewrite join_snoc by discriminate.
    destruct (join [SP] (c :: cur)); [congruence | reflexivity].
  - rewrite app_assoc, E. reflexivity.
  - apply Forall_app. split; [exact T | repeat constructor; apply Hl].
Qed.

Lemma grouped_push st ks l :
  grouped st ks -> buf st = [] -> trimmed_line l -> grouped (push l st) (ks ++ [l]).
Proof.
  intros (done & cur & Ho & Hb & E & D & T) B Hl.
  assert (cur = []).
  { destruct cur as [|c cur]; [reflexivity|]. exfalso.
    assert (Tc : Forall trimmed_line (c :: cur)).
    { rewrite <- E in T. apply Forall_app in T. tauto. }
    destruct (@join_trimmed (c :: cur) ltac:(discriminate) Tc) as (N & _). congruence. }
  subst cur. exists (done ++ [[l]]), []. unfold push. cbn [out buf].
  repeat split; auto.
  - rewrite Ho, map_app. reflexivity.
  - rewrite concat_app. cbn [concat]. rewrite !app_nil_r in *. rewrite E. reflexivity.
  - apply Forall_app. split; [exact D | repeat constructor; discriminate].
  - apply Forall_app. split; [exact T | repeat constructor; apply Hl].
Qed.

Lemma grouped_step l next st ks :
  grouped st ks ->
  grouped (step (trim l) next st) (ks ++ kept [l]).
Proof.
  intros G. unfold step, kept. cbn [map filter].
  destruct (nonempty (trim l)) eqn:N; cbn [negb].
  - assert (Tl : trimmed_line (trim l)).
    { apply trim_trimmed_line. destruct (trim l); discriminate. }
    destruct (test bullets (trim l)).
    + destruct (grouped_flush G) as [G' B]. apply grouped_push; auto.
    + destruct (joinSoftly (trim l) next).
      * apply grouped_append; auto.
      * apply grouped_flush. apply grouped_append; auto.
  - rewrite app_nil_r. apply grouped_flush, G.
Qed.

Lemma kept_cons l ls : kept (l :: ls) = kept [l] ++ kept ls.
Proof. unfold kept. cbn [map filter]. destruct (nonempty (trim l)); reflexivity. Qed.

Lemma grouped_sweep : forall ls after st ks,
  grouped st ks -> grouped (sweep ls after st) (ks ++ kept ls).
Proof.
  induction ls as [|l ls IH]; intros after st ks G; cbn [sweep].
  - unfold kept. simpl. rewrite app_nil_r. exact G.
  - rewrite kept_cons, app_assoc. apply IH, grouped_step, G.
Qed.

Lemma paragraphs_groups lines :
  exists groups,
    paragraphs lines = map (join [SP]) groups
    /\ concat groups = kept lines
    /\ Forall (fun g => g <> []) groups.
Proof.
  assert (G0 : grouped {| out := []; buf := [] |} []).
  { exists [], []. repeat split; constructor. }
  pose proof (grouped_sweep lines [] G0) as G.
  apply grouped_flush in G. destruct G as [(done & cur & Ho & Hb & E & D & T) B].
  exists done. unfold paragraphs. split; [exact Ho|]. split; [|exact D].
  assert (cur = []).
  { destruct cur as [|c cur]; [reflexivity|]. exfalso.
    assert (Tc : Forall trimmed_line (c :: cur)).
    { rewrite <- E in T. apply Forall_app in T. tauto. }
    destruct (@join_trimmed (c :: cur) ltac:(discriminate) Tc) as (N & _).
    rewrite B in Hb. congruence. }
  subst cur. rewrite app_nil_r in E. exact E.
Qed.

(** X10: the result is made of the lines that the loop reads (those of
    the normalized text after the unwrapping, the removal of carriage
    returns and the split at newlines) that are not blank, trimmed, each
    once and in their order, and otherwise unchanged: they come in groups, a
    single space between the lines of a group and a single newline between
    two groups. *)
Theorem X10_groups_of_lines normalize input :
  exists groups,
    reconstructResumeText normalize input
    = Some (join [LF] (map (join [SP]) groups))
    /\ concat groups = kept (input_lines (normalize input))
    /\ Forall (fun g => g <> []) groups.
Proof.
  destruct (paragraphs_groups (input_lines (normalize input))) as (groups & P & E & D).
  exists groups. rewrite reconstruct_join, P. auto.
Qed.

(** ** The handler *)

Lemma exec_trailingSlash pos s :
  exec_at trailingSlash pos s
  = match s with
    | [c] => if is_char SLASH c then Some (S pos) else None
    | _ => None
    end.
Proof.
  unfold exec_at, trailingSlash, SLASH.
  destruct s as [|c [|d s]]; cbn [run]; try reflexivity;
    destruct (is_char 47%N c); reflexivity.
Qed.

Lemma search_trailingSlash : forall s pos,
  search trailingSlash pos s
  = if last_is (is_char SLASH) s
    then Some (pos + length s - 1, pos + length s) else None.
Proof.
  induction s as [|c s IH]; intros pos; [reflexivity|].
  cbn [search]. rewrite exec_trailingSlash. destruct s as [|d s].
  - unfold last_is. simpl. destruct (is_char SLASH c); [|reflexivity].
    do 2 f_equal; lia.
  - rewrite IH. rewrite (@last_is_cons _ c (d :: s)) by discriminate.
    destruct (last_is (is_char SLASH) (d :: s)); [|reflexivity].
    do 2 f_equal; simpl; lia.
Qed.

(** [s.replace(/\/$/, '')] drops one slash at the end, if there is one. *)
Lemma strip_slash s :
  replace_first trailingSlash (fun _ => []) s
  = if last_is (is_char SLASH) s then removelast s else s.
Proof.
  unfold replace_first. rewrite search_trailingSlash.
  destruct (last_is (is_char SLASH) s) eqn:L; [|reflexivity].
  cbn [Nat.add app]. rewrite skipn_all, app_nil_r.
  rewrite removelast_firstn_len. f_equal. lia.
Qed.

(** X11: the upstream is the first of BACKEND_URL and
    NEXT_PUBLIC_BACKEND_URL that is set and not empty, without its last
    character if that is a slash, and unchanged otherwise: exactly one slash
    is dropped. *)
Theorem X11_upstream_url req :
  upstream req
  = (if last_is (is_char SLASH)
          (or_str (BACKEND_URL req) (or_str (NEXT_PUBLIC_BACKEND_URL req) []))
     then removelast
            (or_str (BACKEND_URL req) (or_str (NEXT_PUBLIC_BACKEND_URL req) []))
     else or_str (BACKEND_URL req) (or_str (NEXT_PUBLIC_BACKEND_URL req) [])).
Proof. unfold upstream. apply strip_slash. Qed.

Lemma cleaned_ok normalize typeError raw :
  cleaned normalize typeError raw
  = Ok {| status := 200%N;
          body := Parsed (join [LF] (paragraphs (input_lines (normalize raw))))
                    (length (join [LF] (paragraphs (input_lines (normalize raw))))) |}.
Proof. unfold cleaned. rewrite reconstruct_join. reflexivity. Qed.

Lemma or_str_nonempty a b : b <> [] -> or_str a b <> [].
Proof. intros N. destruct a as [[|c s]|]; simpl; auto; discriminate. Qed.

(** X12: the handler always answers, with one of five status codes: 200
    with the text and its length, or 400, 500, 501 or 502 with an error
    message that is not empty. *)
Theorem X12_response_shape normalize toLowerCase typeError req :
  (status (POST normalize toLowerCase typeError req) = 200%N
   /\ exists text,
        body (POST normalize toLowerCase typeError req) = Parsed text (length text))
  \/ ((status (POST normalize toLowerCase typeError req) = 400%N
       \/ status (POST normalize toLowerCase typeError req) = 500%N
       \/ status (POST normalize toLowerCase typeError req) = 501%N
       \/ status (POST normalize toLowerCase typeError req) = 502%N)
      /\ exists e,
           error_of (body (POST normalize toLowerCase typeError req)) = Some e
           /\ e <> []).
Proof.
  assert (T : forall m : str,
             exists e, error_of (Failed (or_str (Some m) (js "Unknown error"))) = Some e
                       /\ e <> []).
  { intros m. eexists. split; [reflexivity|]. apply or_str_nonempty. discriminate. }
  unfold POST, handle.
  destruct (formData req) as [entry|m]; cbn [bind]; [|right; split; [auto | apply T]].
  destruct entry as [|s|file];
    try (right; split; [auto | eexists; split; [reflexivity | discriminate]]).
  destruct (nonempty _).
  - match goal with |- context [fetch req ?u ?n file] =>
      destruct (fetch req u n file) as [res|m] end; cbn [bind];
      [|right; split; [auto | apply T]].
    destruct (negb (res_ok res)).
    + right. split; [cbn; auto 10 | eexists; split; [reflexivity | discriminate]].
    + destruct (res_json res) as [data|m]; cbn [bind];
        [|right; split; [auto | apply T]].
      rewrite cleaned_ok. left. cbn [status body]. eauto.
  - destruct (_ || _).
    + destruct (file_text file) as [raw|m]; cbn [bind];
        [|right; split; [auto | apply T]].
      rewrite cleaned_ok. left. cbn [status body]. eauto.
    + right. split; [cbn; auto 10 | eexists; split; [reflexivity | discriminate]].
Qed.

(** X13: a TypeError never comes out of the handler: its response does
    not depend on what the message of that error would be. *)
Theorem X13_no_type_error normalize toLowerCase typeError typeError' req :
  POST normalize toLowerCase typeError req
  = POST normalize toLowerCase typeError' req.
Proof.
  unfold POST, handle.
  destruct (formData req) as [entry|m]; cbn [bind]; [|reflexivity].
  destruct entry as [|s|file]; try reflexivity.
  destruct (nonempty _).
  - match goal with |- context [fetch req ?u ?n file] =>
      destruct (fetch req u n file) as [res|m] end; cbn [bind]; [|reflexivity].
    destruct (negb (res_ok res)); [reflexivity|].
    destruct (res_json res) as [data|m]; cbn [bind]; [|reflexivity].
    rewrite !cleaned_ok. reflexivity.
  - destruct (_ || _); [|reflexivity].
    destruct (file_text file) as [raw|m]; cbn [bind]; [|reflexivity].
    rewrite !cleaned_ok. reflexivity.
Qed.

Lemma fetch_agrees normalize toLowerCase typeError req f :
  (forall file,
      formData req = Ok (FileEntry file) ->
      nonempty (upstream req) = true ->
      f (upstream req ++ js "/parse/resume")
        (or_str (Some (file_name file)) (js "resume")) file
      = fetch req (upstream req ++ js "/parse/resume")
          (or_str (Some (file_name file)) (js "resume")) file) ->
  POST normalize toLowerCase typeError (with_fetch f req)
  = POST normalize toLowerCase typeError req.
Proof.
  intros Hf.
  unfold POST, handle, with_fetch. cbn [BACKEND_URL NEXT_PUBLIC_BACKEND_URL formData fetch].
  destruct (formData req) as [entry|m] eqn:F; cbn [bind]; [|reflexivity].
  destruct entry as [|s|file]; try reflexivity.
  fold (upstream req). destruct (nonempty (upstream req)) eqn:U; [|reflexivity].
  rewrite (Hf file eq_refl eq_refl). reflexivity.
Qed.

(** X14: the response depends on [fetch] through one answer only, the one
    to the file under its name (or under the name resume) at the upstream
    URL followed by /parse/resume, and not at all when no upstream is
    configured or the request has no file: it is the same in every world
    where [fetch] answers that one request in the same way.  With a file and
    an upstream that answer does decide the response: a rejection gives 500
    with its message, and an answer that is not ok gives 502 with its status
    and text. *)
Theorem X14_one_fetch normalize toLowerCase typeError req f
    (Hf : forall file,
        formData req = Ok (FileEntry file) ->
        nonempty (upstream req) = true ->
        f (upstream req ++ js "/parse/resume")
          (or_str (Some (file_name file)) (js "resume")) file
        = fetch req (upstream req ++ js "/parse/resume")
            (or_str (Some (file_name file)) (js "resume")) file) :
  POST normalize toLowerCase typeError (with_fetch f req)
  = POST normalize toLowerCase typeError req
  /\ (forall file,
        formData req = Ok (FileEntry file) ->
        nonempty (upstream req) = true ->
        (forall m,
           fetch req (upstream req ++ js "/parse/resume")
             (or_str (Some (file_name file)) (js "resume")) file = Throw m ->
           POST normalize toLowerCase typeError req
           = {| status := 500%N;
                body := Failed (or_str (Some m) (js "Unknown error")) |})
        /\ (forall res,
              fetch req (upstream req ++ js "/parse/resume")
                (or_str (Some (file_name file)) (js "resume")) file = Ok res ->
              res_ok res = false ->
              POST normalize toLowerCase typeError req
              = {| status := 502%N;
                   body := Failed (js "Upstream parse failed: "
                                   ++ decimal (res_status res) ++ [SP]
                                   ++ match res_text res with
                                      | Ok t => t
                                      | Throw _ => []
                                      end) |})).
Proof.
  split; [apply fetch_agrees, Hf|].
  intros file F U. unfold POST, handle. rewrite F. cbn [bind].
  fold (upstream req). rewrite U. split.
  - intros m ->. reflexivity.
  - intros res -> K. cbn [bind]. rewrite K. reflexivity.
Qed.

Lemma X14_one_fetch_witness :
  POST (fun s => s) (fun s => s) []
    (with_fetch (only_at (js "http://localhost:8081/parse/resume")
                   (fetch upload_with_backend))
       upload_with_backend)
  = POST (fun s => s) (fun s => s) [] upload_with_backend
  /\ status (POST (fun s => s) (fun s => s) [] upload_with_backend) = 502%N
  /\ status (POST (fun s => s) (fun s => s) [] upload_parsed) = 200%N.
Proof.
  split; [|split; vm_compute; reflexivity].
  apply (@X14_one_fetch (fun s => s) (fun s => s) [] upload_with_backend
           (only_at (js "http://localhost:8081/parse/resume")
              (fetch upload_with_backend))).
  intros file _ _. vm_compute. reflexivity.
Defined.

(** X15: a request is answered with 400 exactly when its form has no file
    under the name file, whatever is configured. *)
Theorem X15_missing_file normalize toLowerCase typeError req :
  status (POST normalize toLowerCase typeError req) = 400%N
  <-> (formData req = Ok NoEntry \/ exists s, formData req = Ok (StringEntry s)).
Proof.
  unfold POST, handle.
  destruct (formData req) as [entry|m]; cbn [bind].
  - destruct entry as [|s|file].
    + cbn. split; auto.
    + cbn. split; eauto.
    + split.
      * destruct (nonempty _).
        -- match goal with |- context [fetch req ?u ?n file] =>
             destruct (fetch req u n file) as [res|m] end; cbn [bind];
             [|discriminate].
           destruct (negb (res_ok res)); [discriminate|].
           destruct (res_json res) as [data|m]; cbn [bind]; [|discriminate].
           rewrite cleaned_ok. discriminate.
        -- destruct (_ || _); [|discriminate].
           destruct (file_text file) as [raw|m]; cbn [bind]; [|discriminate].
           rewrite cleaned_ok. discriminate.
      * intros [H | (s & H)]; discriminate.
  - split; [discriminate|]. intros [H | (s & H)]; discriminate.
Qed.

Lemma result_shape n :
  leading_ws (join [LF] (paragraphs (input_lines n))) = false
  /\ trailing_ws (join [LF] (paragraphs (input_lines n))) = false
  /\ ~ has_newlines 2 (join [LF] (paragraphs (input_lines n)))
  /\ Forall (fun c => c <> CR) (join [LF] (paragraphs (input_lines n))).
Proof.
  pose proof (paragraphs_clean (input_lines_no_LF n)) as C.
  assert (R : Forall (fun c => c <> CR) (join [LF] (paragraphs (input_lines n)))).
  { apply join_Forall; [discriminate|].
    apply paragraphs_keep; [discriminate | apply input_lines_no_CR]. }
  destruct (paragraphs (input_lines n)) as [|l ls].
  - repeat split; auto. intros (a & b & E). destruct a; discriminate.
  - destruct (join_clean C ltac:(discriminate)) as (_ & T & L & T').
    repeat split; auto. apply tight_no_blank_line, T.
Qed.

(** X16: the text of a response with status 200 has no white space at
    either end, no blank line and no carriage return, and [chars] is its
    length. *)
Theorem X16_text_of_200 normalize toLowerCase typeError req
    (H : status (POST normalize toLowerCase typeError req) = 200%N) :
  exists text,
    body (POST normalize toLowerCase typeError req) = Parsed text (length text)
    /\ leading_ws text = false /\ trailing_ws text = false
    /\ ~ has_newlines 2 text
    /\ Forall (fun c => c <> CR) text.
Proof.
  revert H. unfold POST, handle.
  destruct (formData req) as [entry|m]; cbn [bind]; [|discriminate].
  destruct entry as [|s|file]; try discriminate.
  destruct (nonempty _).
  - match goal with |- context [fetch req ?u ?n file] =>
      destruct (fetch req u n file) as [res|m] end; cbn [bind]; [|discriminate].
    destruct (negb (res_ok res)); [discriminate|].
    destruct (res_json res) as [data|m]; cbn [bind]; [|discriminate].
    rewrite cleaned_ok. intros _. eexists. split; [reflexivity | apply result_shape].
  - destruct (_ || _); [|discriminate].
    destruct (file_text file) as [raw|m]; cbn [bind]; [|discriminate].
    rewrite cleaned_ok. intros _. eexists. split; [reflexivity | apply result_shape].
Qed.

Lemma X16_text_of_200_witness :
  exists text,
    body (POST (fun s => s) (fun s => s) [] text_upload) = Parsed text (length text)
    /\ leading_ws text = false /\ trailing_ws text = false
    /\ ~ has_newlines 2 text
    /\ Forall (fun c => c <> CR) text.
Proof.
  apply (@X16_text_of_200 (fun s => s) (fun s => s) [] text_upload).
  vm_compute. reflexivity.
Defined.

(** ** Lists of names on the harvest page *)

Lemma filter_all (A : Type) (p : A -> bool) (l : list A) :
  Forall (fun x => p x = true) l -> filter p l = l.
Proof.
  induction 1 as [|x l Hx _ IH]; [reflexivity|]. simpl. rewrite Hx, IH. reflexivity.
Qed.

(** X17: every name that [csvToList] returns is not empty, has no white
    space at either end and has no comma in it. *)
Theorem X17_csv_items s : Forall csv_item (csvToList s).
Proof.
  unfold csvToList. apply Forall_forall. intros x Hx.
  apply filter_In in Hx. destruct Hx as [Hx N].
  apply in_map_iff in Hx. destruct Hx as (l & <- & Hl).
  pose proof (split_no_sep COMMA s) as C. rewrite Forall_forall in C.
  repeat split.
  - destruct (trim l); [discriminate | discriminate].
  - apply trim_leading.
  - apply trim_trailing.
  - apply trim_Forall, C, Hl.
Qed.

Lemma split_not_nil sep : forall t, split sep t <> [].
Proof.
  intros [|d t]; simpl; [discriminate|].
  destruct (d =? sep)%N; [discriminate|]. destruct (split sep t); discriminate.
Qed.

Lemma split_prefix sep : forall p t,
  Forall (fun c => c <> sep) p ->
  split sep (p ++ t)
  = match split sep t with
    | l :: ls => (p ++ l) :: ls
    | [] => [p]
    end.
Proof.
  induction p as [|c p IH]; intros t H.
  - simpl. pose proof (split_not_nil sep t) as N.
    destruct (split sep t); [congruence | reflexivity].
  - inversion H as [|? ? Hc Hp]; subst. cbn [app split].
    apply N.eqb_neq in Hc. rewrite Hc, (IH t Hp).
    destruct (split sep t); reflexivity.
Qed.

Lemma split_join_pad pad : forall items,
  Forall (fun c => c <> COMMA) pad ->
  Forall (Forall (fun c => c <> COMMA)) items ->
  split COMMA (join (COMMA :: pad) items)
  = match items with
    | [] => [[]]
    | x :: rest => x :: map (app pad) rest
    end.
Proof.
  induction items as [|x items IH]; intros Hp H; [reflexivity|].
  inversion H as [|? ? Hx Hitems]; subst. destruct items as [|y items].
  - cbn [join map]. apply split_line, Hx.
  - rewrite join_cons2. cbn [app]. rewrite split_line_then by exact Hx.
    f_equal. rewrite split_prefix by exact Hp.
    pose proof (IH Hp Hitems) as E. unfold str in *. rewrite E. reflexivity.
Qed.

(** X18: a list of names written with commas, with or without white space
    after each comma, is read back as it was, the empty list included. *)
Theorem X18_csv_round_trip pad items
    (Hp : forallb is_ws pad = true)
    (Hi : Forall csv_item items) :
  csvToList (join (COMMA :: pad) items) = items.
Proof.
  assert (Pc : Forall (fun c => c <> COMMA) pad).
  { apply Forall_forall. intros c Hc ->. rewrite forallb_forall in Hp.
    specialize (Hp _ Hc). discriminate. }
  assert (Ic : Forall (Forall (fun c => c <> COMMA)) items).
  { eapply Forall_impl; [|exact Hi]. intros x (_ & _ & _ & C). exact C. }
  unfold csvToList. rewrite (split_join_pad Pc Ic).
  destruct items as [|x rest]; [reflexivity|].
  inversion Hi as [|? ? (Nx & Lx & Tx & _) Hrest]; subst.
  cbn [map filter]. rewrite (@trim_id x Lx Tx).
  replace (nonempty x) with true by (destruct x; [congruence | reflexivity]).
  f_equal. clear Ic Hi. induction Hrest as [|y rest (Ny & Ly & Ty & _) _ IH];
    [reflexivity|].
  cbn [map filter].
  replace (trim (pad ++ y)) with y.
  2:{ symmetry. rewrite <- (app_nil_r y) at 1. apply trim_unique; auto. }
  replace (nonempty y) with true by (destruct y; [congruence | reflexivity]).
  f_equal. exact IH.
Qed.

Lemma X18_csv_round_trip_witness :
  csvToList (join (COMMA :: [SP]) [js "stripe"; js "notion"; js "databricks"])
  = [js "stripe"; js "notion"; js "databricks"].
Proof.
  apply X18_csv_round_trip; [reflexivity|].
  repeat constructor; try discriminate; vm_compute; discriminate.
Defined.

Lemma str_eqb_refl : forall a, str_eqb a a = true.
Proof. induction a as [|x a IH]; simpl; [reflexivity | rewrite N.eqb_refl; exact IH]. Qed.

Lemma str_eqb_iff a b : str_eqb a b = true <-> a = b.
Proof. split; [apply str_eqb_eq | intros ->; apply str_eqb_refl]. Qed.

Lemma includes_In name prev : existsb (str_eqb name) prev = true <-> In name prev.
Proof.
  rewrite existsb_exists. split.
  - intros (x & Hx & E). apply str_eqb_iff in E. subst. exact Hx.
  - intros H. exists name. split; [exact H | apply str_eqb_refl].
Qed.

(** X19: toggling a name switches whether it is in the list and leaves
    every other name as it was, in or out; and a list without repetition
    stays without repetition. *)
Theorem X19_toggle name prev :
  (In name (onToggle name prev) <-> ~ In name prev)
  /\ (forall other, other <> name ->
        (In other (onToggle name prev) <-> In other prev))
  /\ (NoDup prev -> NoDup (onToggle name prev)).
Proof.
  unfold onToggle. destruct (existsb (str_eqb name) prev) eqn:E.
  - apply includes_In in E. split; [|split].
    + split; [|intros N; contradiction].
      intros I. apply filter_In in I. destruct I as [_ I].
      rewrite str_eqb_refl in I. discriminate.
    + intros other O. split; intros I.
      * apply filter_In in I. tauto.
      * apply filter_In. split; [exact I|].
        apply negb_true_iff. destruct (str_eqb other name) eqn:B; [|reflexivity].
        apply str_eqb_iff in B. contradiction.
    + intros D. apply NoDup_filter, D.
  - assert (N : ~ In name prev).
    { intros I. apply includes_In in I. congruence. }
    split; [|split].
    + split; [intros _; exact N|].
      intros _. apply in_or_app. right. left. reflexivity.
    + intros other O. split; intros I.
      * apply in_app_or in I. destruct I as [I | [I | []]]; [exact I | congruence].
      * apply in_or_app. left. exact I.
    + intros D. apply NoDup_app; [exact D | repeat constructor; auto |].
      intros x Hx [<- | []]. contradiction.
Qed.

(** ** The filters *)

(** X20: what the component shows after Apply is the state it had, except
    that the policy hybrid becomes any and the date range is cleared. *)
Theorem X20_apply_then_show (Date : Type) (s : FiltersState Date) :
  toInternalState Date (handleApply s)
  = {| fs_q := fs_q s;
       fs_policy := match fs_policy s with
                    | PolicyHybrid => PolicyAny
                    | p => p
                    end;
       fs_seniority := fs_seniority s;
       fs_last24h := fs_last24h s;
       fs_range := (None, None) |}.
Proof.
  destruct s as [q p sen l r]. unfold toInternalState, handleApply.
  cbn [fs_q fs_policy fs_seniority fs_last24h fs_range
       jf_q jf_remote jf_level jf_posted_within_hours].
  f_equal.
  - destruct q; reflexivity.
  - destruct p; reflexivity.
  - destruct (str_eqb sen (js "any")) eqn:E; [|reflexivity].
    apply str_eqb_eq in E. symmetry. exact E.
  - destruct l; reflexivity.
Qed.

(** X21: a filter that the component has read and applied is read back as
    the same state: Apply is stable on what the component shows. *)
Theorem X21_show_apply_show (Date : Type) (v : JobFilter) :
  toInternalState Date (handleApply (toInternalState Date v))
  = toInternalState Date v.
Proof.
  destruct v as [q r lv loc p]. unfold toInternalState, handleApply.
  cbn [fs_q fs_policy fs_seniority fs_last24h fs_range
       jf_q jf_remote jf_level jf_posted_within_hours].
  f_equal.
  - destruct q as [[|c q]|]; reflexivity.
  - destruct r as [r|]; [|reflexivity].
    destruct (str_eqb r (js "true")); [reflexivity|].
    destruct (str_eqb r (js "false")); reflexivity.
  - destruct lv as [lv|]; [|reflexivity].
    destruct (str_eqb lv (js "any")) eqn:E; [|reflexivity].
    apply str_eqb_eq in E. symmetry. exact E.
  - destruct p as [n|]; [|reflexivity].
    destruct (N.eqb_spec n 24); reflexivity.
Qed.

(** ** The base URL *)

Lemma last_is_split p u :
  last_is p u = true -> exists c, u = removelast u ++ [c] /\ p c = true.
Proof.
  intros H. destruct u as [|x u]; [discriminate|].
  destruct (@exists_last _ (x :: u) ltac:(discriminate)) as (w & c & E).
  rewrite E in *. rewrite last_is_snoc in H. rewrite removelast_last. eauto.
Qed.

Lemma PUBLIC_BACKEND_spec env :
  PUBLIC_BACKEND env
  = if last_is (is_char SLASH) (or_str env [])
    then removelast (or_str env []) else or_str env [].
Proof. apply strip_slash. Qed.

Lemma or_str_nil_cases env u :
  or_str env [] = u ->
  (u = [] /\ (env = None \/ env = Some [])) \/ (u <> [] /\ env = Some u).
Proof.
  destruct env as [[|c s]|]; simpl; intros <-; auto.
  right. split; [discriminate | reflexivity].
Qed.

(** X22: the base URL of the client is never empty, and it is /api exactly
    when NEXT_PUBLIC_BACKEND_URL is not set, is empty, is a single slash, or
    is /api itself with or without a slash after it. *)
Theorem X22_base_url env :
  BASE env <> []
  /\ (BASE env = js "/api"
      <-> (env = None \/ env = Some [] \/ env = Some (js "/")
           \/ env = Some (js "/api") \/ env = Some (js "/api/"))).
Proof.
  split.
  - unfold BASE. apply or_str_nonempty. discriminate.
  - unfold BASE. rewrite PUBLIC_BACKEND_spec. split.
    + destruct (or_str_nil_cases env eq_refl) as [[E C] | [N E]].
      * intros _. tauto.
      * destruct (last_is (is_char SLASH) (or_str env [])) eqn:L.
        -- apply last_is_split in L. destruct L as (c & Eu & Hc).
           apply N.eqb_eq in Hc. subst c.
           destruct (removelast (or_str env [])) as [|x w] eqn:R.
           ++ intros _. rewrite E, Eu. auto.
           ++ cbn [or_str]. intros A. rewrite E, Eu, A. auto 10.
        -- destruct (or_str env []) as [|x w] eqn:U; [congruence|].
           cbn [or_str]. intros A. rewrite E, A. auto.
    + intros [-> | [-> | [-> | [-> | ->]]]]; reflexivity.
Qed.

(** ** The excerpt of a job description *)

Lemma exec_spaces pos s :
  exec_at spaces pos s
  = if 1 <=? run_length is_ws s then Some (pos + run_length is_ws s) else None.
Proof. apply rep_greedy. Qed.

(** [replace spaces] is [squeeze]. *)
Lemma squeeze_spec : forall s pos,
  replace_from spaces (fun _ => [SP]) 0 pos s = squeeze false s
  /\ replace_from spaces (fun _ => [SP]) (run_length is_ws s) pos s = squeeze true s.
Proof.
  induction s as [|c s IH]; intros pos.
  - split; reflexivity.
  - destruct (IH (S pos)) as [I0 I1]. cbn [run_length squeeze].
    destruct (is_ws c) eqn:W.
    + split.
      * cbn [replace_from]. rewrite exec_spaces. cbn [run_length]. rewrite W.
        cbn [Nat.leb].
        replace (pos + S (run_length is_ws s) - pos) with (S (run_length is_ws s)) by lia.
        cbn [app]. f_equal. exact I1.
      * cbn [replace_from]. exact I1.
    + split; cbn [replace_from]; rewrite exec_spaces; cbn [run_length];
        rewrite W; cbn [Nat.leb]; f_equal; exact I0.
Qed.

Lemma replace_spaces s : replace spaces (fun _ => [SP]) s = squeeze false s.
Proof. apply squeeze_spec. Qed.

Lemma ws_not_GT c : is_ws c = true -> is_char GT c = false.
Proof.
  intros W. destruct (is_char GT c) eqn:E; [|reflexivity].
  apply N.eqb_eq in E. subst c. discriminate W.
Qed.

Lemma GT_not_LT c : is_char GT c = true -> is_char LT c = false.
Proof. intros E. apply N.eqb_eq in E. subst c. reflexivity. Qed.

Lemma tag_at_space s : tag_at (SP :: s) = false.
Proof. destruct s as [|c [|d r]]; reflexivity. Qed.

(** A tag at the head of [s], as the expression [tag] sees it. *)
Lemma tag_at_shape s :
  tag_at s = true
  <-> exists w t, s = LT :: w ++ GT :: t /\ w <> [] /\ forallb not_GT w = true.
Proof.
  split.
  - destruct s as [|x [|c r]]; try discriminate. cbn [tag_at].
    intros H. apply andb_true_iff in H. destruct H as [H Hg].
    apply andb_true_iff in H. destruct H as [Hx Hc].
    apply N.eqb_eq in Hx. subst x.
    destruct (run_length_split not_GT r) as (t & E & Z0 & A).
    destruct t as [|g t].
    + exfalso. rewrite app_nil_r in E. rewrite E in Hg.
      clear E Z0. induction (firstn (run_length not_GT r) r) as [|y w IH];
        [discriminate|].
      cbn [forallb existsb] in *. apply andb_true_iff in A. destruct A as [Ay Aw].
      unfold not_GT in Ay. apply negb_true_iff in Ay. rewrite Ay in Hg.
      cbn [orb] in Hg. auto.
    + cbn [run_length] in Z0. destruct (not_GT g) eqn:G; [discriminate|].
      unfold not_GT in G. apply negb_false_iff in G. apply N.eqb_eq in G. subst g.
      exists (c :: firstn (run_length not_GT r) r), t. repeat split.
      * cbn [app]. do 2 f_equal. exact E.
      * discriminate.
      * cbn [forallb]. rewrite Hc, A. reflexivity.
  - intros (w & t & -> & Hw & A). destruct w as [|c w]; [congruence|].
    cbn [app tag_at forallb] in *. apply andb_true_iff in A. destruct A as [Ac Aw].
    rewrite Ac. change (is_char LT LT) with true. cbn [andb].
    rewrite existsb_app. cbn [existsb]. change (is_char GT GT) with true.
    cbn [orb]. apply orb_true_r.
Qed.

Lemma exec_tag_sound pos s e :
  exec_at tag pos s = Some e ->
  exists w t, s = LT :: w ++ GT :: t /\ w <> [] /\ forallb not_GT w = true
              /\ e = pos + S (S (length w)).
Proof.
  intros E. apply exec_at_sound in E. destruct E as (s' & M).
  cbn [tag matches] in M.
  destruct M as (p2 & s2 & (p1 & s1 & (x & -> & Hx & ->) & (w & -> & A & L & ->))
                 & (g & -> & Hg & ->)).
  apply N.eqb_eq in Hx. apply N.eqb_eq in Hg. subst x g.
  exists w, s'. repeat split; auto.
  - apply length_zero_nil. exact L.
  - lia.
Qed.

Lemma exec_tag_complete pos s : tag_at s = true -> exec_at tag pos s <> None.
Proof.
  intros T. apply tag_at_shape in T. destruct T as (w & t & -> & Hw & A).
  apply (@exec_at_complete tag pos (LT :: w ++ GT :: t) (pos + S (S (length w))) t).
  cbn [tag matches].
  exists (S pos + length w), (GT :: t). split.
  - exists (S pos), (w ++ GT :: t). split.
    + exists LT. repeat split.
    + exists w. repeat split; auto. apply nil_length_zero. exact Hw.
  - exists GT. repeat split. lia.
Qed.

Lemma untag_empty pos : replace_from tag (fun _ => [SP]) 0 pos [] = [].
Proof. reflexivity. Qed.

(** Where no tag starts, a character is copied. *)
Lemma untag_copy pos x s :
  tag_at (x :: s) = false ->
  replace_from tag (fun _ => [SP]) 0 pos (x :: s) = x :: replace_from tag (fun _ => [SP]) 0 (S pos) s.
Proof.
  intros T. cbn [replace_from].
  destruct (exec_at tag pos (x :: s)) as [e|] eqn:E; [|reflexivity].
  exfalso. apply exec_tag_sound in E. destruct E as (w & t & E & Hw & A & _).
  assert (T' : tag_at (x :: s) = true) by (apply tag_at_shape; eauto).
  congruence.
Qed.

(** A tag becomes one space, and the text goes on after it. *)
Lemma untag_tag pos x s :
  tag_at (x :: s) = true ->
  exists n pos', n <= length s
    /\ replace_from tag (fun _ => [SP]) 0 pos (x :: s)
       = SP :: replace_from tag (fun _ => [SP]) 0 pos' (skipn n s).
Proof.
  intros T. pose proof (@exec_tag_complete pos _ T) as C.
  cbn [replace_from].
  destruct (exec_at tag pos (x :: s)) as [e|] eqn:E; [|congruence].
  apply exec_tag_sound in E. destruct E as (w & t & E & Hw & A & ->).
  injection E as -> ->.
  replace (pos + S (S (length w)) - pos) with (S (S (length w))) by lia.
  exists (S (length w)), (S pos + S (length w)). split.
  - rewrite length_app. cbn [length]. lia.
  - cbn [app]. f_equal. apply replace_from_skip.
    rewrite length_app. cbn [length]. lia.
Qed.

Lemma untag_no_GT s pos :
  existsb (is_char GT) s = false ->
  existsb (is_char GT) (replace_from tag (fun _ => [SP]) 0 pos s) = false.
Proof.
  intros H.
  assert (F : forall l, existsb (is_char GT) l = false
                        <-> Forall (fun c => is_char GT c = false) l).
  { induction l as [|c l IH]; cbn [existsb].
    - split; auto.
    - rewrite orb_false_iff, IH. split.
      + intros [? ?]. constructor; auto.
      + intros F. inversion F; auto. }
  apply F. apply replace_from_Forall.
  - intros _ _. repeat constructor.
  - apply F. exact H.
Qed.

(** No tag is left where the tags have been replaced. *)
Lemma untag_tag_free : forall n s pos,
  length s <= n -> tag_free (replace_from tag (fun _ => [SP]) 0 pos s) = true.
Proof.
  induction n as [|n IH]; intros s pos L.
  - destruct s; [reflexivity | simpl in L; lia].
  - destruct s as [|x s]; [reflexivity|]. cbn [length] in L.
    destruct (tag_at (x :: s)) eqn:T.
    + destruct (@untag_tag pos x s T) as (k & pos' & Hk & ->).
      cbn [tag_free]. rewrite tag_at_space. cbn [negb andb].
      apply IH. rewrite length_skipn. lia.
    + rewrite (@untag_copy pos x s T). cbn [tag_free].
      rewrite (IH s (S pos)) by lia. rewrite andb_true_r.
      destruct (tag_at (x :: replace_from tag (fun _ => [SP]) 0 (S pos) s)) eqn:T2;
        [exfalso | reflexivity].
      destruct (replace_from tag (fun _ => [SP]) 0 (S pos) s) as [|c r] eqn:R;
        [discriminate T2|].
      cbn [tag_at] in T2. apply andb_true_iff in T2. destruct T2 as [T2 Hg].
      apply andb_true_iff in T2. destruct T2 as [Hx Hc].
      destruct s as [|c0 r0]; [discriminate R|].
      cbn [tag_at] in T. rewrite Hx in T. cbn [andb] in T.
      destruct (not_GT c0) eqn:G0; cbn [andb] in T.
      * pose proof (@untag_no_GT (c0 :: r0) (S pos)) as N.
        cbn [existsb] in N. unfold not_GT in G0. apply negb_true_iff in G0.
        rewrite G0, T in N. specialize (N eq_refl). rewrite R in N.
        cbn [existsb] in N. apply orb_false_iff in N. destruct N as [_ N].
        rewrite N in Hg. discriminate.
      * unfold not_GT in G0. apply negb_false_iff in G0.
        assert (T0 : tag_at (c0 :: r0) = false).
        { destruct r0 as [|d0 r0]; [reflexivity|]. cbn [tag_at].
          rewrite (GT_not_LT _ G0). reflexivity. }
        rewrite (@untag_copy _ _ _ T0) in R. injection R as -> _.
        unfold not_GT in Hc. rewrite G0 in Hc. discriminate.
Qed.

Lemma replace_tag_free s : tag_free (replace tag (fun _ => [SP]) s) = true.
Proof. apply (@untag_tag_free (length s)). lia. Qed.

Lemma squeeze_GT : forall s b,
  existsb (is_char GT) (squeeze b s) = existsb (is_char GT) s.
Proof.
  induction s as [|c s IH]; intros b; [reflexivity|]. cbn [squeeze existsb].
  destruct (is_ws c) eqn:W.
  - rewrite (ws_not_GT _ W). cbn [orb]. destruct b; cbn [existsb]; rewrite IH; reflexivity.
  - cbn [existsb]. rewrite IH. reflexivity.
Qed.

Lemma tag_at_squeeze x s :
  tag_at (x :: squeeze false s) = tag_at (x :: s).
Proof.
  destruct s as [|h s]; [reflexivity|]. cbn [squeeze].
  destruct (is_ws h) eqn:W; cbn [tag_at].
  - rewrite squeeze_GT. unfold not_GT. rewrite (ws_not_GT _ W). reflexivity.
  - rewrite squeeze_GT. reflexivity.
Qed.

Lemma squeeze_tag_free : forall s b,
  tag_free s = true -> tag_free (squeeze b s) = true.
Proof.
  induction s as [|c s IH]; intros b H; [reflexivity|].
  cbn [tag_free] in H. apply andb_true_iff in H. destruct H as [T H].
  cbn [squeeze]. destruct (is_ws c) eqn:W.
  - destruct b; [apply IH; exact H|].
    cbn [tag_free]. rewrite tag_at_space. cbn [negb andb]. apply IH. exact H.
  - cbn [tag_free]. rewrite tag_at_squeeze, T. cbn [andb]. apply IH. exact H.
Qed.

Lemma tag_free_app_r : forall a b, tag_free (a ++ b) = true -> tag_free b = true.
Proof.
  induction a as [|x a IH]; intros b H; [exact H|].
  cbn [app tag_free] in H. apply andb_true_iff in H. apply IH. tauto.
Qed.

Lemma tag_at_app a b : tag_at a = true -> tag_at (a ++ b) = true.
Proof.
  destruct a as [|x [|c r]]; try discriminate. cbn [app tag_at].
  intros H. apply andb_true_iff in H. destruct H as [H Hg]. rewrite H.
  rewrite existsb_app, Hg. reflexivity.
Qed.

Lemma tag_free_app_l : forall a b, tag_free (a ++ b) = true -> tag_free a = true.
Proof.
  induction a as [|x a IH]; intros b H; [reflexivity|].
  change ((x :: a) ++ b) with (x :: (a ++ b)) in H.
  cbn [tag_free] in *. apply andb_true_iff in H. destruct H as [T H].
  rewrite (IH _ H), andb_true_r.
  destruct (tag_at (x :: a)) eqn:T2; [|reflexivity].
  apply (@tag_at_app _ b) in T2. cbn [app] in T2. rewrite T2 in T. discriminate.
Qed.

Lemma trim_tag_free s : tag_free s = true -> tag_free (trim s) = true.
Proof.
  intros H. unfold trim.
  destruct (trimStart_suffix s) as (w & E).
  destruct (trimEnd_prefix (trimStart s)) as (v & E').
  rewrite E in H. apply tag_free_app_r in H.
  rewrite E' in H. apply tag_free_app_l in H. exact H.
Qed.

Lemma tag_free_ellipsis : forall a,
  tag_free a = true -> tag_free (a ++ [ELLIPSIS]) = true.
Proof.
  induction a as [|x a IH]; intros H; [reflexivity|].
  cbn [tag_free] in H. apply andb_true_iff in H. destruct H as [T H].
  change ((x :: a) ++ [ELLIPSIS]) with (x :: (a ++ [ELLIPSIS])).
  cbn [tag_free]. rewrite (IH H), andb_true_r.
  destruct a as [|c r].
  - cbn [app tag_at existsb]. rewrite andb_false_r. reflexivity.
  - cbn [app tag_at] in *. rewrite existsb_app. cbn [existsb].
    change (is_char GT ELLIPSIS) with false. cbn [orb]. rewrite orb_false_r.
    exact T.
Qed.

Lemma squeeze_single_spaced : forall s b, single_spaced b (squeeze b s) = true.
Proof.
  induction s as [|c s IH]; intros b; [reflexivity|]. cbn [squeeze].
  destruct (is_ws c) eqn:W.
  - destruct b; [apply IH|]. cbn [single_spaced].
    change (is_ws SP) with true. cbn iota. rewrite IH. reflexivity.
  - cbn [single_spaced]. rewrite W. apply IH.
Qed.

Lemma single_spaced_weaken s b :
  single_spaced b s = true -> single_spaced false s = true.
Proof.
  destruct s as [|c s]; [reflexivity|]. cbn [single_spaced].
  destruct (is_ws c); [|auto]. destruct b; [discriminate | auto].
Qed.

Lemma single_spaced_app_r : forall a b s,
  single_spaced b (a ++ s) = true -> single_spaced false s = true.
Proof.
  induction a as [|x a IH]; intros b s H.
  - exact (single_spaced_weaken _ _ H).
  - cbn [app single_spaced] in H. destruct (is_ws x).
    + apply andb_true_iff in H. destruct H as [_ H]. exact (IH _ _ H).
    + exact (IH _ _ H).
Qed.

Lemma single_spaced_app_l : forall a b s,
  single_spaced b (a ++ s) = true -> single_spaced b a = true.
Proof.
  induction a as [|x a IH]; intros b s H; [reflexivity|].
  cbn [app single_spaced] in *. destruct (is_ws x).
  - apply andb_true_iff in H. destruct H as [H1 H]. rewrite H1.
    exact (IH _ _ H).
  - exact (IH _ _ H).
Qed.

Lemma single_spaced_ellipsis : forall a b,
  single_spaced b a = true -> single_spaced b (a ++ [ELLIPSIS]) = true.
Proof.
  induction a as [|x a IH]; intros b H; [reflexivity|].
  cbn [app single_spaced] in *. destruct (is_ws x).
  - apply andb_true_iff in H. destruct H as [H1 H]. rewrite H1. exact (IH _ H).
  - exact (IH _ H).
Qed.

Lemma trim_single_spaced s b :
  single_spaced b s = true -> single_spaced false (trim s) = true.
Proof.
  intros H. unfold trim.
  destruct (trimStart_suffix s) as (w & E).
  destruct (trimEnd_prefix (trimStart s)) as (v & E').
  rewrite E in H. apply single_spaced_app_r in H.
  rewrite E' in H. apply single_spaced_app_l in H. exact H.
Qed.

Lemma slice0_firstn s e : exists n, slice0 s e = firstn n s.
Proof. unfold slice0. destruct (e <? 0)%Z; eauto. Qed.

Lemma plain_text_tag_free decode html : tag_free (plain_text decode html) = true.
Proof.
  unfold plain_text. apply trim_tag_free. rewrite replace_spaces.
  apply squeeze_tag_free. apply replace_tag_free.
Qed.

Lemma plain_text_single_spaced decode html :
  single_spaced false (plain_text decode html) = true.
Proof.
  unfold plain_text. rewrite replace_spaces.
  apply (@trim_single_spaced _ false). apply squeeze_single_spaced.
Qed.

Lemma excerpt_cases decode html max :
  excerptFromHtml decode html max = plain_text decode html
  \/ exists n, excerptFromHtml decode html max
               = firstn n (plain_text decode html) ++ [ELLIPSIS].
Proof.
  unfold excerptFromHtml. cbv zeta.
  destruct (max <? Z.of_nat (length (plain_text decode html)))%Z; [right | left; reflexivity].
  destruct (slice0_firstn (plain_text decode html) (max - 1)) as (n & ->). eauto.
Qed.

Lemma leading_ws_firstn n s : leading_ws s = false -> leading_ws (firstn n s ++ [ELLIPSIS]) = false.
Proof. destruct n, s; auto. Qed.

(** X23: with a limit of at least one character the excerpt is never longer
    than the limit: it is the whole plain text when that fits, and otherwise
    the first [max - 1] characters of it and an ellipsis. *)
Theorem X23_excerpt_length decode html max (H : (1 <= max)%Z) :
  (Z.of_nat (length (excerptFromHtml decode html max)) <= max)%Z
  /\ ((Z.of_nat (length (plain_text decode html)) <= max)%Z ->
      excerptFromHtml decode html max = plain_text decode html)
  /\ ((max < Z.of_nat (length (plain_text decode html)))%Z ->
      excerptFromHtml decode html max
      = firstn (Z.to_nat (max - 1)) (plain_text decode html) ++ [ELLIPSIS]).
Proof.
  unfold excerptFromHtml. cbv zeta.
  destruct (max <? Z.of_nat (length (plain_text decode html)))%Z eqn:E.
  - apply Z.ltb_lt in E. unfold slice0.
    destruct (max - 1 <? 0)%Z eqn:E0; [apply Z.ltb_lt in E0; lia|].
    repeat split.
    + rewrite length_app, length_firstn. cbn [length]. lia.
    + lia.
  - apply Z.ltb_ge in E. repeat split; [exact E | lia].
Qed.

Lemma X23_excerpt_length_witness :
  let html := js "<p>Senior <b>Rust</b>   engineer</p>" in
  (1 <= 9)%Z
  /\ excerptFromHtml (fun s => s) html 9 = js "Senior R" ++ [ELLIPSIS]
  /\ excerptFromHtml (fun s => s) html 300 = js "Senior Rust engineer".
Proof.
  cbv zeta. split; [lia|].
  destruct (@X23_excerpt_length (fun s => s)
              (js "<p>Senior <b>Rust</b>   engineer</p>") 9 ltac:(lia))
    as (_ & _ & E).
  split; [rewrite E by (vm_compute; reflexivity); vm_compute; reflexivity|].
  vm_compute. reflexivity.
Defined.

Lemma tag_free_test s : tag_free s = true -> test tag s = false.
Proof.
  intros F. destruct (test tag s) eqn:T; [exfalso | reflexivity].
  apply test_true in T. destruct T as (i & pos' & s' & Hi & M).
  pose proof (exec_at_complete _ _ _ _ _ M) as C.
  destruct (exec_at tag i (skipn i s)) as [e|] eqn:E; [|congruence].
  apply exec_tag_sound in E. destruct E as (w & t & E & Hw & A & _).
  assert (T : tag_at (skipn i s) = true) by (apply tag_at_shape; eauto).
  rewrite <- (firstn_skipn i s) in F. apply tag_free_app_r in F.
  destruct (skipn i s) as [|x r]; [discriminate T|].
  cbn [tag_free] in F. rewrite T in F. discriminate.
Qed.

(** X24: no tag is left in the excerpt, whatever the description holds and
    whatever the limit is: the expression that finds the tags, a [<], then
    one or more characters other than [>], then a [>], finds none in it. *)
Theorem X24_excerpt_no_tag decode html max :
  test tag (excerptFromHtml decode html max) = false.
Proof.
  apply tag_free_test.
  destruct (excerpt_cases decode html max) as [-> | (n & ->)].
  - apply plain_text_tag_free.
  - apply tag_free_ellipsis.
    pose proof (plain_text_tag_free decode html) as P.
    rewrite <- (firstn_skipn n (plain_text decode html)) in P.
    exact (tag_free_app_l _ _ P).
Qed.

(** X25: the white space of the excerpt is single spaces: every white space
    character in it is a space, no two of them are next to each other, and
    the excerpt does not start with one. *)
Theorem X25_excerpt_spacing decode html max :
  single_spaced false (excerptFromHtml decode html max) = true
  /\ leading_ws (excerptFromHtml decode html max) = false.
Proof.
  pose proof (plain_text_single_spaced decode html) as S.
  assert (L : leading_ws (plain_text decode html) = false)
    by apply trim_leading.
  destruct (excerpt_cases decode html max) as [-> | (n & ->)].
  - auto.
  - split.
    + apply single_spaced_ellipsis.
      rewrite <- (firstn_skipn n (plain_text decode html)) in S.
      exact (single_spaced_app_l _ _ _ S).
    + apply leading_ws_firstn. exact L.
Qed.

(** ** Bullet lines, the join rule and line ends *)








(** The step on a bullet line, with the state written out. *)
Lemma step_bullet_written cur next st :
  test bullets cur = true ->
  step cur next st
  = {| out := out st
              ++ match trim (buf st) with [] => [] | c :: p => [c :: p] end
              ++ [cur];
       buf := [] |}.
Proof.
  intros B. rewrite (@step_bullet cur next st B). unfold push, flush.
  cbn [out buf]. destruct (trim (buf st)); [reflexivity|].
  rewrite <- app_assoc. reflexivity.
Qed.


(** C3, as amended: a line that is a marker, or a number with [.] or
    [)], followed by white space and then text is never merged into a
    paragraph.  The expression [bullets] accepts it; whatever the next line
    and the state are, the step puts what is in the buffer, trimmed, into
    [out] if it is not empty, then the line, and leaves the buffer empty;
    and the line is a line of the result, with the text of the lines before
    it in the lines before and the text of the lines after it in the lines
    after. *)
Theorem C3_bullet_line_stands_alone normalize input i l
    (Hl : nth_error (input_lines (normalize input)) i = Some l)
    (Hb : bullet_shape (trim l)) :
  test bullets (trim l) = true
  /\ (forall next st,
        step (trim l) next st
        = {| out := out st
                    ++ match trim (buf st) with [] => [] | c :: p => [c :: p] end
                    ++ [trim l];
             buf := [] |})
  /\ exists before after,
       reconstructResumeText normalize input
       = Some (join [LF] (before ++ trim l :: after))
       /\ split LF (join [LF] (before ++ trim l :: after))
          = before ++ trim l :: after
       /\ concat (map ink before)
          = concat (map ink (firstn i (input_lines (normalize input))))
       /\ concat (map ink after)
          = concat (map ink (skipn (S i) (input_lines (normalize input)))).
Proof.
  apply bullets_shape in Hb. split; [exact Hb|].
  split; [intros next st; apply step_bullet_written, Hb|].
  exists (paragraphs (firstn i (input_lines (normalize input)))),
         (paragraphs (skipn (S i) (input_lines (normalize input)))).
  pose proof (paragraphs_clean (input_lines_no_LF (normalize input))) as Hc.
  pose proof (@nth_error_split _ _ _ _ Hl) as E.
  pose proof (@paragraphs_around_bullet
                (firstn i (input_lines (normalize input))) l
                (skipn (S i) (input_lines (normalize input))) Hb) as A.
  rewrite <- E in A. cbn [app] in A. rewrite <- A.
  split; [apply reconstruct_join|]. split; [|split; apply ink_paragraphs].
  apply split_join.
  - eapply Forall_impl; [|exact Hc]. intros x (_ & N & _). exact N.
  - rewrite A. destruct (paragraphs (firstn i (input_lines (normalize input))));
      discriminate.
Qed.

Lemma C3_bullet_line_stands_alone_witness :
  (forall next st,
     step (js "1) Managed budget") next st
     = {| out := out st
                 ++ match trim (buf st) with [] => [] | c :: p => [c :: p] end
                 ++ [js "1) Managed budget"];
          buf := [] |})
  /\ exists before after,
       reconstructResumeText (fun s => s) numbered_item
       = Some (join [LF] (before ++ js "1) Managed budget" :: after))
       /\ concat (map ink before) = js "Managedateam"
       /\ concat (map ink after) = [].
Proof.
  destruct (@C3_bullet_line_stands_alone (fun s => s) numbered_item 1
              (js "1) Managed budget"))
    as (_ & S & before & after & R & _ & B & A);
    [vm_compute; reflexivity | apply bullets_shape; vm_compute; reflexivity |].
  split; [exact S|]. exists before, after. split; [exact R|].
  split; [exact B | exact A].
Defined.

(** C3 as stated fails on a line whose marker is not followed by white
    space: such a line begins with a list marker and is merged into the
    paragraph before it. *)
Lemma C3_marker_without_space_merged :
  stated_bullet_line (js "-foo") = true
  /\ stated_bullet_line (js "1)") = true
  /\ (forall normalize, fixes_ascii normalize ->
        reconstructResumeText normalize marker_glued = Some (js "abc -foo")
        /\ reconstructResumeText normalize bare_number = Some (js "abc 1)"))
  /\ split LF (js "abc -foo") = [js "abc -foo"]
  /\ split LF (js "abc 1)") = [js "abc 1)"].
Proof.
  split; [vm_compute; reflexivity|]. split; [vm_compute; reflexivity|].
  split; [|split; vm_compute; reflexivity].
  intros normalize H. split; run_ascii H.
Qed.




Lemma no_hyphen_break_unchanged s : hyphen_break s = false -> dehyphenated s = s.
Proof.
  intros H. apply dehyphen_none. intros i.
  destruct (soft_break (skipn i s)) eqn:E; [|reflexivity].
  apply soft_break_hyphen_break in E. congruence.
Qed.

(** C5: at a line break written as a carriage return and a newline the
    soft hyphen is not unwrapped.  The unwrapping looks for a hyphen right
    before the newline and runs before the carriage returns are removed, so
    it changes nothing where no hyphen comes right before a newline; the
    example with such a line break keeps its hyphen and gets a space, where
    the same text with a bare newline is rejoined. *)
Theorem C5_crlf_not_unwrapped normalize (H : fixes_ascii normalize) :
  reconstructResumeText normalize wrapped_word_crlf
  = Some (js "infrastructur- e team")
  /\ reconstructResumeText normalize wrapped_word = Some wrapped_word_result
  /\ (forall s, hyphen_break s = false -> dehyphenated s = s)
  /\ hyphen_break wrapped_word_crlf = false.
Proof.
  split; [run_ascii H|]. split; [run_ascii H|].
  split; [exact no_hyphen_break_unchanged | reflexivity].
Qed.

Lemma C5_crlf_not_unwrapped_witness :
  reconstructResumeText (fun s => s) wrapped_word_crlf
  = Some (js "infrastructur- e team")
  /\ reconstructResumeText (fun s => s) wrapped_word = Some wrapped_word_result.
Proof.
  destruct (@C5_crlf_not_unwrapped (fun s => s)) as (A & B & _);
    [intros s _; reflexivity|].
  split; [exact A | exact B].
Defined.
